(** * Our-Private-Cinema-Night: synchronisation and peer-connection engine

    A shallow embedding of
      - [server/index.js]: the socket.io event handlers that own the rooms
        (the "Session Store"), the counters of [serverMetrics] and
        [formatUptime],
      - [components/VideoPlayer.tsx]: the playback synchronisation effect
        and the handlers of the player,
      - [hooks/useRoom.ts]: what the hook sends to the server and what it
        makes of the states and corrections it receives,
      - [hooks/useWebRTC.ts]: the peer connections and the reconnect timers
        of the health check,
    followed by the properties of the design document that speak about them
    and by further properties of the code.

    Conventions of the embedding.
      - JavaScript numbers that hold seconds are rationals ([Q]); numbers
        that hold [Date.now()] readings, counters or timer handles are
        integers.
      - [Date.now()] is an input: a handler receives a [Clock], the sequence
        of readings it obtains, in program order.
      - A plain object used as a dictionary whose iteration order is observed
        ([users], [peerConnections]) is a [JsObject.obj]; one that is only
        indexed ([rooms], [reconnectTimeouts], a chat message, the fields a
        patch carries beyond the schema) is a [gmap].
      - The server reads and writes [rooms] and [users] with strings it has
        received.  A key that names a member of [Object.prototype] reads as
        that member where the object has no property of that name, and an
        assignment to [__proto__] replaces the prototype
        ([JsObject.inherited], [JsObject.enumerable], [Server.handle]).  The
        embedding does not follow what a handler writes onto such a member,
        nor what is read through a prototype that was replaced: its state is
        the store.  [ServerExtra.served] tells the states of a server on
        which neither has happened.  The peers of [useWebRTC] are taken to
        have ids that name no such member.
      - The fields of the schema carried by an event have the types the
        TypeScript interfaces of the client give them.
      - [io.to(x).emit], [socket.emit], [socket.to(x).emit] and
        [console.warn] are recorded, in order, in the list of effects a
        handler returns; [console.log] tracing is left out, and the counters
        of [serverMetrics] are kept apart, in [ServerHealth].
      - An uncaught [TypeError] is the result [None].
      - A timer set with [setTimeout] stays in the list of pending timers
        until it fires or is cleared; firing is an event of its own. *)

From Stdlib Require Import Ascii String QArith Qabs Qminmax Qfield.
From stdpp Require Import gmap strings list fin_maps sorting pretty.

Local Open Scope Z_scope.

(** * The embedding *)

(** ** Comparisons on rationals, as boolean tests *)

Definition Qgtb (x y : Q) : bool := negb (Qle_bool x y).
Definition Qltb (x y : Q) : bool := negb (Qle_bool y x).

(** ** JSON values carried opaquely by the handlers *)

Inductive jsval : Type :=
  | JNull
  | JBool (b : bool)
  | JNum (q : Q)
  | JStr (s : string).

(** Successive readings of [Date.now()] inside one handler invocation. *)
Definition Clock : Type := nat → Z.

(** ** Plain JavaScript objects whose key order is observed *)

Module JsObject.

(** Own properties in creation order. *)
Abbreviation obj V := (list (string * V)).

Definition has {V} (o : obj V) (k : string) : bool :=
  bool_decide (k ∈ o.*1).

(** [o[k]] where [o] has a property of that name; [inherited] below tells
    the keys that read as a member of the prototype where it has none. *)
Fixpoint get {V} (o : obj V) (k : string) : option V :=
  match o with
  | [] => None
  | (k', v) :: o' => if decide (k' = k) then Some v else get o' k
  end.

(** [o[k] = v]: an existing property keeps its place, a new one is created
    last. *)
Definition set {V} (o : obj V) (k : string) (v : V) : obj V :=
  if has o k
  then (λ kv : string * V, if decide (kv.1 = k) then (k, v) else kv) <$> o
  else o ++ [(k, v)].

(** [delete o[k]] *)
Definition remove {V} (o : obj V) (k : string) : obj V :=
  filter (λ kv : string * V, kv.1 ≠ k) o.

(** Array indices: canonical decimal numerals below 2^32 - 1. *)
Definition digit_of (a : ascii) : option N :=
  let n := N_of_ascii a in
  if ((48 <=? n) && (n <=? 57))%N then Some (n - 48)%N else None.

Fixpoint digits_value (acc : N) (s : string) : option N :=
  match s with
  | EmptyString => Some acc
  | String a s' =>
      match digit_of a with
      | Some d => digits_value (acc * 10 + d)%N s'
      | None => None
      end
  end.

Definition array_index (s : string) : option N :=
  match s with
  | EmptyString => None
  | String a rest =>
      if decide (a = "0"%char)
      then (if decide (rest = EmptyString) then Some 0%N else None)
      else match digits_value 0 s with
           | Some n => if (n <? 2 ^ 32 - 1)%N then Some n else None
           | None => None
           end
  end.

Definition is_index (k : string) : Prop := is_Some (array_index k).

Definition index_le (a b : string) : Prop :=
  (default 0 (array_index a) ≤ default 0 (array_index b))%N.

#[global] Instance index_le_dec (a b : string) : Decision (index_le a b).
Proof. unfold index_le. apply _. Defined.

(** The order in which own property keys are enumerated: array indices in
    ascending numeric order, then the other keys in creation order. *)
Definition own_keys (created : list string) : list string :=
  merge_sort index_le (filter is_index created)
  ++ filter (λ k, ¬ is_index k) created.

(** [Object.keys(o)] and [Object.values(o)] *)
Definition keys {V} (o : obj V) : list string := own_keys o.*1.
Definition values {V} (o : obj V) : list V := omap (get o) (keys o).

(** [Object.entries(o)] *)
Definition entries {V} (o : obj V) : list (string * V) :=
  omap (λ k, pair k <$> get o k) (keys o).

(** The members every plain object inherits from [Object.prototype]: for a
    key among them that the object has no property for, [o[k]] is the
    member, a function or, for [__proto__], the prototype itself, and so is
    truthy. *)
Definition prototype_members : list string :=
  ["constructor"; "__proto__"; "hasOwnProperty"; "isPrototypeOf";
   "propertyIsEnumerable"; "toLocaleString"; "toString"; "valueOf";
   "__defineGetter__"; "__defineSetter__"; "__lookupGetter__";
   "__lookupSetter__"].

Definition inherited (k : string) : bool :=
  bool_decide (k ∈ prototype_members).

(** An assignment [o.__proto__ = v] creates no property: it puts [v] in
    the place of the prototype of [o], where [o["__proto__"]] reads it
    back.  An object that the code assigns to with keys it has received
    keeps that prototype as its entry of key [__proto__]; its properties,
    which [Object.keys] and [Object.values] enumerate, are the other
    entries. *)
Definition enumerable {V} (o : obj V) : obj V :=
  filter (λ kv : string * V, kv.1 ≠ "__proto__") o.

End JsObject.

(** ** The Session Store: [server/index.js] *)

Module Server.

Inductive Quality : Type := good | fair | poor.

(** [users[userId].connectionQuality] *)
Record ConnectionQuality : Type := {
  lastReportTime : Z;
  averageDrift : Q;
  reportCount : Z;
  quality : Quality
}.

(** An entry of [rooms[roomId].users]; [connectionQuality] is absent until
    the first position report. *)
Record User : Type := {
  id : string;
  username : string;
  socketId : string;
  connectionQuality : option ConnectionQuality
}.

(** [rooms[roomId].videoState].  [extraFields] are the properties of the
    object that are not part of the schema. *)
Record VideoState : Type := {
  isPlaying : bool;
  playedSeconds : Q;
  url : string;
  lastUpdated : Z;
  updatedBy : string;
  serverTimestamp : Z;
  isBuffering : bool;
  playbackRate : Q;
  extraFields : gmap string jsval
}.

(** The [videoState] payload of a [video-state] event: any subset of the
    schema's fields, and any other property. *)
Record VideoStatePatch : Type := {
  patch_isPlaying : option bool;
  patch_playedSeconds : option Q;
  patch_url : option string;
  patch_lastUpdated : option Z;
  patch_updatedBy : option string;
  patch_serverTimestamp : option Z;
  patch_isBuffering : option bool;
  patch_playbackRate : option Q;
  patch_extraFields : gmap string jsval
}.

Record Room : Type := {
  users : JsObject.obj User;
  hostId : string;
  videoState : VideoState;
  messages : list (gmap string jsval);
  createdAt : Z;
  syncCheckpoint : Z
}.

(** The [signal] member of a [signal] event. *)
Record Signal : Type := {
  signal_type : string;
  signal_from : string;
  signal_data : jsval
}.

(** Where an emit is addressed. *)
Inductive target : Type :=
  | io_to (name : string)                  (* io.to(name).emit *)
  | io_to_undefined                        (* io.to(undefined).emit *)
  | socket_emit (sid : string)             (* socket.emit, socket.id = sid *)
  | socket_to (sid : string) (name : string). (* socket.to(name).emit *)

(** The event emitted and its payload. *)
Inductive message : Type :=
  | update_users (us : list User)
  | sync_state (vs : VideoState) (msgs : list (gmap string jsval))
      (us : list User) (host : string)
  | host_assigned
  | user_connected (userId : string)
  | video_state_msg (vs : VideoState)
  | video_state_partial (fields : VideoStatePatch)
  | sync_correction (playedSeconds : Q) (isPlaying : bool)
      (serverTimestamp : Z) (drift : Q) (connectionQuality : Quality)
  | user_buffer_state (userId : string) (isBuffering : bool)
  | chat_message_msg (msg : gmap string jsval)
  | signal_msg (from type : string) (data : jsval)
  | user_disconnected (userId : string)
  | host_changed (hostId hostUsername : string).

Inductive effect : Type :=
  | Emit (t : target) (m : message)
  | Warn (text : string).

(** The process state: the [rooms] object and, for every socket, its
    [socket.rooms] (a Set in insertion order). *)
Record state : Type := {
  rooms : gmap string Room;
  socketRooms : gmap string (list string)
}.

Definition initial : state := {| rooms := ∅; socketRooms := ∅ |}.

Definition set_rooms (st : state) (rs : gmap string Room) : state :=
  {| rooms := rs; socketRooms := socketRooms st |}.

Definition set_users (r : Room) (us : JsObject.obj User) : Room :=
  {| users := us; hostId := hostId r; videoState := videoState r;
     messages := messages r; createdAt := createdAt r;
     syncCheckpoint := syncCheckpoint r |}.

Definition set_hostId (r : Room) (h : string) : Room :=
  {| users := users r; hostId := h; videoState := videoState r;
     messages := messages r; createdAt := createdAt r;
     syncCheckpoint := syncCheckpoint r |}.

Definition set_videoState (r : Room) (vs : VideoState) : Room :=
  {| users := users r; hostId := hostId r; videoState := vs;
     messages := messages r; createdAt := createdAt r;
     syncCheckpoint := syncCheckpoint r |}.

Definition set_messages (r : Room) (ms : list (gmap string jsval)) : Room :=
  {| users := users r; hostId := hostId r; videoState := videoState r;
     messages := ms; createdAt := createdAt r;
     syncCheckpoint := syncCheckpoint r |}.

Definition set_connectionQuality (u : User) (q : ConnectionQuality) : User :=
  {| id := id u; username := username u; socketId := socketId u;
     connectionQuality := Some q |}.

(** [socket.rooms]: a socket starts in the room named by its own id. *)
Definition socket_rooms (st : state) (sid : string) : list string :=
  default [sid] (socketRooms st !! sid).

(** [socket.join(roomId)] *)
Definition socket_join (st : state) (sid roomId : string) : state :=
  let rs := socket_rooms st sid in
  {| rooms := rooms st;
     socketRooms :=
       <[sid := if bool_decide (roomId ∈ rs) then rs else rs ++ [roomId]]>
         (socketRooms st) |}.

(** *** Keys that name an inherited member *)

(** [rooms] and the [users] of a room are plain objects, read and written
    with the strings the sockets send.  [rooms[roomId]] is truthy for a
    room id that names a member of [Object.prototype] although no room is
    stored under it: the guards of the handlers pass, and what follows reads
    [users], [messages] or [videoState] of a function. *)
Definition names_member (st : state) (roomId : string) : bool :=
  bool_decide (rooms st !! roomId = None) && JsObject.inherited roomId.

(** *** [join-room] *)

Definition new_room (clk : Clock) (userId : string) : Room :=
  {| users := [];
     hostId := userId;
     videoState :=
       {| isPlaying := false; playedSeconds := 0; url := EmptyString;
          lastUpdated := clk 0%nat; updatedBy := EmptyString;
          serverTimestamp := clk 1%nat; isBuffering := false;
          playbackRate := 1; extraFields := ∅ |};
     messages := [];
     createdAt := clk 2%nat;
     syncCheckpoint := clk 3%nat |}.

(** The handler for a room id under which a room is stored or that names
    nothing at all; [handle] has the other case.  With the user id
    [__proto__] line 158 stores the entry as the prototype of [users]. *)
Definition join_room (st : state) (sid : string) (clk : Clock)
    (roomId userId username : string) : state * list effect :=
  let st1 := socket_join st sid roomId in
  let room0 := default (new_room clk userId) (rooms st1 !! roomId) in
  let room :=
    set_users room0
      (JsObject.set (users room0) userId
         {| id := userId; username := username; socketId := sid;
            connectionQuality := None |}) in
  let listed := JsObject.values (JsObject.enumerable (users room)) in
  (set_rooms st1 (<[roomId := room]> (rooms st1)),
   [Emit (io_to roomId) (update_users listed);
    Emit (socket_emit sid)
      (sync_state (videoState room) (messages room) listed (hostId room))]
   ++ (if bool_decide (hostId room = userId)
       then [Emit (socket_emit sid) host_assigned] else [])
   ++ [Emit (socket_to sid roomId) (user_connected userId)]).

(** *** [video-state] *)

(** [{...stored, ...patch, lastUpdated: now, serverTimestamp: now}].  The
    [toFixed] of line 200 is applied to the [playedSeconds] of the result,
    which is a number by the type of the field. *)
Definition merge_video_state (stored : VideoState) (patch : VideoStatePatch)
    (now : Z) : VideoState :=
  {| isPlaying := default (isPlaying stored) (patch_isPlaying patch);
     playedSeconds := default (playedSeconds stored) (patch_playedSeconds patch);
     url := default (url stored) (patch_url patch);
     lastUpdated := now;
     updatedBy := default (updatedBy stored) (patch_updatedBy patch);
     serverTimestamp := now;
     isBuffering := default (isBuffering stored) (patch_isBuffering patch);
     playbackRate := default (playbackRate stored) (patch_playbackRate patch);
     extraFields := patch_extraFields patch ∪ extraFields stored |}.

(** The handler for a room id under which a room is stored or that names
    nothing at all; [handle] has the other case. *)
Definition video_state (st : state) (clk : Clock) (roomId : string)
    (patch : VideoStatePatch) : state * list effect :=
  match rooms st !! roomId with
  | Some room =>
      let now := clk 0%nat in
      let vs := merge_video_state (videoState room) patch now in
      (set_rooms st (<[roomId := set_videoState room vs]> (rooms st)),
       [Emit (io_to roomId) (video_state_msg vs)])
  | None => (st, [])
  end.

(** [{...undefined, ...patch, lastUpdated: now, serverTimestamp: now}] *)
Definition stamp_patch (patch : VideoStatePatch) (now : Z)
    : VideoStatePatch :=
  {| patch_isPlaying := patch_isPlaying patch;
     patch_playedSeconds := patch_playedSeconds patch;
     patch_url := patch_url patch;
     patch_lastUpdated := Some now;
     patch_updatedBy := patch_updatedBy patch;
     patch_serverTimestamp := Some now;
     patch_isBuffering := patch_isBuffering patch;
     patch_playbackRate := patch_playbackRate patch;
     patch_extraFields := patch_extraFields patch |}.

(** [video-state] for a room id that names an inherited member which no
    handler has written to yet.  Line 186 makes the stamped patch the
    [videoState] property of the member; [toFixed] of line 200 throws when
    the patch has no [playedSeconds]; otherwise line 203 emits that object.
    The property stays on the member, outside the store. *)
Definition video_state_on_member (st : state) (clk : Clock)
    (roomId : string) (patch : VideoStatePatch)
    : option (state * list effect) :=
  match patch_playedSeconds patch with
  | Some _ =>
      Some (st, [Emit (io_to roomId)
                   (video_state_partial (stamp_patch patch (clk 0%nat)))])
  | None => None
  end.

(** *** [position-report] *)

Definition fresh_quality (now : Z) : ConnectionQuality :=
  {| lastReportTime := now; averageDrift := 0; reportCount := 0;
     quality := good |}.

Definition classify (avg : Q) : Quality :=
  if Qltb avg (5 # 10) then good
  else if Qltb avg (15 # 10) then fair
  else poor.

(** The update of [quality] in place: lines 225-236. *)
Definition record_drift (q : ConnectionQuality) (drift : Q) (now : Z)
    : ConnectionQuality :=
  let n := reportCount q + 1 in
  let avg :=
    ((averageDrift q * inject_Z (n - 1) + drift) / inject_Z n)%Q in
  {| lastReportTime := now; averageDrift := avg; reportCount := n;
     quality := classify avg |}.

Definition report_drift (stored : VideoState) (reported : Q) : Q :=
  Qabs (reported - playedSeconds stored).

(** A string is truthy when it is not empty. *)
Definition truthy (s : string) : bool := negb (bool_decide (s = EmptyString)).

(** For a user id that [users] has nothing for, line 215 throws, unless the
    id names an inherited member: then the quality record is written onto
    that member, outside the store, and nothing is sent, the member having
    no [socketId]. *)
Definition position_report (st : state) (clk : Clock)
    (roomId userId : string) (reported : Q) (buffering : bool)
    : option (state * list effect) :=
  match rooms st !! roomId with
  | Some room =>
      let serverState := videoState room in
      let drift := report_drift serverState reported in
      let now := clk 0%nat in
      match JsObject.get (users room) userId with
      | None => if JsObject.inherited userId then Some (st, []) else None
      | Some u =>
          let q0 := default (fresh_quality now) (connectionQuality u) in
          let q := record_drift q0 drift now in
          let u' := set_connectionQuality u q in
          let room' :=
            set_users room (JsObject.set (users room) userId u') in
          Some
            (set_rooms st (<[roomId := room']> (rooms st)),
             if Qgtb drift (3 # 10) && isPlaying serverState
                && negb buffering
             then
               if truthy (socketId u')
               then [Emit (io_to (socketId u'))
                       (sync_correction (playedSeconds serverState)
                          (isPlaying serverState) (clk 1%nat) drift
                          (quality q))]
               else []
             else [])
      end
  | None => Some (st, [])
  end.

(** *** [buffer-state] *)

(** A user id that names an inherited member passes the guard of line 259
    as a user of the room does. *)
Definition buffer_state (st : state) (sid roomId userId : string)
    (buffering : bool) : state * list effect :=
  match rooms st !! roomId with
  | Some room =>
      match JsObject.get (users room) userId with
      | Some _ =>
          (st, [Emit (socket_to sid roomId)
                  (user_buffer_state userId buffering)])
      | None =>
          if JsObject.inherited userId
          then (st, [Emit (socket_to sid roomId)
                       (user_buffer_state userId buffering)])
          else (st, [])
      end
  | None => (st, [])
  end.

(** *** [chat-message] *)

Definition stamp (message : gmap string jsval) (now : Z)
    : gmap string jsval :=
  <["timestamp" := JNum (inject_Z now)]> message.

(** [push], then [shift] when more than 100 are held. *)
Definition push_bounded (log : list (gmap string jsval))
    (msg : gmap string jsval) : list (gmap string jsval) :=
  let log' := log ++ [msg] in
  if (100 <? length log')%nat then tail log' else log'.

Definition chat_message (st : state) (clk : Clock) (roomId : string)
    (message : gmap string jsval) : state * list effect :=
  match rooms st !! roomId with
  | Some room =>
      let msg := stamp message (clk 0%nat) in
      (set_rooms st
         (<[roomId := set_messages room (push_bounded (messages room) msg)]>
            (rooms st)),
       [Emit (io_to roomId) (chat_message_msg msg)])
  | None => (st, [])
  end.

(** *** [signal] *)

Definition not_found (to roomId : string) : effect :=
  Warn ("Target user " +:+ to +:+ " not found in room " +:+ roomId).

(** A target that names an inherited member passes the guard of line 284;
    the member has no [socketId], and the signal goes to [io.to(undefined)]. *)
Definition signal (st : state) (roomId to : string) (sig : Signal)
    : state * list effect :=
  match rooms st !! roomId with
  | Some room =>
      match JsObject.get (users room) to with
      | Some u =>
          (st, [Emit (io_to (socketId u))
                  (signal_msg (signal_from sig) (signal_type sig)
                     (signal_data sig))])
      | None =>
          if JsObject.inherited to
          then (st, [Emit io_to_undefined
                       (signal_msg (signal_from sig) (signal_type sig)
                          (signal_data sig))])
          else (st, [not_found to roomId])
      end
  | None => (st, [not_found to roomId])
  end.

(** *** [disconnecting] *)

(** [Object.keys(users).find(key => users[key].socketId === socket.id)],
    kept only when the key found is truthy. *)
Definition leaving_user (room : Room) (sid : string) : option string :=
  match
    List.find
      (λ key, match JsObject.get (users room) key with
              | Some u => bool_decide (socketId u = sid)
              | None => false
              end)
      (JsObject.keys (JsObject.enumerable (users room)))
  with
  | Some userId => if truthy userId then Some userId else None
  | None => None
  end.

(** The body of [roomsJoined.forEach].  For a room id that names an
    inherited member, [Object.keys] of line 300 is applied to [undefined]. *)
Definition leave_room (sid : string) (st : state) (roomId : string)
    : option (state * list effect) :=
  match rooms st !! roomId with
  | Some room =>
      match leaving_user room sid with
      | Some userId =>
          let wasHost := bool_decide (hostId room = userId) in
          let users1 := JsObject.remove (users room) userId in
          let listed := JsObject.enumerable users1 in
          let room1 := set_users room users1 in
          let left :=
            [Emit (io_to roomId) (user_disconnected userId);
             Emit (io_to roomId) (update_users (JsObject.values listed))] in
          let transfer :=
            if wasHost && (0 <? length (JsObject.keys listed))%nat
            then
              match head (JsObject.keys listed) with
              | Some newHostId =>
                  match JsObject.get users1 newHostId with
                  | Some newHost =>
                      Some
                        (set_hostId room1 newHostId,
                         [Emit (io_to roomId)
                            (host_changed newHostId (username newHost));
                          Emit (io_to (socketId newHost)) host_assigned])
                  | None => None
                  end
              | None => None
              end
            else Some (room1, [])
          in
          match transfer with
          | Some (room2, notices) =>
              Some
                (set_rooms st
                   (if (length (JsObject.keys listed) =? 0)%nat
                    then delete roomId (rooms st)
                    else <[roomId := room2]> (rooms st)),
                 left ++ notices)
          | None => None
          end
      | None => Some (st, [])
      end
  | None => if JsObject.inherited roomId then None else Some (st, [])
  end.

Fixpoint leave_rooms (sid : string) (st : state) (roomIds : list string)
    : option (state * list effect) :=
  match roomIds with
  | [] => Some (st, [])
  | roomId :: rest =>
      match leave_room sid st roomId with
      | Some (st1, effs1) =>
          match leave_rooms sid st1 rest with
          | Some (st2, effs2) => Some (st2, effs1 ++ effs2)
          | None => None
          end
      | None => None
      end
  end.

(** The [disconnecting] handler, after which the socket is gone. *)
Definition disconnecting (st : state) (sid : string)
    : option (state * list effect) :=
  match leave_rooms sid st (socket_rooms st sid) with
  | Some (st1, effs) =>
      Some ({| rooms := rooms st1;
               socketRooms := delete sid (socketRooms st1) |}, effs)
  | None => None
  end.

(** *** The event loop *)

Inductive event : Type :=
  | JoinRoom (roomId userId username : string)
  | VideoStateEv (roomId : string) (patch : VideoStatePatch)
  | PositionReport (roomId userId : string) (playedSeconds : Q)
      (isBuffering : bool)
  | BufferState (roomId userId : string) (isBuffering : bool)
  | ChatMessage (roomId : string) (message : gmap string jsval)
  | SignalEv (roomId to : string) (sig : Signal)
  | Disconnecting.

(** One event received on socket [sid].  For a room id that names an
    inherited member the guard of the handler passes and, [video-state]
    apart, the handler throws: [join-room] at line 158, after
    [socket.join]; [position-report] at line 211 or 215; [buffer-state] at
    line 259; [chat-message] at line 270; [signal] at line 284. *)
Definition handle (st : state) (sid : string) (clk : Clock) (ev : event)
    : option (state * list effect) :=
  match ev with
  | JoinRoom roomId userId username =>
      if names_member st roomId then None
      else Some (join_room st sid clk roomId userId username)
  | VideoStateEv roomId patch =>
      if names_member st roomId
      then video_state_on_member st clk roomId patch
      else Some (video_state st clk roomId patch)
  | PositionReport roomId userId p b =>
      if names_member st roomId then None
      else position_report st clk roomId userId p b
  | BufferState roomId userId b =>
      if names_member st roomId then None
      else Some (buffer_state st sid roomId userId b)
  | ChatMessage roomId message =>
      if names_member st roomId then None
      else Some (chat_message st clk roomId message)
  | SignalEv roomId to sig =>
      if names_member st roomId then None
      else Some (signal st roomId to sig)
  | Disconnecting => disconnecting st sid
  end.

(** Events are handled one after the other, each to completion. *)
Fixpoint run (st : state) (evs : list (string * Clock * event))
    : option (state * list effect) :=
  match evs with
  | [] => Some (st, [])
  | (sid, clk, ev) :: rest =>
      match handle st sid clk ev with
      | Some (st1, effs1) =>
          match run st1 rest with
          | Some (st2, effs2) => Some (st2, effs1 ++ effs2)
          | None => None
          end
      | None => None
      end
  end.

(** The states the process goes through. *)
Inductive reachable : state → Prop :=
  | reachable_initial : reachable initial
  | reachable_step st sid clk ev st' effs :
      reachable st →
      handle st sid clk ev = Some (st', effs) →
      reachable st'.

End Server.

(** ** The playback synchronisation effect: [components/VideoPlayer.tsx] *)

Module VideoPlayer.

(** The [VideoState] interface of the client. *)
Record VideoState : Type := {
  isPlaying : bool;
  playedSeconds : Q;
  url : string;
  lastUpdated : Z;
  updatedBy : string;
  serverTimestamp : option Z;
  isBuffering : option bool;
  playbackRate : option Q
}.

(** What the component holds when the effect runs.  [currentTime] is
    [playerRef.current.getCurrentTime()], and [None] while
    [playerRef.current] is null. *)
Record Component : Type := {
  isReady : bool;
  currentTime : option Q;
  localBuffering : bool;
  isSeeking : bool;
  showSyncIndicator : bool
}.

(** What the effect does, in order.  The callback of [setTimeout] resets
    [isSeeking] and the indicator. *)
Inductive action : Type :=
  | setShowSyncIndicator (b : bool)
  | set_isSeeking (b : bool)
  | seekTo (seconds : Q)
  | setTimeout (ms : Z).

(** [x || 0] *)
Definition or_zero (x : Q) : Q := if Qeq_bool x 0 then 0%Q else x.

(** A timestamp that is present and truthy. *)
Definition truthy_timestamp (vs : VideoState) : option Z :=
  match serverTimestamp vs with
  | Some t => if bool_decide (t = 0) then None else Some t
  | None => None
  end.

(** Lines 44-55. *)
Definition adjustedTarget (vs : VideoState) (now : Z) : Q :=
  let targetTime := or_zero (playedSeconds vs) in
  if isPlaying vs
  then match truthy_timestamp vs with
       | Some t =>
           let latencyStr := (inject_Z (now - t) / inject_Z 1000)%Q in
           let latency := Qmin latencyStr 2 in
           (targetTime + latency)%Q
       | None => targetTime
       end
  else targetTime.

Definition seek_actions (target : Q) : list action :=
  [setShowSyncIndicator true; set_isSeeking true; seekTo target;
   setTimeout 1000].

(** The effect "Sync playback position and state", run with the clock
    reading [now]. *)
Definition sync_effect (c : Component) (videoState : option VideoState)
    (userId : string) (now : Z) : list action :=
  if negb (isReady c) then []
  else
    match currentTime c, videoState with
    | Some current, Some vs =>
        let targetTime := or_zero (playedSeconds vs) in
        let adjusted := adjustedTarget vs now in
        let drift := Qabs (current - adjusted) in
        let shouldSync :=
          negb (bool_decide (updatedBy vs = userId))
          || Qgtb (Qabs (current - targetTime)) 2 in
        if shouldSync
        then if Qgtb drift (3 # 10) then seek_actions adjusted else []
        else []
    | _, _ => []
    end.

End VideoPlayer.

(** ** Reconnect timers of the peer connections: [hooks/useWebRTC.ts] *)

Module WebRTC.

(** [RTCPeerConnection.connectionState] *)
Inductive connectionState : Type :=
  | cs_new | connecting | connected | disconnected | failed | closed.

(** What a pending timer will run. *)
Inductive callback : Type :=
  | reconnect_later (peerId : string)   (* () => reconnectPeer(peerId) *)
  | reconnect_resume (peerId : string). (* reconnectPeer after its await *)

#[global] Instance callback_eq_dec : EqDecision callback.
Proof. solve_decision. Defined.

Record timer : Type := {
  handle : positive;
  delay : Z;
  callback_of : callback
}.

(** The refs of the hook, and the timers of the page that are set and have
    neither fired nor been cleared.  [peerConnections] holds, for every
    peer, the [connectionState] of its connection; [localStream] tells
    whether [localStreamRef.current] is set. *)
Record hook : Type := {
  peerConnections : JsObject.obj connectionState;
  reconnectTimeouts : gmap string positive;
  isPageVisible : bool;
  localStream : bool;
  pending : list timer;
  nextHandle : positive
}.

Definition mounted : hook :=
  {| peerConnections := []; reconnectTimeouts := ∅; isPageVisible := true;
     localStream := false; pending := []; nextHandle := 1 |}.

Definition set_peerConnections (st : hook)
    (pcs : JsObject.obj connectionState) : hook :=
  {| peerConnections := pcs; reconnectTimeouts := reconnectTimeouts st;
     isPageVisible := isPageVisible st; localStream := localStream st;
     pending := pending st; nextHandle := nextHandle st |}.

Definition set_reconnectTimeouts (st : hook) (ts : gmap string positive)
    : hook :=
  {| peerConnections := peerConnections st; reconnectTimeouts := ts;
     isPageVisible := isPageVisible st; localStream := localStream st;
     pending := pending st; nextHandle := nextHandle st |}.

Definition set_isPageVisible (st : hook) (b : bool) : hook :=
  {| peerConnections := peerConnections st;
     reconnectTimeouts := reconnectTimeouts st;
     isPageVisible := b; localStream := localStream st;
     pending := pending st; nextHandle := nextHandle st |}.

Definition set_localStream (st : hook) (b : bool) : hook :=
  {| peerConnections := peerConnections st;
     reconnectTimeouts := reconnectTimeouts st;
     isPageVisible := isPageVisible st; localStream := b;
     pending := pending st; nextHandle := nextHandle st |}.

Definition set_pending (st : hook) (ts : list timer) : hook :=
  {| peerConnections := peerConnections st;
     reconnectTimeouts := reconnectTimeouts st;
     isPageVisible := isPageVisible st; localStream := localStream st;
     pending := ts; nextHandle := nextHandle st |}.

(** [setTimeout(cb, ms)]: a handle that was never given before. *)
Definition setTimeout (st : hook) (cb : callback) (ms : Z)
    : hook * positive :=
  ({| peerConnections := peerConnections st;
      reconnectTimeouts := reconnectTimeouts st;
      isPageVisible := isPageVisible st; localStream := localStream st;
      pending :=
        pending st
        ++ [{| handle := nextHandle st; delay := ms; callback_of := cb |}];
      nextHandle := (nextHandle st + 1)%positive |},
   nextHandle st).

(** [clearTimeout(h)] *)
Definition clearTimeout (st : hook) (h : positive) : hook :=
  set_pending st (filter (λ t, handle t ≠ h) (pending st)).

(** [cleanupPeerConnection], as far as the refs go.  For a connection that
    is held it also calls [setRemoteStreams] and [setConnectionStates];
    [remoteStreams] is a dependency of the visibility effect, whose cleanup
    then runs with the next render: the event [EffectCleanup] below. *)
Definition cleanupPeerConnection (st : hook) (peerId : string) : hook :=
  match JsObject.get (peerConnections st) peerId with
  | Some _ =>
      set_peerConnections st (JsObject.remove (peerConnections st) peerId)
  | None => st
  end.

Definition createPeerConnection (st : hook) (peerId : string) : hook :=
  match JsObject.get (peerConnections st) peerId with
  | Some closed | Some failed =>
      let st1 := cleanupPeerConnection st peerId in
      set_peerConnections st1
        (JsObject.set (peerConnections st1) peerId cs_new)
  | Some _ => st
  | None =>
      set_peerConnections st (JsObject.set (peerConnections st) peerId cs_new)
  end.

Definition startCall (st : hook) (peerId : string) : hook :=
  if localStream st then createPeerConnection st peerId else st.

(** [reconnectPeer], up to its [await]. *)
Definition reconnectPeer (st : hook) (peerId : string) : hook :=
  let st1 :=
    match reconnectTimeouts st !! peerId with
    | Some h =>
        set_reconnectTimeouts (clearTimeout st h)
          (delete peerId (reconnectTimeouts st))
    | None => st
    end in
  let st2 := cleanupPeerConnection st1 peerId in
  (setTimeout st2 (reconnect_resume peerId) 500).1.

(** [reconnectPeer], after its [await].  [userId < peerId] compares the
    ids the client generates, strings of digits and lower-case letters, on
    which the order of the bytes is the order of the UTF-16 code units. *)
Definition resume_reconnectPeer (userId : string) (st : hook)
    (peerId : string) : hook :=
  if String.ltb userId peerId then startCall st peerId else st.

Definition needs_reconnect (s : connectionState) : bool :=
  match s with
  | failed | disconnected => true
  | _ => false
  end.

(** The body of the [forEach] of the health check. *)
Definition check_peer (st : hook) (entry : string * connectionState)
    : hook :=
  if needs_reconnect entry.2
  then
    match reconnectTimeouts st !! entry.1 with
    | Some _ => st
    | None =>
        let scheduled := setTimeout st (reconnect_later entry.1) 2000 in
        set_reconnectTimeouts scheduled.1
          (<[entry.1 := scheduled.2]> (reconnectTimeouts st))
    end
  else st.

(** One tick of the interval "Monitor connection health". *)
Definition health_check (st : hook) : hook :=
  if isPageVisible st
  then foldl check_peer st (JsObject.entries (peerConnections st))
  else st.

(** A pending timer fires. *)
Definition fire (userId : string) (st : hook) (h : positive) : hook :=
  match List.find (λ t, bool_decide (handle t = h)) (pending st) with
  | Some t =>
      let st1 := clearTimeout st h in
      match callback_of t with
      | reconnect_later peerId => reconnectPeer st1 peerId
      | reconnect_resume peerId => resume_reconnectPeer userId st1 peerId
      end
  | None => st
  end.

(** [onconnectionstatechange] of the connection held for [peerId]. *)
Definition connection_state_change (st : hook) (peerId : string)
    (s : connectionState) : hook :=
  match JsObject.get (peerConnections st) peerId with
  | Some _ =>
      let st1 :=
        set_peerConnections st (JsObject.set (peerConnections st) peerId s) in
      match s with
      | failed | closed => cleanupPeerConnection st1 peerId
      | _ => st1
      end
  | None => st
  end.

(** The cleanup of the visibility effect:
    [Object.values(reconnectTimeouts.current).forEach(clearTimeout)]. *)
Definition clear_reconnect_timeouts (st : hook) : hook :=
  set_pending st
    (filter (λ t, handle t ∉ (map_to_list (reconnectTimeouts st)).*2)
       (pending st)).

(** What can happen to the hook. *)
Inductive event : Type :=
  | Tick
  | Fire (h : positive)
  | VisibilityChange (visible : bool)
  | ResumeSweep (peerId : string)      (* reconnectPeer, on becoming visible *)
  | ConnectionStateChange (peerId : string) (s : connectionState)
  | OfferReceived (peerId : string)
  | StartCall (peerId : string)
  | UserDisconnected (peerId : string)
  | MediaInitialized
  | EffectCleanup.

Definition step (userId : string) (st : hook) (ev : event) : hook :=
  match ev with
  | Tick => health_check st
  | Fire h => fire userId st h
  | VisibilityChange visible => set_isPageVisible st visible
  | ResumeSweep peerId => reconnectPeer st peerId
  | ConnectionStateChange peerId s => connection_state_change st peerId s
  | OfferReceived peerId => createPeerConnection st peerId
  | StartCall peerId => startCall st peerId
  | UserDisconnected peerId => cleanupPeerConnection st peerId
  | MediaInitialized => set_localStream st true
  | EffectCleanup => clear_reconnect_timeouts st
  end.

Inductive reachable (userId : string) : hook → Prop :=
  | reachable_mounted : reachable userId mounted
  | reachable_step st ev :
      reachable userId st → reachable userId (step userId st ev).

(** The reconnect timers pending for a peer. *)
Definition pending_reconnects (st : hook) (peerId : string) : list timer :=
  filter (λ t, callback_of t = reconnect_later peerId) (pending st).

End WebRTC.

(** ** Health figures of the server: [server/index.js], lines 11-112 *)

Module ServerHealth.

(** [formatUptime(ms)].  [Math.floor] of a quotient is [Z.div], [%] is
    [Z.rem], and a number in a template literal is printed in decimal. *)
Definition formatUptime (ms : Z) : string :=
  let seconds := ms / 1000 in
  let minutes := seconds / 60 in
  let hours := minutes / 60 in
  let days := hours / 24 in
  if 0 <? days then
    pretty days +:+ "d " +:+ pretty (Z.rem hours 24) +:+ "h "
    +:+ pretty (Z.rem minutes 60) +:+ "m " +:+ pretty (Z.rem seconds 60)
    +:+ "s"
  else if 0 <? hours then
    pretty hours +:+ "h " +:+ pretty (Z.rem minutes 60) +:+ "m "
    +:+ pretty (Z.rem seconds 60) +:+ "s"
  else if 0 <? minutes then
    pretty minutes +:+ "m " +:+ pretty (Z.rem seconds 60) +:+ "s"
  else pretty seconds +:+ "s".

(** The counters of [serverMetrics]; [errors] is never written to. *)
Record serverMetrics : Type := {
  startTime : Z;
  totalConnections : Z;
  currentConnections : Z;
  totalRoomsCreated : Z;
  totalMessages : Z;
  totalDisconnections : Z
}.

(** The whole process: the rooms and sockets, and the counters. *)
Record process : Type := {
  store : Server.state;
  metrics : serverMetrics
}.

Definition started (now : Z) : process :=
  {| store := Server.initial;
     metrics :=
       {| startTime := now; totalConnections := 0; currentConnections := 0;
          totalRoomsCreated := 0; totalMessages := 0;
          totalDisconnections := 0 |} |}.

(** What reaches the process from a socket: its connection, an event of
    the client or [disconnecting], and [disconnect]. *)
Inductive input : Type :=
  | Connection
  | Received (ev : Server.event)
  | Disconnect.

(** Line 128-129. *)
Definition count_connection (m : serverMetrics) : serverMetrics :=
  {| startTime := startTime m;
     totalConnections := totalConnections m + 1;
     currentConnections := currentConnections m + 1;
     totalRoomsCreated := totalRoomsCreated m;
     totalMessages := totalMessages m;
     totalDisconnections := totalDisconnections m |}.

(** Line 154. *)
Definition count_room (m : serverMetrics) : serverMetrics :=
  {| startTime := startTime m;
     totalConnections := totalConnections m;
     currentConnections := currentConnections m;
     totalRoomsCreated := totalRoomsCreated m + 1;
     totalMessages := totalMessages m;
     totalDisconnections := totalDisconnections m |}.

(** Line 271. *)
Definition count_message (m : serverMetrics) : serverMetrics :=
  {| startTime := startTime m;
     totalConnections := totalConnections m;
     currentConnections := currentConnections m;
     totalRoomsCreated := totalRoomsCreated m;
     totalMessages := totalMessages m + 1;
     totalDisconnections := totalDisconnections m |}.

(** Lines 339-340. *)
Definition count_disconnect (m : serverMetrics) : serverMetrics :=
  {| startTime := startTime m;
     totalConnections := totalConnections m;
     currentConnections := currentConnections m - 1;
     totalRoomsCreated := totalRoomsCreated m;
     totalMessages := totalMessages m;
     totalDisconnections := totalDisconnections m + 1 |}.

(** The counters after an event of the client, read off the state the
    handler found. *)
Definition count_event (st : Server.state) (ev : Server.event)
    (m : serverMetrics) : serverMetrics :=
  match ev with
  | Server.JoinRoom roomId _ _ =>
      match Server.rooms st !! roomId with
      | Some _ => m
      | None => count_room m
      end
  | Server.ChatMessage roomId _ =>
      match Server.rooms st !! roomId with
      | Some _ => count_message m
      | None => m
      end
  | _ => m
  end.

Definition receive (p : process) (sid : string) (clk : Clock) (i : input)
    : option process :=
  match i with
  | Connection =>
      Some {| store := store p; metrics := count_connection (metrics p) |}
  | Received ev =>
      match Server.handle (store p) sid clk ev with
      | Some (st', _) =>
          Some {| store := st';
                  metrics := count_event (store p) ev (metrics p) |}
      | None => None
      end
  | Disconnect =>
      Some {| store := store p; metrics := count_disconnect (metrics p) |}
  end.

Inductive running : process → Prop :=
  | running_started now : running (started now)
  | running_receive p sid clk i p' :
      running p → receive p sid clk i = Some p' → running p'.

(** What [/health] and [/health/detailed] report about the rooms. *)
Definition activeRooms (p : process) : nat := size (Server.rooms (store p)).

Definition userCount (room : Server.Room) : nat :=
  length (JsObject.keys (JsObject.enumerable (Server.users room))).

Definition messageCount (room : Server.Room) : nat :=
  length (Server.messages room).

End ServerHealth.

(** ** The handlers of the player: [components/VideoPlayer.tsx] *)

Module VideoPlayerHandlers.
Import VideoPlayer.

(** The argument of [onStateChange]: the fields the component ever sets. *)
Record change : Type := {
  change_url : option string;
  change_isPlaying : option bool;
  change_playedSeconds : option Q
}.

(** What a handler calls, in order. *)
Inductive output : Type :=
  | StateChange (c : change)                         (* onStateChange *)
  | ReportPosition (playedSeconds : Q) (isBuffering : bool)
                                                     (* onReportPosition *)
  | Player (a : action).

(** The props the handlers read. *)
Record props : Type := {
  videoState : option VideoState;
  userId : string;
  isHost : bool
}.

(** The state and refs of the component, and the number of timers of
    1000 ms that are pending. *)
Record player : Type := {
  component : Component;
  lastBroadcastTime : Z;
  cooldowns : nat
}.

Definition mounted : player :=
  {| component :=
       {| isReady := false; currentTime := None; localBuffering := false;
          isSeeking := false; showSyncIndicator := false |};
     lastBroadcastTime := 0;
     cooldowns := 0 |}.

Definition set_component (p : player) (c : Component) : player :=
  {| component := c; lastBroadcastTime := lastBroadcastTime p;
     cooldowns := cooldowns p |}.

Definition set_flags (c : Component) (seeking indicator : bool) : Component :=
  {| isReady := isReady c; currentTime := currentTime c;
     localBuffering := localBuffering c; isSeeking := seeking;
     showSyncIndicator := indicator |}.

Definition set_localBuffering (c : Component) (b : bool) : Component :=
  {| isReady := isReady c; currentTime := currentTime c;
     localBuffering := b; isSeeking := isSeeking c;
     showSyncIndicator := showSyncIndicator c |}.

Definition set_isReady (c : Component) (b : bool) : Component :=
  {| isReady := b; currentTime := currentTime c;
     localBuffering := localBuffering c; isSeeking := isSeeking c;
     showSyncIndicator := showSyncIndicator c |}.

Definition set_currentTime (c : Component) (t : option Q) : Component :=
  {| isReady := isReady c; currentTime := t;
     localBuffering := localBuffering c; isSeeking := isSeeking c;
     showSyncIndicator := showSyncIndicator c |}.

(** What an action of the component does to its state. *)
Definition perform (p : player) (a : action) : player :=
  match a with
  | setShowSyncIndicator b =>
      set_component p (set_flags (component p) (isSeeking (component p)) b)
  | set_isSeeking b =>
      set_component p
        (set_flags (component p) b (showSyncIndicator (component p)))
  | seekTo _ => p
  | setTimeout _ =>
      {| component := component p; lastBroadcastTime := lastBroadcastTime p;
         cooldowns := S (cooldowns p) |}
  end.

Definition perform_all (p : player) (acts : list action)
    : player * list output :=
  (foldl perform p acts, Player <$> acts).

(** The effect "Sync playback position and state" runs. *)
Definition sync (pr : props) (p : player) (now : Z) : player * list output :=
  perform_all p (sync_effect (component p) (videoState pr) (userId pr) now).

(** The button "SYNC". *)
Definition manual_sync (pr : props) (p : player) : player * list output :=
  match videoState pr, currentTime (component p) with
  | Some vs, Some _ => perform_all p (seek_actions (or_zero (playedSeconds vs)))
  | _, _ => (p, [])
  end.

(** The callback of the timer of 1000 ms. *)
Definition cooldown_over (p : player) : player :=
  match cooldowns p with
  | O => p
  | S n =>
      {| component := set_flags (component p) false false;
         lastBroadcastTime := lastBroadcastTime p;
         cooldowns := n |}
  end.

(** [playerRef.current?.getCurrentTime() || 0] *)
Definition position (p : player) : Q :=
  or_zero (default 0%Q (currentTime (component p))).

Definition playing (pr : props) : bool :=
  match videoState pr with
  | Some vs => isPlaying vs
  | None => false
  end.

Definition handleProgress (pr : props) (p : player) (playedSeconds : Q)
    (now : Z) : player * list output :=
  let report := ReportPosition playedSeconds (localBuffering (component p)) in
  if negb (isSeeking (component p)) && playing pr && isHost pr
  then
    let timeSinceLastBroadcast :=
      (inject_Z (now - lastBroadcastTime p) / inject_Z 1000)%Q in
    if Qgtb timeSinceLastBroadcast (15 # 10)
    then
      ({| component := component p; lastBroadcastTime := now;
          cooldowns := cooldowns p |},
       [report;
        StateChange {| change_url := None; change_isPlaying := None;
                       change_playedSeconds := Some playedSeconds |}])
    else (p, [report])
  else (p, [report]).

Definition onPlay (p : player) : list output :=
  if isSeeking (component p) then []
  else [StateChange {| change_url := None; change_isPlaying := Some true;
                       change_playedSeconds := Some (position p) |}].

Definition onPause (p : player) : list output :=
  if isSeeking (component p) then []
  else [StateChange {| change_url := None; change_isPlaying := Some false;
                       change_playedSeconds := Some (position p) |}].

Definition onSeek (pr : props) (p : player) (seconds : Q) : list output :=
  if isSeeking (component p) then []
  else [StateChange {| change_url := None;
                       change_isPlaying := Some (playing pr);
                       change_playedSeconds := Some seconds |}].

(** [onReady]: the initial seek goes to the stored position as it is. *)
Definition onReady (pr : props) (p : player) : player * list output :=
  (set_component p (set_isReady (component p) true),
   match videoState pr, currentTime (component p) with
   | Some vs, Some _ => [Player (seekTo (playedSeconds vs))]
   | _, _ => []
   end).

(** [handleUrlSubmit], for [trimmed] the value of [url.trim()].  It calls
    [onStateChange] whether a seek is under way or not. *)
Definition handleUrlSubmit (p : player) (trimmed : string)
    : player * list output :=
  if Server.truthy trimmed
  then
    (set_component p (set_isReady (component p) false),
     [StateChange {| change_url := Some trimmed;
                     change_isPlaying := Some true;
                     change_playedSeconds := Some 0%Q |}])
  else (p, []).

(** What happens to the component. *)
Inductive event : Type :=
  | Progress (playedSeconds : Q) (now : Z)
  | Play
  | Pause
  | Seek (seconds : Q)
  | Buffer
  | BufferEnd
  | Ready
  | StateReceived (now : Z)
  | ManualSync
  | CooldownOver
  | PositionIs (t : option Q)
  | UrlSubmit (trimmed : string).

Definition step (pr : props) (p : player) (ev : event)
    : player * list output :=
  match ev with
  | Progress playedSeconds now => handleProgress pr p playedSeconds now
  | Play => (p, onPlay p)
  | Pause => (p, onPause p)
  | Seek seconds => (p, onSeek pr p seconds)
  | Buffer => (set_component p (set_localBuffering (component p) true), [])
  | BufferEnd =>
      (set_component p (set_localBuffering (component p) false), [])
  | Ready => onReady pr p
  | StateReceived now => sync pr p now
  | ManualSync => manual_sync pr p
  | CooldownOver => (cooldown_over p, [])
  | PositionIs t => (set_component p (set_currentTime (component p) t), [])
  | UrlSubmit trimmed => handleUrlSubmit p trimmed
  end.

(** Events in sequence, each with the props of its render. *)
Fixpoint run (p : player) (evs : list (props * event))
    : player * list output :=
  match evs with
  | [] => (p, [])
  | (pr, ev) :: rest =>
      let r1 := step pr p ev in
      let r2 := run r1.1 rest in
      (r2.1, r1.2 ++ r2.2)
  end.

Inductive reachable : player → Prop :=
  | reachable_mounted : reachable mounted
  | reachable_step pr p ev : reachable p → reachable (step pr p ev).1.

End VideoPlayerHandlers.

(** ** The hook of the room: [hooks/useRoom.ts] *)

Module UseRoom.

(** [updateVideoState(newState)]: the payload of the [video-state] event it
    emits, and nothing when [roomId] is empty. *)
Definition updateVideoState (roomId userId : string)
    (newState : VideoPlayerHandlers.change)
    : option (string * Server.VideoStatePatch) :=
  if bool_decide (roomId = EmptyString) then None
  else
    Some
      (roomId,
       {| Server.patch_isPlaying :=
            VideoPlayerHandlers.change_isPlaying newState;
          Server.patch_playedSeconds :=
            VideoPlayerHandlers.change_playedSeconds newState;
          Server.patch_url := VideoPlayerHandlers.change_url newState;
          Server.patch_lastUpdated := None;
          Server.patch_updatedBy := Some userId;
          Server.patch_serverTimestamp := None;
          Server.patch_isBuffering := None;
          Server.patch_playbackRate := None;
          Server.patch_extraFields := ∅ |}).

(** [handleVideoState]: the state of a [video-state] event as the client
    holds it. *)
Definition handleVideoState (newState : Server.VideoState)
    : VideoPlayer.VideoState :=
  {| VideoPlayer.isPlaying := Server.isPlaying newState;
     VideoPlayer.playedSeconds := Server.playedSeconds newState;
     VideoPlayer.url := Server.url newState;
     VideoPlayer.lastUpdated := Server.lastUpdated newState;
     VideoPlayer.updatedBy := Server.updatedBy newState;
     VideoPlayer.serverTimestamp := Some (Server.serverTimestamp newState);
     VideoPlayer.isBuffering := Some (Server.isBuffering newState);
     VideoPlayer.playbackRate := Some (Server.playbackRate newState) |}.

(** [handleSyncCorrection]: the position and [isPlaying] of the correction
    replace those held; the rest, [serverTimestamp] and [updatedBy]
    included, stays. *)
Definition handleSyncCorrection (prev : option VideoPlayer.VideoState)
    (playedSeconds : Q) (isPlaying : bool) (now : Z)
    : option VideoPlayer.VideoState :=
  match prev with
  | Some vs =>
      Some
        {| VideoPlayer.isPlaying := isPlaying;
           VideoPlayer.playedSeconds := playedSeconds;
           VideoPlayer.url := VideoPlayer.url vs;
           VideoPlayer.lastUpdated := now;
           VideoPlayer.updatedBy := VideoPlayer.updatedBy vs;
           VideoPlayer.serverTimestamp := VideoPlayer.serverTimestamp vs;
           VideoPlayer.isBuffering := VideoPlayer.isBuffering vs;
           VideoPlayer.playbackRate := VideoPlayer.playbackRate vs |}
  | None => None
  end.

(** [reportPosition(playedSeconds, isBuffering)]: the events it emits, and
    [syncStatus.isBuffering] after it. *)
Definition reportPosition (roomId userId : string) (statusBuffering : bool)
    (playedSeconds : Q) (isBuffering : bool) : list Server.event * bool :=
  if Server.truthy userId && Server.truthy roomId
  then
    (Server.PositionReport roomId userId playedSeconds isBuffering
     :: (if negb (eqb isBuffering statusBuffering)
         then [Server.BufferState roomId userId isBuffering]
         else []),
     isBuffering)
  else ([], statusBuffering).

End UseRoom.

(** * Properties *)

(** ** Rationals *)

Lemma Qgtb_lt (x y : Q) : Qgtb x y = true ↔ (y < x)%Q.
Proof.
  unfold Qgtb. rewrite negb_true_iff. split.
  - intros H. apply Qnot_le_lt. intros Hle.
    apply Qle_bool_iff in Hle. congruence.
  - intros H. destruct (Qle_bool x y) eqn:E; [|done].
    apply Qle_bool_iff in E. exfalso. by apply (Qlt_not_le y x).
Qed.


(** ** Objects *)

Module JsObjectFacts.
Import JsObject.

Lemma own_keys_perm ks : own_keys ks ≡ₚ ks.
Proof.
  unfold own_keys. rewrite merge_sort_Permutation.
  apply filter_app_complement.
Qed.

Section facts.
Context {V : Type}.
Implicit Types (o : obj V) (k : string) (v : V).

Lemma elem_of_keys o k : k ∈ keys o ↔ k ∈ o.*1.
Proof. unfold keys. by rewrite own_keys_perm. Qed.

Lemma length_keys o : length (keys o) = length o.
Proof. unfold keys. by rewrite own_keys_perm, length_fmap. Qed.

Lemma keys_nil o : keys o = [] ↔ o = [].
Proof.
  rewrite <- !length_zero_iff_nil, length_keys. done.
Qed.

Lemma has_true o k : has o k = true ↔ k ∈ o.*1.
Proof. unfold has. apply bool_decide_eq_true. Qed.

Lemma get_Some_elem o k v : get o k = Some v → (k, v) ∈ o.
Proof.
  induction o as [|[k' v'] o IH]; simpl; [done|].
  case_decide as E.
  - intros [= ->]. subst. left.
  - intros H. right. auto.
Qed.

Lemma get_is_Some o k : is_Some (get o k) ↔ k ∈ o.*1.
Proof.
  induction o as [|[k' v'] o IH]; simpl.
  - split; [by intros [? ?]|by intros ?%elem_of_nil].
  - case_decide as E.
    + subst. split; [left|eauto].
    + rewrite IH, elem_of_cons. naive_solver.
Qed.

Lemma get_None o k : get o k = None ↔ k ∉ o.*1.
Proof. rewrite <- get_is_Some, eq_None_not_Some. done. Qed.

Lemma keys_set o k v : (set o k v).*1 = if has o k then o.*1 else o.*1 ++ [k].
Proof.
  unfold set. destruct (has o k).
  - rewrite <- list_fmap_compose. apply list_fmap_ext.
    intros i [k' v'] _. simpl. by case_decide.
  - by rewrite fmap_app.
Qed.

Lemma elem_of_set o k v k' : k' ∈ (set o k v).*1 ↔ k' = k ∨ k' ∈ o.*1.
Proof.
  rewrite keys_set. destruct (has o k) eqn:E.
  - apply has_true in E. naive_solver.
  - rewrite elem_of_app, list_elem_of_singleton. naive_solver.
Qed.

Lemma get_app_fresh o k v : k ∉ o.*1 → get (o ++ [(k, v)]) k = Some v.
Proof.
  induction o as [|[k1 v1] o IH]; simpl; intros Hnin.
  - by rewrite decide_True.
  - apply not_elem_of_cons in Hnin as [Hne Hnin].
    rewrite decide_False by done. by apply IH.
Qed.

Lemma get_app_other o k v k' : k' ≠ k → get (o ++ [(k, v)]) k' = get o k'.
Proof.
  intros Hne. induction o as [|[k1 v1] o IH]; simpl.
  - by rewrite decide_False.
  - by rewrite IH.
Qed.

Lemma get_set_eq o k v : get (set o k v) k = Some v.
Proof.
  unfold set. destruct (has o k) eqn:E.
  - apply has_true in E.
    induction o as [|[k1 v1] o IH]; [by apply elem_of_nil in E|].
    rewrite fmap_cons. cbn [fst get].
    destruct (decide (k1 = k)) as [->|Hne]; cbn [get].
    + by rewrite decide_True.
    + rewrite decide_False by done. apply IH.
      rewrite fmap_cons in E. apply elem_of_cons in E as [E|E]; [|done].
      simpl in E. congruence.
  - apply get_app_fresh. intros Hin. apply has_true in Hin. congruence.
Qed.

Lemma get_set_ne o k v k' : k' ≠ k → get (set o k v) k' = get o k'.
Proof.
  intros Hne. unfold set. destruct (has o k).
  - induction o as [|[k1 v1] o IH]; [done|].
    rewrite fmap_cons. cbn [fst get].
    destruct (decide (k1 = k)) as [->|Hk]; cbn [get].
    + rewrite !decide_False by done. apply IH.
    + by rewrite IH.
  - by apply get_app_other.
Qed.

Lemma elem_of_remove o k k' : k' ∈ (remove o k).*1 ↔ k' ≠ k ∧ k' ∈ o.*1.
Proof.
  unfold remove. rewrite !list_elem_of_fmap. split.
  - intros [[k1 v1] [-> [H1 H2]%list_elem_of_filter]]. simpl in *.
    split; [done|]. by exists (k1, v1).
  - intros [Hne [[k1 v1] [-> Hin]]]. exists (k1, v1). split; [done|].
    by apply list_elem_of_filter.
Qed.

Lemma get_remove_eq o k : get (remove o k) k = None.
Proof. apply get_None. rewrite elem_of_remove. naive_solver. Qed.

Lemma get_remove_ne o k k' : k' ≠ k → get (remove o k) k' = get o k'.
Proof.
  intros Hne. unfold remove.
  induction o as [|[k1 v1] o IH]; [done|].
  rewrite filter_cons. simpl.
  destruct (decide (k1 ≠ k)) as [Hk|Hk]; simpl.
  - by rewrite IH.
  - apply dec_stable in Hk. subst k1. by rewrite decide_False.
Qed.

Lemma elem_of_entries o k v : (k, v) ∈ entries o ↔ get o k = Some v.
Proof.
  unfold entries. rewrite list_elem_of_omap. split.
  - intros (k' & _ & Hk).
    destruct (get o k') as [v'|] eqn:E; simpl in Hk; [|done].
    by injection Hk as -> ->.
  - intros Hget. exists k. rewrite Hget. split; [|done].
    apply elem_of_keys, get_is_Some. by rewrite Hget.
Qed.

Lemma keys_set_has o k v : k ∈ o.*1 → keys (set o k v) = keys o.
Proof.
  intros Hin. unfold keys. rewrite keys_set.
  apply has_true in Hin. by rewrite Hin.
Qed.

(** Assigning the same property twice is assigning it once. *)
Lemma set_set o k v : set (set o k v) k v = set o k v.
Proof.
  assert (Hin : has (set o k v) k = true).
  { apply has_true, elem_of_set. by left. }
  unfold set at 1. rewrite Hin.
  apply list_eq. intros i. rewrite list_lookup_fmap.
  destruct (set o k v !! i) as [[k1 v1]|] eqn:Hi; simpl; [|done].
  case_decide as E; [|done]. simpl in E. subst k1. f_equal. f_equal.
  unfold set in Hi. destruct (has o k) eqn:Ho.
  - rewrite list_lookup_fmap in Hi.
    destruct (o !! i) as [[k2 v2]|]; simpl in Hi; [|done].
    case_decide; by simplify_eq/=.
  - apply lookup_app_Some in Hi as [Hi|[_ Hi]].
    + apply list_elem_of_lookup_2 in Hi.
      assert (Hk : has o k = true); [|congruence].
      apply has_true, list_elem_of_fmap. by exists (k, v1).
    + apply list_lookup_singleton_Some in Hi as [_ ?]. by simplify_eq.
Qed.

(** *** The prototype *)

Lemma elem_of_enumerable o k :
  k ∈ (enumerable o).*1 ↔ k ∈ o.*1 ∧ k ≠ "__proto__".
Proof.
  unfold enumerable. rewrite !list_elem_of_fmap. split.
  - intros [[k1 v1] [-> [H1 H2]%list_elem_of_filter]]. simpl in *.
    split; [|done]. by exists (k1, v1).
  - intros [[[k1 v1] [-> Hin]] Hne]. exists (k1, v1). split; [done|].
    by apply list_elem_of_filter.
Qed.

Lemma get_enumerable o k :
  k ≠ "__proto__" → get (enumerable o) k = get o k.
Proof.
  intros Hne. unfold enumerable.
  induction o as [|[k1 v1] o IH]; [done|].
  rewrite filter_cons. simpl.
  destruct (decide (k1 ≠ "__proto__")) as [Hk|Hk]; simpl.
  - by rewrite IH.
  - apply dec_stable in Hk. subst k1. by rewrite decide_False.
Qed.

Lemma get_enumerable_Some o k v :
  get (enumerable o) k = Some v → get o k = Some v ∧ k ≠ "__proto__".
Proof.
  intros Hget.
  assert (Hk : k ≠ "__proto__").
  { assert (Hin : k ∈ (enumerable o).*1)
      by (apply get_is_Some; by rewrite Hget).
    by apply elem_of_enumerable in Hin as [_ ?]. }
  split; [|done]. by rewrite <- (get_enumerable o k Hk).
Qed.

Lemma has_enumerable o k :
  k ≠ "__proto__" → has (enumerable o) k = has o k.
Proof.
  intros Hne. unfold has. apply bool_decide_ext.
  rewrite elem_of_enumerable. naive_solver.
Qed.

Lemma enumerable_set o k v :
  k ≠ "__proto__" → enumerable (set o k v) = set (enumerable o) k v.
Proof.
  intros Hne. unfold set at 2. rewrite has_enumerable by done.
  unfold set. destruct (has o k).
  - unfold enumerable. induction o as [|[k1 v1] o IH]; [done|].
    rewrite fmap_cons, !filter_cons. cbn [fst].
    destruct (decide (k1 = k)) as [->|Hk]; cbn [fst].
    + rewrite !decide_True by done. rewrite fmap_cons. cbn [fst].
      rewrite decide_True by done. by rewrite IH.
    + destruct (decide (k1 ≠ "__proto__")) as [H1|H1].
      * rewrite fmap_cons. cbn [fst]. rewrite decide_False by done.
        by rewrite IH.
      * apply IH.
  - unfold enumerable. rewrite filter_app, filter_cons, filter_nil.
    cbn [fst]. by rewrite decide_True.
Qed.

(** An assignment to [__proto__] adds no property. *)
Lemma enumerable_set_proto o v :
  enumerable (set o "__proto__" v) = enumerable o.
Proof.
  unfold set. destruct (has o "__proto__").
  - unfold enumerable. induction o as [|[k1 v1] o IH]; [done|].
    rewrite fmap_cons, !filter_cons. cbn [fst].
    destruct (decide (k1 = "__proto__")) as [->|Hk]; cbn [fst].
    + rewrite !decide_False by (by intros ?). apply IH.
    + rewrite !decide_True by done. by rewrite IH.
  - unfold enumerable. rewrite filter_app, filter_cons, filter_nil.
    cbn [fst]. rewrite decide_False by (by intros ?). apply app_nil_r.
Qed.

Lemma enumerable_remove o k :
  enumerable (remove o k) = remove (enumerable o) k.
Proof.
  unfold enumerable, remove. induction o as [|[k1 v1] o IH]; [done|].
  rewrite !filter_cons. cbn [fst].
  destruct (decide (k1 ≠ k)) as [H1|H1];
    destruct (decide (k1 ≠ "__proto__")) as [H2|H2];
    rewrite ?filter_cons; cbn [fst];
    rewrite ?(decide_True (P := k1 ≠ k)) by done;
    rewrite ?(decide_False (P := k1 ≠ k)) by done;
    rewrite ?(decide_True (P := k1 ≠ "__proto__")) by done;
    rewrite ?(decide_False (P := k1 ≠ "__proto__")) by done;
    by rewrite IH.
Qed.

Lemma enumerable_plain o :
  "__proto__" ∉ o.*1 → enumerable o = o.
Proof.
  intros Hnin. unfold enumerable. induction o as [|[k1 v1] o IH]; [done|].
  rewrite fmap_cons in Hnin. apply not_elem_of_cons in Hnin as [Hne Hnin].
  rewrite filter_cons. cbn [fst] in *.
  rewrite decide_True by done. by rewrite IH.
Qed.

End facts.
End JsObjectFacts.

(** ** The Session Store *)

Module ServerSpec.
Import Server.

(** A clock for the examples: the readings of one handler invocation are
    one millisecond apart. *)
Definition demo_clock : Clock := λ n, 1700000000000 + Z.of_nat n.

(** *** Events that name a room that does not exist *)

Section absent_room.
Context (st : state) (sid : string) (clk : Clock) (roomId : string).
Hypothesis Habsent : rooms st !! roomId = None.

Lemma video_state_absent patch :
  video_state st clk roomId patch = (st, []).
Proof using Habsent. unfold video_state. by rewrite Habsent. Qed.

Lemma position_report_absent userId p b :
  position_report st clk roomId userId p b = Some (st, []).
Proof using Habsent. unfold position_report. by rewrite Habsent. Qed.

Lemma buffer_state_absent userId b :
  buffer_state st sid roomId userId b = (st, []).
Proof using Habsent. unfold buffer_state. by rewrite Habsent. Qed.

Lemma chat_message_absent message :
  chat_message st clk roomId message = (st, []).
Proof using Habsent. unfold chat_message. by rewrite Habsent. Qed.

Lemma signal_absent to sig :
  signal st roomId to sig = (st, [not_found to roomId]).
Proof using Habsent. unfold signal. by rewrite Habsent. Qed.

End absent_room.

Lemma signal_absent_target st roomId room to sig :
  rooms st !! roomId = Some room →
  JsObject.get (users room) to = None →
  JsObject.inherited to = false →
  signal st roomId to sig = (st, [not_found to roomId]).
Proof. intros Hr Hu Hp. unfold signal. by rewrite Hr, Hu, Hp. Qed.

Lemma names_member_stored st roomId room :
  rooms st !! roomId = Some room → names_member st roomId = false.
Proof.
  intros H. unfold names_member.
  by rewrite bool_decide_eq_false_2 by (by rewrite H).
Qed.

Lemma names_member_plain st roomId :
  JsObject.inherited roomId = false → names_member st roomId = false.
Proof. intros H. unfold names_member. by rewrite H, andb_false_r. Qed.

Lemma names_member_true st roomId :
  names_member st roomId = true
  ↔ rooms st !! roomId = None ∧ JsObject.inherited roomId = true.
Proof.
  unfold names_member. by rewrite andb_true_iff, bool_decide_eq_true.
Qed.

Definition demo_offer : Signal :=
  {| signal_type := "offer"; signal_from := "alice";
     signal_data := JStr "sdp" |}.

(** A seek to 5 s by "alice". *)
Definition seek_patch : VideoStatePatch :=
  {| patch_isPlaying := None; patch_playedSeconds := Some (5 # 1);
     patch_url := None; patch_lastUpdated := None;
     patch_updatedBy := Some "alice"; patch_serverTimestamp := None;
     patch_isBuffering := None; patch_playbackRate := None;
     patch_extraFields := ∅ |}.

(** C9, at an input where the code departs from it.  The server has no
    room at all.  For the room id "constructor", [rooms[roomId]] is the
    function of that name which [rooms] inherits, and the guard
    [if (rooms[roomId])] passes: [chat-message], [position-report] and
    [signal] throw a [TypeError], reading [messages], [videoState] and
    [users] of that function, and [video-state] with a position emits the
    stamped patch to the room "constructor".  For a room id that names
    nothing the same [chat-message] does nothing. *)
Theorem inherited_member_passes_guard :
  rooms initial !! "constructor" = None
  ∧ handle initial "s1" demo_clock
      (ChatMessage "constructor" {[ "message" := JStr "hello" ]})
    = None
  ∧ handle initial "s1" demo_clock
      (PositionReport "constructor" "alice" (5 # 1) false)
    = None
  ∧ handle initial "s1" demo_clock (SignalEv "constructor" "bob" demo_offer)
    = None
  ∧ handle initial "s1" demo_clock (VideoStateEv "constructor" seek_patch)
    = Some (initial,
            [Emit (io_to "constructor")
               (video_state_partial
                  (stamp_patch seek_patch 1700000000000))])
  ∧ handle initial "s1" demo_clock
      (ChatMessage "nowhere" {[ "message" := JStr "hello" ]})
    = Some (initial, []).
Proof. split_and!; reflexivity. Qed.

(** *** Joining *)

Definition entry_of (sid userId username : string) : User :=
  {| id := userId; username := username; socketId := sid;
     connectionQuality := None |}.

Lemma socket_rooms_join st sid roomId :
  roomId ∈ socket_rooms (socket_join st sid roomId) sid.
Proof.
  unfold socket_rooms at 1, socket_join. simpl. rewrite lookup_insert_eq.
  simpl. case_bool_decide; [done|]. apply elem_of_app. right. left.
Qed.

Lemma socket_join_twice st sid roomId :
  socket_join (socket_join st sid roomId) sid roomId
  = socket_join st sid roomId.
Proof.
  pose proof (socket_rooms_join st sid roomId) as Hin.
  unfold socket_join at 1.
  rewrite bool_decide_eq_true_2 by done.
  unfold socket_rooms, socket_join. simpl.
  rewrite lookup_insert_eq. simpl. by rewrite insert_insert_eq.
Qed.

Definition joined (st : state) (sid : string) (clk : Clock)
    (roomId userId username : string) : Room :=
  let room0 := default (new_room clk userId) (rooms st !! roomId) in
  set_users room0
    (JsObject.set (users room0) userId (entry_of sid userId username)).

Definition join_effects (sid roomId userId : string) (room : Room)
    : list effect :=
  [Emit (io_to roomId)
     (update_users (JsObject.values (JsObject.enumerable (users room))));
   Emit (socket_emit sid)
     (sync_state (videoState room) (messages room)
        (JsObject.values (JsObject.enumerable (users room))) (hostId room))]
  ++ (if bool_decide (hostId room = userId)
      then [Emit (socket_emit sid) host_assigned] else [])
  ++ [Emit (socket_to sid roomId) (user_connected userId)].

Lemma join_room_eq st sid clk roomId userId username :
  join_room st sid clk roomId userId username
  = (set_rooms (socket_join st sid roomId)
       (<[roomId := joined st sid clk roomId userId username]> (rooms st)),
     join_effects sid roomId userId
       (joined st sid clk roomId userId username)).
Proof. reflexivity. Qed.

Lemma joined_existing st sid clk roomId userId username room :
  rooms st !! roomId = Some room →
  joined st sid clk roomId userId username
  = set_users room
      (JsObject.set (users room) userId (entry_of sid userId username)).
Proof. intros H. unfold joined. by rewrite H. Qed.

Lemma socket_join_set_rooms st rs sid roomId :
  socket_join (set_rooms st rs) sid roomId
  = set_rooms (socket_join st sid roomId) rs.
Proof. reflexivity. Qed.

Lemma join_room_twice st sid clk clk' roomId userId username :
  join_room (join_room st sid clk roomId userId username).1
    sid clk' roomId userId username
  = join_room st sid clk roomId userId username.
Proof.
  rewrite (join_room_eq st). cbn [fst]. rewrite join_room_eq.
  set (room := joined st sid clk roomId userId username).
  rewrite (joined_existing _ _ _ _ _ _ room)
    by (cbn [rooms set_rooms]; apply lookup_insert_eq).
  assert (Hroom : set_users room
            (JsObject.set (users room) userId (entry_of sid userId username))
          = room).
  { unfold room, joined. cbn [users set_users].
    by rewrite JsObjectFacts.set_set. }
  rewrite Hroom. f_equal.
  rewrite socket_join_set_rooms, socket_join_twice.
  unfold set_rooms. cbn [rooms socketRooms].
  by rewrite insert_insert_eq.
Qed.

(** X24. A join on a room that already exists, with a user id other than
    [__proto__], changes nothing of the room but the joiner's entry of
    [users]: [videoState], [messages], [hostId] and [createdAt] are what
    they were, the entries of the other users and the other rooms are
    untouched, and the joiner's entry is (re)written with the socket of this
    join and is among those that [Object.keys] lists.  A second join by the
    same user leaves the same members listed as the first (the same keys,
    whatever socket it comes from), and repeating a join changes nothing at
    all. *)
Theorem join_existing_room (st : state) (sid : string) (clk : Clock)
    (roomId userId username : string) (room : Room)
    (Hroom : rooms st !! roomId = Some room)
    (Hid : userId ≠ "__proto__") :
  let st' := (join_room st sid clk roomId userId username).1 in
  let room' :=
    set_users room
      (JsObject.set (users room) userId (entry_of sid userId username)) in
  handle st sid clk (JoinRoom roomId userId username)
  = Some (join_room st sid clk roomId userId username)
  ∧ rooms st' !! roomId = Some room'
  ∧ videoState room' = videoState room
  ∧ messages room' = messages room
  ∧ hostId room' = hostId room
  ∧ createdAt room' = createdAt room
  ∧ JsObject.get (users room') userId = Some (entry_of sid userId username)
  ∧ userId ∈ JsObject.keys (JsObject.enumerable (users room'))
  ∧ (∀ other, other ≠ userId →
       JsObject.get (users room') other = JsObject.get (users room) other)
  ∧ (∀ other, other ≠ roomId → rooms st' !! other = rooms st !! other)
  ∧ (∀ sid2 clk2 username2 room2,
       rooms (join_room st' sid2 clk2 roomId userId username2).1 !! roomId
       = Some room2 →
       JsObject.keys (JsObject.enumerable (users room2))
       = JsObject.keys (JsObject.enumerable (users room')))
  ∧ (∀ clk2,
       join_room st' sid clk2 roomId userId username
       = join_room st sid clk roomId userId username).
Proof.
  intros st' room'. subst st'.
  split; [cbn [handle]; by erewrite names_member_stored|].
  rewrite join_room_eq. cbn [fst].
  rewrite (joined_existing _ _ _ _ _ _ room Hroom). fold room'.
  cbn [rooms set_rooms]. rewrite lookup_insert_eq.
  split_and!; try done.
  - apply JsObjectFacts.get_set_eq.
  - apply JsObjectFacts.elem_of_keys, JsObjectFacts.elem_of_enumerable.
    split; [|done]. apply JsObjectFacts.elem_of_set. by left.
  - intros other Hne. by apply JsObjectFacts.get_set_ne.
  - intros other Hne. by rewrite lookup_insert_ne.
  - intros sid2 clk2 username2 room2. rewrite join_room_eq. cbn [fst].
    rewrite (joined_existing _ _ _ _ _ _ room')
      by (cbn [rooms set_rooms]; apply lookup_insert_eq).
    cbn [rooms set_rooms]. rewrite lookup_insert_eq.
    intros [= <-]. cbn [users set_users].
    rewrite JsObjectFacts.enumerable_set by done.
    apply JsObjectFacts.keys_set_has, JsObjectFacts.elem_of_enumerable.
    split; [|done]. apply JsObjectFacts.elem_of_set. by left.
  - intros clk2.
    pose proof (join_room_twice st sid clk clk2 roomId userId username) as H.
    rewrite (join_room_eq st) in H at 1. cbn [fst] in H.
    rewrite (joined_existing _ _ _ _ _ _ room Hroom) in H.
    fold room' in H. rewrite H, join_room_eq.
    by rewrite (joined_existing _ _ _ _ _ _ room Hroom).
Qed.

Definition demo_room : state :=
  (join_room initial "s1" demo_clock "r" "alice" "Alice").1.

Lemma join_existing_room_witness :
  join_room (join_room demo_room "s2" demo_clock "r" "bob" "Bob").1
    "s2" demo_clock "r" "bob" "Bob"
  = join_room demo_room "s2" demo_clock "r" "bob" "Bob".
Proof.
  apply (join_existing_room demo_room "s2" demo_clock "r" "bob" "Bob"
           (set_users (new_room demo_clock "alice")
              [("alice", entry_of "s1" "alice" "Alice")])).
  - reflexivity.
  - discriminate.
Defined.

(** C10, at an input where the code departs from it.  "alice" is the only
    user of room "r"; socket "s2" joins it with the user id [__proto__].
    The assignment of line 158 makes the entry the prototype of [users]:
    [Object.keys] lists "alice" alone, as before, and so do the
    [update-users] sent to the room and the [sync-state] sent to the joiner,
    while the others are told that [__proto__] has connected.  No entry has
    been upserted for the joiner. *)
Theorem join_as_proto_lists_no_user :
  ∃ room room',
    rooms demo_room !! "r" = Some room
    ∧ JsObject.keys (JsObject.enumerable (users room)) = ["alice"]
    ∧ handle demo_room "s2" demo_clock (JoinRoom "r" "__proto__" "Eve")
      = Some (join_room demo_room "s2" demo_clock "r" "__proto__" "Eve")
    ∧ rooms (join_room demo_room "s2" demo_clock "r" "__proto__" "Eve").1
        !! "r"
      = Some room'
    ∧ JsObject.keys (JsObject.enumerable (users room')) = ["alice"]
    ∧ (join_room demo_room "s2" demo_clock "r" "__proto__" "Eve").2
      = [Emit (io_to "r") (update_users [entry_of "s1" "alice" "Alice"]);
         Emit (socket_emit "s2")
           (sync_state (videoState room) (messages room)
              [entry_of "s1" "alice" "Alice"] "alice");
         Emit (socket_to "s2" "r") (user_connected "__proto__")].
Proof. eexists _, _. split_and!; reflexivity. Qed.

(** *** Updating the playback state *)

Lemma merge_extraFields stored patch now k :
  extraFields (merge_video_state stored patch now) !! k
  = match patch_extraFields patch !! k with
    | Some v => Some v
    | None => extraFields stored !! k
    end.
Proof.
  cbn [extraFields merge_video_state]. rewrite lookup_union.
  destruct (patch_extraFields patch !! k), (extraFields stored !! k); done.
Qed.

(** C4, as the code has it.  On an existing room a [video-state] event
    merges every property of the patch into the stored state, those of the
    schema and any other alike; [lastUpdated] and [serverTimestamp] are then
    set to the server's clock, whatever the patch says; the whole resulting
    state is emitted once to the room with [io.to(roomId)], which excludes
    no socket of the room; the rest of the room and the other rooms are left
    alone. *)
Theorem video_state_merges_patch (st : state) (clk : Clock)
    (roomId : string) (patch : VideoStatePatch) (room : Room)
    (Hroom : rooms st !! roomId = Some room) :
  let stored := videoState room in
  let vs := merge_video_state stored patch (clk 0%nat) in
  video_state st clk roomId patch
  = (set_rooms st (<[roomId := set_videoState room vs]> (rooms st)),
     [Emit (io_to roomId) (video_state_msg vs)])
  ∧ lastUpdated vs = clk 0%nat
  ∧ serverTimestamp vs = clk 0%nat
  ∧ isPlaying vs = default (isPlaying stored) (patch_isPlaying patch)
  ∧ playedSeconds vs
    = default (playedSeconds stored) (patch_playedSeconds patch)
  ∧ url vs = default (url stored) (patch_url patch)
  ∧ updatedBy vs = default (updatedBy stored) (patch_updatedBy patch)
  ∧ isBuffering vs = default (isBuffering stored) (patch_isBuffering patch)
  ∧ playbackRate vs
    = default (playbackRate stored) (patch_playbackRate patch)
  ∧ (∀ k v, patch_extraFields patch !! k = Some v →
       extraFields vs !! k = Some v)
  ∧ (∀ k, patch_extraFields patch !! k = None →
       extraFields vs !! k = extraFields stored !! k).
Proof.
  intros stored vs. split_and!; try reflexivity.
  - unfold video_state. by rewrite Hroom.
  - intros k v Hk. unfold vs. by rewrite merge_extraFields, Hk.
  - intros k Hk. unfold vs. by rewrite merge_extraFields, Hk.
Qed.

Definition volume_patch : VideoStatePatch :=
  {| patch_isPlaying := Some true; patch_playedSeconds := None;
     patch_url := None; patch_lastUpdated := Some 1;
     patch_updatedBy := Some "alice"; patch_serverTimestamp := Some 2;
     patch_isBuffering := None; patch_playbackRate := None;
     patch_extraFields := {[ "volume" := JNum (11 # 1) ]} |}.

Lemma video_state_merges_patch_witness :
  lastUpdated
    (merge_video_state
       (videoState (joined initial "s1" demo_clock "r" "alice" "Alice"))
       volume_patch 1700000000000)
  = 1700000000000.
Proof.
  apply (video_state_merges_patch demo_room demo_clock "r" volume_patch
           (joined initial "s1" demo_clock "r" "alice" "Alice") eq_refl).
Defined.

(** C4 as the design document words it does not hold: a property that is
    not part of the schema enters the stored state. *)
Lemma video_state_stores_unknown_field :
  ∃ room room',
    rooms demo_room !! "r" = Some room
    ∧ rooms (video_state demo_room demo_clock "r" volume_patch).1 !! "r"
      = Some room'
    ∧ extraFields (videoState room) !! "volume" = None
    ∧ extraFields (videoState room') !! "volume" = Some (JNum (11 # 1)).
Proof.
  eexists _, _. split; [reflexivity|]. split; [reflexivity|].
  split; reflexivity.
Qed.

(** *** Position reports *)

Lemma truthy_true s : truthy s = true ↔ s ≠ EmptyString.
Proof.
  unfold truthy. rewrite negb_true_iff, bool_decide_eq_false. done.
Qed.

(** The condition of line 239. *)
Definition needs_correction (stored : VideoState) (drift : Q)
    (buffering : bool) : Prop :=
  (3 # 10 < drift)%Q ∧ isPlaying stored = true ∧ buffering = false.

Lemma needs_correction_test stored drift buffering :
  Qgtb drift (3 # 10) && isPlaying stored && negb buffering = true
  ↔ needs_correction stored drift buffering.
Proof.
  unfold needs_correction.
  rewrite !andb_true_iff, Qgtb_lt, negb_true_iff. tauto.
Qed.

(** A report that names a user the room does not hold reads
    [users[userId].connectionQuality] of [undefined]: the handler throws
    before it has changed or sent anything. *)
Lemma position_report_unknown_user st clk roomId userId reported buffering
    room :
  rooms st !! roomId = Some room →
  JsObject.get (users room) userId = None →
  JsObject.inherited userId = false →
  position_report st clk roomId userId reported buffering = None.
Proof. intros Hr Hu Hp. unfold position_report. by rewrite Hr, Hu, Hp. Qed.

Definition playing_room : state :=
  let st1 := (join_room demo_room "s2" demo_clock "r" "bob" "Bob").1 in
  (video_state st1 demo_clock "r"
     {| patch_isPlaying := Some true; patch_playedSeconds := Some (120 # 1);
        patch_url := Some "https://example.org/film.mp4";
        patch_lastUpdated := None; patch_updatedBy := Some "alice";
        patch_serverTimestamp := None; patch_isBuffering := None;
        patch_playbackRate := None; patch_extraFields := ∅ |}).1.

(** C1, at inputs where the code departs from it.  Room "r" is playing
    at 120 s, and "mallory" is not among its users.  A report of 125.5 s
    under that user id, not buffering, has a drift of 5.5 s, above 0.3 s,
    for which the design document has the server send a correction.  The
    handler throws at line 215, reading [connectionQuality] of [undefined],
    before the test of line 239 is reached.  The same report by "bob", who
    is a user of the room, is answered by a correction.  It is no longer
    answered when the socket of "bob" has gone and the player of "bob",
    connected again through another socket and not having joined again,
    goes on reporting: "alice" is then the only user of the room, and the
    handler throws. *)
Theorem position_report_of_stranger_throws :
  ∃ room st' room',
    rooms playing_room !! "r" = Some room
    ∧ isPlaying (videoState room) = true
    ∧ (3 # 10 < Qabs ((1255 # 10) - playedSeconds (videoState room)))%Q
    ∧ JsObject.get (users room) "mallory" = None
    ∧ handle playing_room "s9" demo_clock
        (PositionReport "r" "mallory" (1255 # 10) false)
      = None
    ∧ snd <$> handle playing_room "s2" demo_clock
                (PositionReport "r" "bob" (1255 # 10) false)
      = Some [Emit (io_to "s2")
                (sync_correction (120 # 1) true 1700000000001 (55 # 10)
                   poor)]
    ∧ fst <$> handle playing_room "s2" demo_clock Disconnecting = Some st'
    ∧ rooms st' !! "r" = Some room'
    ∧ JsObject.keys (JsObject.enumerable (users room')) = ["alice"]
    ∧ videoState room' = videoState room
    ∧ handle st' "s5" demo_clock
        (PositionReport "r" "bob" (1255 # 10) false)
      = None.
Proof. eexists _, _, _. split_and!; reflexivity. Qed.

(** *** The cumulative average of the drift *)


















(** *** What holds of every room, at any time *)

Definition room_ok (room : Room) : Prop :=
  (length (messages room) ≤ 100)%nat.

Definition state_ok (st : state) : Prop :=
  map_Forall (λ _ room, room_ok room) (rooms st).

Lemma joined_ok st sid clk roomId userId username :
  state_ok st → room_ok (joined st sid clk roomId userId username).
Proof.
  intros Hst. unfold joined, room_ok.
  destruct (rooms st !! roomId) as [room|] eqn:Hroom; cbn [default].
  - exact (Hst roomId room Hroom).
  - cbn. lia.
Qed.

Lemma join_room_ok st sid clk roomId userId username :
  state_ok st → state_ok (join_room st sid clk roomId userId username).1.
Proof.
  intros Hst. rewrite join_room_eq. cbn [fst]. unfold state_ok.
  cbn [rooms set_rooms]. apply map_Forall_insert_2; [|done].
  by apply joined_ok.
Qed.

Lemma video_state_ok st clk roomId patch :
  state_ok st → state_ok (video_state st clk roomId patch).1.
Proof.
  intros Hst. unfold video_state.
  destruct (rooms st !! roomId) as [room|] eqn:Hroom; [|done].
  cbn [fst]. unfold state_ok. cbn [rooms set_rooms].
  apply map_Forall_insert_2; [|done]. exact (Hst roomId room Hroom).
Qed.

Lemma position_report_ok st clk roomId userId reported buffering st' effs :
  state_ok st →
  position_report st clk roomId userId reported buffering = Some (st', effs) →
  state_ok st'.
Proof.
  intros Hst. unfold position_report.
  destruct (rooms st !! roomId) as [room|] eqn:Hroom;
    [|by intros [= <- _]].
  destruct (JsObject.get (users room) userId) as [u|];
    [|by destruct (JsObject.inherited userId); intros [= <- _]].
  intros [= <- _]. unfold state_ok. cbn [rooms set_rooms].
  apply map_Forall_insert_2; [|done]. exact (Hst roomId room Hroom).
Qed.

Lemma length_push_bounded log msg :
  (length log ≤ 100)%nat → (length (push_bounded log msg) ≤ 100)%nat.
Proof.
  intros Hlog. unfold push_bounded.
  destruct (100 <? length (log ++ [msg]))%nat eqn:E.
  - change (tail (log ++ [msg])) with (tl (log ++ [msg])).
    rewrite length_tl, length_app. simpl. lia.
  - by apply Nat.ltb_ge in E.
Qed.

Lemma chat_message_ok st clk roomId message :
  state_ok st → state_ok (chat_message st clk roomId message).1.
Proof.
  intros Hst. unfold chat_message.
  destruct (rooms st !! roomId) as [room|] eqn:Hroom; [|done].
  cbn [fst]. unfold state_ok. cbn [rooms set_rooms].
  apply map_Forall_insert_2; [|done].
  apply length_push_bounded. exact (Hst roomId room Hroom).
Qed.

(** *** Leaving a room *)

Lemma head_keys {V} (o : JsObject.obj V) :
  o ≠ [] →
  ∃ k v, head (JsObject.keys o) = Some k ∧ JsObject.get o k = Some v.
Proof.
  intros Hne. destruct (JsObject.keys o) as [|k ks] eqn:Hk.
  - by apply JsObjectFacts.keys_nil in Hk.
  - assert (Hin : k ∈ o.*1).
    { apply JsObjectFacts.elem_of_keys. rewrite Hk. left. }
    apply JsObjectFacts.get_is_Some in Hin as [v Hv]. by exists k, v.
Qed.

Lemma keys_length_pos {V} (o : JsObject.obj V) :
  (0 <? length (JsObject.keys o))%nat = negb (length (JsObject.keys o) =? 0)%nat.
Proof. destruct (length (JsObject.keys o)); done. Qed.

Lemma keys_length_zero {V} (o : JsObject.obj V) :
  (length (JsObject.keys o) =? 0)%nat = true ↔ o = [].
Proof.
  rewrite Nat.eqb_eq, JsObjectFacts.length_keys. apply length_zero_iff_nil.
Qed.

(** The leaving user is a property of [users], and is not the empty
    string. *)
Lemma leaving_user_Some room sid userId :
  leaving_user room sid = Some userId →
  userId ∈ JsObject.keys (JsObject.enumerable (users room))
  ∧ userId ≠ EmptyString.
Proof.
  unfold leaving_user.
  destruct (List.find _ _) as [k|] eqn:Hfind; [|done].
  destruct (truthy k) eqn:Ht; [|done]. intros [= <-].
  apply find_some in Hfind as [Hin _].
  split; [by apply list_elem_of_In|by apply truthy_true].
Qed.

Lemma leaving_user_listed room sid userId :
  leaving_user room sid = Some userId →
  userId ∈ (users room).*1 ∧ userId ≠ "__proto__".
Proof.
  intros [Hin _]%leaving_user_Some.
  by apply JsObjectFacts.elem_of_keys, JsObjectFacts.elem_of_enumerable in Hin.
Qed.

(** The users that remain listed when [userId] has been deleted. *)
Definition remaining (room : Room) (userId : string) : JsObject.obj User :=
  JsObject.enumerable (JsObject.remove (users room) userId).

(** The three ways for a socket to leave a room it is a user of. *)
Definition leave_effects (roomId userId : string)
    (listed : JsObject.obj User) : list effect :=
  [Emit (io_to roomId) (user_disconnected userId);
   Emit (io_to roomId) (update_users (JsObject.values listed))].

Lemma leave_room_last st sid roomId room userId :
  rooms st !! roomId = Some room →
  leaving_user room sid = Some userId →
  remaining room userId = [] →
  leave_room sid st roomId
  = Some (set_rooms st (delete roomId (rooms st)),
          leave_effects roomId userId []).
Proof.
  intros Hroom Hleave Hlast. unfold leave_room.
  rewrite Hroom, Hleave. fold (remaining room userId). rewrite Hlast.
  cbn. by rewrite andb_false_r.
Qed.

Lemma leave_room_host st sid roomId room userId :
  rooms st !! roomId = Some room →
  leaving_user room sid = Some userId →
  hostId room = userId →
  remaining room userId ≠ [] →
  let users1 := JsObject.remove (users room) userId in
  ∃ newHostId newHost,
    head (JsObject.keys (remaining room userId)) = Some newHostId
    ∧ JsObject.get users1 newHostId = Some newHost
    ∧ leave_room sid st roomId
      = Some (set_rooms st
                (<[roomId := set_hostId (set_users room users1) newHostId]>
                   (rooms st)),
              leave_effects roomId userId (remaining room userId)
              ++ [Emit (io_to roomId)
                    (host_changed newHostId (username newHost));
                  Emit (io_to (socketId newHost)) host_assigned]).
Proof.
  intros Hroom Hleave Hhost Hrest users1.
  destruct (head_keys (remaining room userId) Hrest) as (k & v & Hk & Hv).
  apply JsObjectFacts.get_enumerable_Some in Hv as [Hv _].
  exists k, v. split; [done|]. split; [done|].
  unfold leave_room. rewrite Hroom, Hleave. subst users1.
  fold (remaining room userId).
  rewrite bool_decide_eq_true_2 by done.
  assert (Hz : (length (JsObject.keys (remaining room userId)) =? 0)%nat
               = false).
  { apply not_true_is_false. by rewrite keys_length_zero. }
  rewrite keys_length_pos, Hz. cbn [negb andb]. by rewrite Hk, Hv.
Qed.

Lemma leave_room_member st sid roomId room userId :
  rooms st !! roomId = Some room →
  leaving_user room sid = Some userId →
  hostId room ≠ userId →
  remaining room userId ≠ [] →
  let users1 := JsObject.remove (users room) userId in
  leave_room sid st roomId
  = Some (set_rooms st (<[roomId := set_users room users1]> (rooms st)),
          leave_effects roomId userId (remaining room userId) ++ []).
Proof.
  intros Hroom Hleave Hhost Hrest users1.
  unfold leave_room. rewrite Hroom, Hleave. subst users1.
  fold (remaining room userId).
  rewrite bool_decide_eq_false_2 by done.
  assert (Hz : (length (JsObject.keys (remaining room userId)) =? 0)%nat
               = false).
  { apply not_true_is_false. by rewrite keys_length_zero. }
  by rewrite Hz.
Qed.

Lemma leave_room_stranger st sid roomId room :
  rooms st !! roomId = Some room →
  leaving_user room sid = None →
  leave_room sid st roomId = Some (st, []).
Proof. intros Hroom Hleave. unfold leave_room. by rewrite Hroom, Hleave. Qed.

(** What the body of the [forEach] of [disconnecting] does for one room. *)
Lemma leave_room_cases sid st r st' effs :
  leave_room sid st r = Some (st', effs) →
  socketRooms st' = socketRooms st
  ∧ (st' = st
     ∨ ∃ room userId,
         rooms st !! r = Some room
         ∧ leaving_user room sid = Some userId
         ∧ ((remaining room userId = []
             ∧ rooms st' = delete r (rooms st))
            ∨ (remaining room userId ≠ []
               ∧ ∃ h,
                   rooms st'
                   = <[r := set_hostId
                              (set_users room
                                 (JsObject.remove (users room) userId)) h]>
                       (rooms st)))).
Proof.
  intros Hleave.
  destruct (rooms st !! r) as [room|] eqn:Hroom; cycle 1.
  { unfold leave_room in Hleave. rewrite Hroom in Hleave.
    destruct (JsObject.inherited r); [done|].
    injection Hleave as <- <-. by split; [|left]. }
  destruct (leaving_user room sid) as [userId|] eqn:Huser; cycle 1.
  { rewrite (leave_room_stranger st sid r room Hroom Huser) in Hleave.
    injection Hleave as <- <-. by split; [|left]. }
  destruct (decide (remaining room userId = [])) as [Hlast|Hrest].
  { rewrite (leave_room_last st sid r room userId Hroom Huser Hlast) in Hleave.
    injection Hleave as <- <-. split; [done|]. right.
    exists room, userId. split_and!; try done. by left. }
  destruct (decide (hostId room = userId)) as [Hwas|Hnot].
  - destruct (leave_room_host st sid r room userId Hroom Huser Hwas Hrest)
      as (k & v & _ & _ & Heq).
    rewrite Heq in Hleave. injection Hleave as <- <-. split; [done|]. right.
    exists room, userId. split_and!; try done. right. split; [done|].
    by exists k.
  - rewrite (leave_room_member st sid r room userId Hroom Huser Hnot Hrest)
      in Hleave.
    injection Hleave as <- <-. split; [done|]. right.
    exists room, userId. split_and!; try done. right. split; [done|].
    exists (hostId room). by destruct room.
Qed.

Lemma leave_room_ok sid st roomId st' effs :
  state_ok st → leave_room sid st roomId = Some (st', effs) → state_ok st'.
Proof.
  intros Hst Hleave.
  destruct (leave_room_cases sid st roomId st' effs Hleave)
    as [_ [->|(room & userId & Hroom & _ & [[_ Heq]|[_ [h Heq]]])]];
    [done| |]; unfold state_ok; rewrite Heq.
  - by apply map_Forall_delete.
  - apply map_Forall_insert_2; [|done]. exact (Hst roomId room Hroom).
Qed.

Lemma leave_rooms_ok sid roomIds :
  ∀ st st' effs,
    state_ok st → leave_rooms sid st roomIds = Some (st', effs) →
    state_ok st'.
Proof.
  induction roomIds as [|roomId roomIds IH]; intros st st' effs Hst Hl.
  - by injection Hl as <- <-.
  - cbn [leave_rooms] in Hl.
    destruct (leave_room sid st roomId) as [[s1 e1]|] eqn:H1; [|done].
    destruct (leave_rooms sid s1 roomIds) as [[s2 e2]|] eqn:H2; [|done].
    injection Hl as <- <-. eapply IH; [|exact H2].
    by eapply leave_room_ok.
Qed.

Lemma disconnecting_ok st sid st' effs :
  state_ok st → disconnecting st sid = Some (st', effs) → state_ok st'.
Proof.
  intros Hst. unfold disconnecting.
  destruct (leave_rooms sid st _) as [[s1 e1]|] eqn:H1; [|done].
  intros [= <- <-]. unfold state_ok. cbn [rooms].
  by eapply leave_rooms_ok.
Qed.

Lemma Some_pair_fst {A B} (x : A * B) a b : Some x = Some (a, b) → x.1 = a.
Proof. by intros [= ->]. Qed.

(** The guard of a handler, looked at from the result. *)
Lemma guarded_Some {A} (b : bool) (x : option A) (y : A) :
  (if b then None else x) = Some y → b = false ∧ x = Some y.
Proof. by destruct b. Qed.

Lemma handle_ok st sid clk ev st' effs :
  state_ok st → handle st sid clk ev = Some (st', effs) → state_ok st'.
Proof.
  intros Hst.
  destruct ev as [roomId userId uname|roomId patch|roomId userId p b
                 |roomId userId b|roomId message|roomId to sig|];
    cbn [handle].
  - intros [_ <-%Some_pair_fst]%guarded_Some. by apply join_room_ok.
  - destruct (names_member st roomId).
    + unfold video_state_on_member.
      by destruct (patch_playedSeconds patch); intros [= <- _].
    + intros <-%Some_pair_fst. by apply video_state_ok.
  - intros [_ H]%guarded_Some. by eapply position_report_ok.
  - intros [_ H]%guarded_Some. unfold buffer_state in H.
    destruct (rooms st !! roomId) as [room|]; [|by injection H as <- _].
    destruct (JsObject.get (users room) userId);
      [|destruct (JsObject.inherited userId)]; by injection H as <- _.
  - intros [_ <-%Some_pair_fst]%guarded_Some. by apply chat_message_ok.
  - intros [_ H]%guarded_Some. unfold signal in H.
    destruct (rooms st !! roomId) as [room|]; [|by injection H as <- _].
    destruct (JsObject.get (users room) to);
      [|destruct (JsObject.inherited to)]; by injection H as <- _.
  - by apply disconnecting_ok.
Qed.

Lemma reachable_ok st : reachable st → state_ok st.
Proof.
  induction 1 as [|st sid clk ev st' effs _ IH Hstep].
  - unfold state_ok, initial. cbn [rooms]. apply map_Forall_empty.
  - by eapply handle_ok.
Qed.

Lemma reachable_join st sid clk roomId userId username :
  names_member st roomId = false →
  reachable st → reachable (join_room st sid clk roomId userId username).1.
Proof.
  intros Hguard Hst.
  apply (reachable_step st sid clk (JoinRoom roomId userId username) _
           (join_room st sid clk roomId userId username).2 Hst).
  cbn [handle]. rewrite Hguard. by rewrite <- surjective_pairing.
Qed.

(** *** Rooms, their users and their host *)

Lemma own_keys_singleton k : JsObject.own_keys [k] = [k].
Proof.
  unfold JsObject.own_keys. rewrite !filter_cons, !filter_nil.
  destruct (decide (JsObject.is_index k)) as [Hk|Hk].
  - rewrite decide_False by (by intros ?). reflexivity.
  - rewrite decide_True by done. reflexivity.
Qed.

Lemma join_room_creates st sid clk roomId userId username :
  rooms st !! roomId = None →
  userId ≠ "__proto__" →
  ∃ room',
    rooms (join_room st sid clk roomId userId username).1 !! roomId
    = Some room'
    ∧ JsObject.keys (JsObject.enumerable (users room')) = [userId]
    ∧ hostId room' = userId.
Proof.
  intros Hnone Hid. rewrite join_room_eq. cbn [fst rooms set_rooms].
  rewrite lookup_insert_eq. eexists. split; [done|].
  unfold joined. rewrite Hnone. cbn [default users set_users hostId new_room].
  split; [|done].
  rewrite JsObjectFacts.enumerable_set by done. apply own_keys_singleton.
Qed.

Definition is_host_changed (e : effect) : bool :=
  match e with
  | Emit _ (host_changed _ _) => true
  | _ => false
  end.

Definition is_host_assigned (e : effect) : bool :=
  match e with
  | Emit _ host_assigned => true
  | _ => false
  end.

Definition three_members : state :=
  (join_room (join_room demo_room "s2" demo_clock "r" "bob" "Bob").1
     "s3" demo_clock "r" "carol" "Carol").1.

Lemma reachable_three_members : reachable three_members.
Proof.
  do 3 (apply reachable_join; [reflexivity|]). apply reachable_initial.
Qed.

(** The scenario of the design document, run: the host leaves a room of
    three; the next user in key order becomes host. *)
Example host_leaves_room_of_three :
  ∃ st',
    handle three_members "s1" demo_clock Disconnecting
    = Some
        (st',
         [Emit (io_to "r") (user_disconnected "alice");
          Emit (io_to "r")
            (update_users
               [entry_of "s2" "bob" "Bob"; entry_of "s3" "carol" "Carol"]);
          Emit (io_to "r") (host_changed "bob" "Bob");
          Emit (io_to "s2") host_assigned])
    ∧ hostId <$> rooms st' !! "r" = Some "bob".
Proof. eexists. split; reflexivity. Qed.

(** Socket "s1" has joined room "r", which did not exist, with the empty
    string for a user id. *)
Definition nameless_joined : state :=
  (join_room initial "s1" demo_clock "r" EmptyString "Nobody").1.

(** C3, at inputs where the code departs from it.  A socket creates room
    "r" by joining it with the empty string for a user id, and is its only
    user.  When the socket goes, [find] of line 300 returns that user id,
    which the test [if (userId)] of line 301 takes for nothing found: the
    handler emits nothing and leaves the room and its user, whose socket no
    longer exists, in the store.  The last user has left and the room is not
    deleted.  With the user id "alice" the same two events leave no room
    behind.  And a socket that creates the room with the user id "__proto__"
    makes a room that lists no user and whose [hostId] is no key of
    [users]. *)
Theorem nameless_user_is_never_removed :
  ∃ room room',
    handle initial "s1" demo_clock (JoinRoom "r" EmptyString "Nobody")
    = Some (join_room initial "s1" demo_clock "r" EmptyString "Nobody")
    ∧ rooms nameless_joined !! "r" = Some room
    ∧ JsObject.keys (JsObject.enumerable (users room)) = [EmptyString]
    ∧ socketId <$> JsObject.get (users room) EmptyString = Some "s1"
    ∧ handle nameless_joined "s1" demo_clock Disconnecting
      = Some ({| rooms := rooms nameless_joined; socketRooms := ∅ |}, [])
    ∧ handle demo_room "s1" demo_clock Disconnecting
      = Some (initial,
              [Emit (io_to "r") (user_disconnected "alice");
               Emit (io_to "r") (update_users [])])
    ∧ (fst <$> handle initial "s1" demo_clock
                 (JoinRoom "r" "__proto__" "Nobody"))
      = Some {| rooms := {[ "r" := room' ]};
                socketRooms := {[ "s1" := ["s1"; "r"] ]} |}
    ∧ JsObject.keys (JsObject.enumerable (users room')) = []
    ∧ hostId room' = "__proto__".
Proof. eexists _, _. split_and!; reflexivity. Qed.

(** *** The chat log *)

(** The last [n] elements of a list, in order. *)
Definition lastn {A} (n : nat) (l : list A) : list A :=
  drop (length l - n) l.

Lemma lastn_short {A} n (l : list A) : (length l ≤ n)%nat → lastn n l = l.
Proof.
  intros H. unfold lastn. by replace (length l - n)%nat with 0%nat by lia.
Qed.

Lemma length_lastn {A} n (l : list A) :
  length (lastn n l) = (length l `min` n)%nat.
Proof. unfold lastn. rewrite length_drop. lia. Qed.

Lemma lastn_app_lastn {A} n (l r : list A) :
  lastn n (lastn n l ++ r) = lastn n (l ++ r).
Proof.
  unfold lastn. rewrite !length_app, length_drop.
  set (a := (length l - n)%nat).
  replace (length l + length r - n)%nat
    with (a + (length l - a + length r - n))%nat by lia.
  rewrite <- drop_drop. f_equal.
  rewrite drop_app_le by lia. done.
Qed.

Lemma push_bounded_lastn log msg :
  (length log ≤ 100)%nat → push_bounded log msg = lastn 100 (log ++ [msg]).
Proof.
  intros Hlog. unfold push_bounded, lastn.
  destruct (100 <? length (log ++ [msg]))%nat eqn:E.
  - apply Nat.ltb_lt in E. rewrite length_app in *. simpl in *.
    replace (length log + 1 - 100)%nat with 1%nat by lia.
    by destruct (log ++ [msg]).
  - apply Nat.ltb_ge in E.
    by replace (length (log ++ [msg]) - 100)%nat with 0%nat by lia.
Qed.

Definition chat_event (roomId : string)
    (post : string * Clock * gmap string jsval) : string * Clock * event :=
  (post.1.1, post.1.2, ChatMessage roomId post.2).

(** The message as the server stores and emits it. *)
Definition stamped_post (post : string * Clock * gmap string jsval)
    : gmap string jsval :=
  stamp post.2 (post.1.2 0%nat).

Definition chat_broadcast (roomId : string) (msg : gmap string jsval)
    : effect :=
  Emit (io_to roomId) (chat_message_msg msg).

Lemma set_messages_id room : set_messages room (messages room) = room.
Proof. by destruct room. Qed.

Lemma run_chat roomId posts :
  ∀ st room,
    rooms st !! roomId = Some room →
    (length (messages room) ≤ 100)%nat →
    ∃ st',
      run st (chat_event roomId <$> posts)
      = Some (st', chat_broadcast roomId <$> (stamped_post <$> posts))
      ∧ rooms st' !! roomId
        = Some (set_messages room
                  (lastn 100 (messages room ++ (stamped_post <$> posts)))).
Proof.
  induction posts as [|[[sid clk] message] posts IH]; intros st room Hroom Hlog.
  - exists st. split; [done|]. simpl. rewrite app_nil_r, lastn_short by done.
    by rewrite set_messages_id.
  - set (msg := stamp message (clk 0%nat)).
    set (room1 := set_messages room (push_bounded (messages room) msg)).
    set (st1 := set_rooms st (<[roomId := room1]> (rooms st))).
    assert (Hstep : chat_message st clk roomId message
                    = (st1, [chat_broadcast roomId msg])).
    { unfold chat_message. by rewrite Hroom. }
    destruct (IH st1 room1) as (st' & Hrun & Hroom').
    { subst st1. cbn [rooms set_rooms]. apply lookup_insert_eq. }
    { cbn [messages room1 set_messages]. by apply length_push_bounded. }
    exists st'. rewrite !fmap_cons. cbn [run chat_event fst snd handle].
    rewrite (names_member_stored st roomId room Hroom), Hstep, Hrun. split; [done|]. rewrite Hroom'.
    cbn [messages room1 set_messages]. unfold set_messages at 1.
    cbn [users hostId videoState createdAt syncCheckpoint set_messages].
    unfold set_messages. do 2 f_equal.
    rewrite push_bounded_lastn by done. rewrite lastn_app_lastn.
    by rewrite <- app_assoc.
Qed.

(** C6. Let [N] chat messages be handled for a room.  The stored log is then
    the last 100 of what it held followed by the [N] messages as stamped, in
    the order of arrival; for a room whose log was empty it has
    [min N 100] entries, the most recent ones.  Every message is stored and
    emitted with [timestamp] set to the server's clock at its arrival, and is
    emitted once to the room. *)
Theorem chat_log_keeps_last_100 (st : state) (Hreach : reachable st)
    (roomId : string) (room : Room)
    (posts : list (string * Clock * gmap string jsval))
    (Hroom : rooms st !! roomId = Some room) :
  let stamped := stamped_post <$> posts in
  ∃ st' room',
    run st (chat_event roomId <$> posts)
    = Some (st', chat_broadcast roomId <$> stamped)
    ∧ rooms st' !! roomId = Some room'
    ∧ messages room' = lastn 100 (messages room ++ stamped)
    ∧ (length (messages room') ≤ 100)%nat
    ∧ (messages room = [] →
       messages room' = lastn 100 stamped
       ∧ length (messages room') = (length posts `min` 100)%nat)
    ∧ (∀ i (post : string * Clock * gmap string jsval),
         posts !! i = Some post →
         ∃ msg,
           stamped !! i = Some msg
           ∧ msg !! "timestamp" = Some (JNum (inject_Z (post.1.2 0%nat)))
           ∧ ∀ k, k ≠ "timestamp" → msg !! k = post.2 !! k).
Proof.
  intros stamped.
  pose proof (reachable_ok st Hreach roomId room Hroom) as Hlog.
  destruct (run_chat roomId posts st room Hroom Hlog) as (st' & Hrun & Hroom').
  eexists st', _. split; [exact Hrun|]. split; [exact Hroom'|].
  cbn [messages set_messages]. fold stamped.
  split; [done|]. split; [rewrite length_lastn; lia|]. split.
  - intros ->. rewrite app_nil_l. split; [done|].
    rewrite length_lastn. unfold stamped. by rewrite length_fmap.
  - intros i post Hi. exists (stamped_post post). split_and!.
    + unfold stamped. by rewrite list_lookup_fmap, Hi.
    + apply lookup_insert_eq.
    + intros k Hk. unfold stamped_post, stamp. by rewrite lookup_insert_ne.
Qed.

Definition demo_posts : list (string * Clock * gmap string jsval) :=
  [("s1", demo_clock, {[ "message" := JStr "hello" ]});
   ("s1", demo_clock, {[ "message" := JStr "anyone?" ]})].

Lemma chat_log_keeps_last_100_witness :
  ∃ st' room',
    run demo_room (chat_event "r" <$> demo_posts)
    = Some (st', chat_broadcast "r" <$> (stamped_post <$> demo_posts))
    ∧ rooms st' !! "r" = Some room'
    ∧ messages room' = stamped_post <$> demo_posts.
Proof.
  destruct (chat_log_keeps_last_100 demo_room
              (reachable_join initial "s1" demo_clock "r" "alice" "Alice"
                 eq_refl reachable_initial)
              "r"
              (set_users (new_room demo_clock "alice")
                 [("alice", entry_of "s1" "alice" "Alice")])
              demo_posts eq_refl)
    as (st' & room' & Hrun & Hroom' & Hlog & _).
  exists st', room'. rewrite Hlog. done.
Defined.

(** A full log loses its oldest entry to the next message. *)
Example push_bounded_full (msg : gmap string jsval) :
  push_bounded (replicate 100 ∅) msg = replicate 99 ∅ ++ [msg].
Proof. reflexivity. Qed.

End ServerSpec.

(** ** The playback synchronisation effect *)

Module VideoPlayerSpec.
Import VideoPlayer.

Lemma or_zero_eq x : (or_zero x == x)%Q.
Proof.
  unfold or_zero. destruct (Qeq_bool x 0) eqn:E; [|reflexivity].
  apply Qeq_bool_eq in E. by rewrite E.
Qed.

Lemma adjustedTarget_playing vs now t :
  isPlaying vs = true → serverTimestamp vs = Some t → t ≠ 0 →
  (adjustedTarget vs now
   == playedSeconds vs + Qmin (inject_Z (now - t) / inject_Z 1000) 2)%Q.
Proof.
  intros Hp Ht Hnz. unfold adjustedTarget, truthy_timestamp.
  rewrite Hp, Ht, bool_decide_eq_false_2 by done.
  by rewrite or_zero_eq.
Qed.

Lemma adjustedTarget_paused vs now :
  isPlaying vs = false → (adjustedTarget vs now == playedSeconds vs)%Q.
Proof.
  intros Hp. unfold adjustedTarget. rewrite Hp. apply or_zero_eq.
Qed.

(** The two conditions under which the effect seeks. *)
Definition should_sync (vs : VideoState) (userId : string) (current : Q)
    : Prop :=
  updatedBy vs ≠ userId ∨ (2 < Qabs (current - playedSeconds vs))%Q.

Definition drifted (vs : VideoState) (now : Z) (current : Q) : Prop :=
  (3 # 10 < Qabs (current - adjustedTarget vs now))%Q.

Lemma should_sync_test vs userId current :
  negb (bool_decide (updatedBy vs = userId))
  || Qgtb (Qabs (current - or_zero (playedSeconds vs))) 2 = true
  ↔ should_sync vs userId current.
Proof.
  unfold should_sync.
  rewrite orb_true_iff, negb_true_iff, bool_decide_eq_false, Qgtb_lt.
  by rewrite or_zero_eq.
Qed.

Lemma sync_effect_ready c vs userId now current :
  isReady c = true → currentTime c = Some current →
  (should_sync vs userId current ∧ drifted vs now current →
   sync_effect c (Some vs) userId now = seek_actions (adjustedTarget vs now))
  ∧ (¬ (should_sync vs userId current ∧ drifted vs now current) →
     sync_effect c (Some vs) userId now = []).
Proof.
  intros Hready Hplayer. unfold sync_effect. rewrite Hready, Hplayer.
  cbn [negb].
  pose proof (should_sync_test vs userId current) as Hgate.
  pose proof (Qgtb_lt (Qabs (current - adjustedTarget vs now)) (3 # 10))
    as Hdrift.
  fold (drifted vs now current) in Hdrift.
  destruct (negb _ || _); destruct (Qgtb _ (3 # 10)); split; try done.
  all: intros H; exfalso.
  - apply H. split; [by apply Hgate|by apply Hdrift].
  - destruct H as [_ H]. apply Hdrift in H. done.
  - destruct H as [H _]. apply Hgate in H. done.
  - destruct H as [H _]. apply Hgate in H. done.
Qed.

(** C2, as the code has it.  For a state stamped by the server (its
    [serverTimestamp] is present and not zero), the target of the seek is
    [playedSeconds + min((now - serverTimestamp) / 1000, 2)] while playing
    and [playedSeconds] otherwise; a state {playing, 120 s, stamped T} read
    at [T + 400] gives 120.4 s.  With the player ready, the effect seeks to
    that target exactly when the local position is more than 0.3 s away from
    it and, in addition, the state was written by another user or the local
    position is more than 2 s away from [playedSeconds]; otherwise it does
    nothing. *)
Theorem sync_effect_seeks (c : Component) (vs : VideoState)
    (userId : string) (now T : Z) (current : Q)
    (Hready : isReady c = true)
    (Hplayer : currentTime c = Some current)
    (Hstamp : serverTimestamp vs = Some T)
    (Hstamped : T ≠ 0) :
  let target := adjustedTarget vs now in
  (isPlaying vs = true →
   (target == playedSeconds vs + Qmin (inject_Z (now - T) / inject_Z 1000) 2)%Q)
  ∧ (isPlaying vs = false → (target == playedSeconds vs)%Q)
  ∧ (isPlaying vs = true → (playedSeconds vs == 120 # 1)%Q → now = T + 400 →
     (target == 1204 # 10)%Q)
  ∧ ((updatedBy vs ≠ userId ∨ (2 < Qabs (current - playedSeconds vs))%Q)
     ∧ (3 # 10 < Qabs (current - target))%Q →
     sync_effect c (Some vs) userId now
     = [setShowSyncIndicator true; set_isSeeking true; seekTo target;
        setTimeout 1000])
  ∧ (¬ ((updatedBy vs ≠ userId ∨ (2 < Qabs (current - playedSeconds vs))%Q)
        ∧ (3 # 10 < Qabs (current - target))%Q) →
     sync_effect c (Some vs) userId now = []).
Proof.
  intros target. split_and!.
  - intros Hp. by apply adjustedTarget_playing.
  - apply adjustedTarget_paused.
  - intros Hp Hps ->. unfold target.
    rewrite (adjustedTarget_playing vs (T + 400) T) by done.
    rewrite Hps. replace (T + 400 - T) with 400 by lia. reflexivity.
  - apply (sync_effect_ready c vs userId now current Hready Hplayer).
  - apply (sync_effect_ready c vs userId now current Hready Hplayer).
Qed.

Definition ready_at (current : Q) (buffering : bool) : Component :=
  {| isReady := true; currentTime := Some current;
     localBuffering := buffering; isSeeking := false;
     showSyncIndicator := false |}.

Definition state_of (playing : bool) (position : Q) (author : string)
    (stampedAt : Z) : VideoState :=
  {| isPlaying := playing; playedSeconds := position;
     url := "https://example.org/film.mp4"; lastUpdated := stampedAt;
     updatedBy := author; serverTimestamp := Some stampedAt;
     isBuffering := Some false; playbackRate := Some 1%Q |}.

Lemma sync_effect_seeks_witness :
  (adjustedTarget (state_of true (120 # 1) "alice" 1700000000000)
     1700000000400 == 1204 # 10)%Q
  ∧ sync_effect (ready_at 0 false)
      (Some (state_of true (120 # 1) "alice" 1700000000000)) "bob"
      1700000000400
    = [setShowSyncIndicator true; set_isSeeking true;
       seekTo (adjustedTarget (state_of true (120 # 1) "alice" 1700000000000)
                 1700000000400);
       setTimeout 1000].
Proof.
  pose proof (sync_effect_seeks (ready_at 0 false)
                (state_of true (120 # 1) "alice" 1700000000000) "bob"
                1700000000400 1700000000000 0 eq_refl eq_refl eq_refl)
    as (_ & _ & Hscenario & Hseek & _); [discriminate|].
  split.
  - apply Hscenario; reflexivity.
  - apply Hseek. split; [left; discriminate|reflexivity].
Defined.

(** C2 as the design document words it does not hold: a state written by
    the local user, playing, stamped two seconds ago, finds the player 2.1 s
    past [playedSeconds]; that is more than 2 s, and yet the effect does not
    seek, the player being 0.1 s from the adjusted target. *)
Lemma sync_effect_large_raw_drift_no_seek :
  updatedBy (state_of true (100 # 1) "me" 1700000000000) = "me"
  ∧ (2 < Qabs ((1021 # 10)
               - playedSeconds (state_of true (100 # 1) "me" 1700000000000)))%Q
  ∧ sync_effect (ready_at (1021 # 10) false)
      (Some (state_of true (100 # 1) "me" 1700000000000)) "me" 1700000002000
    = [].
Proof. split; [reflexivity|]. split; reflexivity. Qed.

(** *** Buffering *)

Definition with_buffering (c : Component) (b : bool) : Component :=
  {| isReady := isReady c; currentTime := currentTime c;
     localBuffering := b; isSeeking := isSeeking c;
     showSyncIndicator := showSyncIndicator c |}.

(** The effect does not read [localBuffering]. *)
Lemma sync_effect_ignores_buffering c b videoState userId now :
  sync_effect (with_buffering c b) videoState userId now
  = sync_effect c videoState userId now.
Proof. reflexivity. Qed.

(** C8, at an input where the code departs from it.  The player is ready,
    at 0 s, and buffering; a state written by another user, paused at 120 s,
    arrives: the effect seeks to 120 s. *)
Theorem sync_effect_seeks_while_buffering :
  localBuffering (ready_at 0 true) = true
  ∧ sync_effect (ready_at 0 true)
      (Some (state_of false (120 # 1) "alice" 1700000000000)) "bob"
      1700000000400
    = [setShowSyncIndicator true; set_isSeeking true; seekTo (120 # 1);
       setTimeout 1000].
Proof. split; reflexivity. Qed.

End VideoPlayerSpec.

(** ** The reconnect timers *)

Module WebRTCSpec.
Import WebRTC.

(** *** What holds of the timers at any time *)

(** Handles are unique and below the next one to be given, and a pending
    reconnect timer is the one recorded for its peer. *)
Record inv (st : hook) : Prop := {
  inv_unique : NoDup (handle <$> pending st);
  inv_below : Forall (λ t, (handle t < nextHandle st)%positive) (pending st);
  inv_tracked :
    Forall (λ t, ∀ p, callback_of t = reconnect_later p →
                      reconnectTimeouts st !! p = Some (handle t))
      (pending st)
}.

Lemma inv_mounted : inv mounted.
Proof. split; simpl; constructor. Qed.

Lemma inv_frame st st' :
  pending st' = pending st → nextHandle st' = nextHandle st →
  reconnectTimeouts st' = reconnectTimeouts st →
  inv st → inv st'.
Proof. intros Hp Hn Hr [? ? ?]. split; by rewrite ?Hp, ?Hn, ?Hr. Qed.

Lemma inv_filter st (P : timer → Prop) `{∀ t, Decision (P t)} :
  inv st → inv (set_pending st (filter P (pending st))).
Proof.
  intros [Hu Hb Ht]. split; cbn [pending set_pending nextHandle
                                 reconnectTimeouts].
  - eapply sublist_NoDup; [exact Hu|]. apply fmap_sublist, sublist_filter.
  - rewrite Forall_forall in *. intros t [_ ?]%list_elem_of_filter. auto.
  - rewrite Forall_forall in *. intros t [_ ?]%list_elem_of_filter. auto.
Qed.

Lemma inv_clearTimeout st h : inv st → inv (clearTimeout st h).
Proof. apply inv_filter. Qed.

Lemma fresh_handle st :
  inv st → nextHandle st ∉ handle <$> pending st.
Proof.
  intros [_ Hb _] (t & Heq & Hin)%list_elem_of_fmap.
  rewrite Forall_forall in Hb. specialize (Hb t Hin). lia.
Qed.

Lemma inv_setTimeout_resume st p ms :
  inv st → inv (setTimeout st (reconnect_resume p) ms).1.
Proof.
  intros Hinv. pose proof (fresh_handle st Hinv) as Hfresh.
  destruct Hinv as [Hu Hb Ht].
  split; cbn [fst setTimeout pending nextHandle reconnectTimeouts].
  - rewrite fmap_app. apply NoDup_app. split; [done|]. split.
    + intros h Hh ->%list_elem_of_singleton. done.
    + apply NoDup_singleton.
  - apply Forall_app. split.
    + eapply Forall_impl; [exact Hb|]. intros t ?. simpl in *. lia.
    + apply Forall_singleton. simpl. lia.
  - apply Forall_app. split; [done|]. by apply Forall_singleton.
Qed.

(** Line 323: a timer is set and recorded for a peer that has none. *)
Definition schedule (st : hook) (p : string) : hook :=
  set_reconnectTimeouts (setTimeout st (reconnect_later p) 2000).1
    (<[p := nextHandle st]> (reconnectTimeouts st)).

Lemma inv_schedule st p :
  reconnectTimeouts st !! p = None → inv st → inv (schedule st p).
Proof.
  intros Hnone Hinv. pose proof (fresh_handle st Hinv) as Hfresh.
  destruct Hinv as [Hu Hb Ht].
  split; cbn [schedule set_reconnectTimeouts fst setTimeout pending
              nextHandle reconnectTimeouts].
  - rewrite fmap_app. apply NoDup_app. split; [done|]. split.
    + intros h Hh ->%list_elem_of_singleton. done.
    + apply NoDup_singleton.
  - apply Forall_app. split.
    + eapply Forall_impl; [exact Hb|]. intros t ?. simpl in *. lia.
    + apply Forall_singleton. simpl. lia.
  - apply Forall_app. split.
    + eapply Forall_impl; [exact Ht|]. intros t Htr q Hq. simpl in *.
      rewrite lookup_insert_ne; [by apply Htr|].
      intros ->. rewrite (Htr q Hq) in Hnone. done.
    + apply Forall_singleton. intros q [= <-]. simpl.
      apply lookup_insert_eq.
Qed.

Lemma inv_cleanupPeerConnection st p :
  inv st → inv (cleanupPeerConnection st p).
Proof.
  unfold cleanupPeerConnection.
  destruct (JsObject.get _ _); [|done]. by apply inv_frame.
Qed.

Lemma inv_createPeerConnection st p :
  inv st → inv (createPeerConnection st p).
Proof.
  intros Hinv. unfold createPeerConnection.
  destruct (JsObject.get _ _) as [[]|]; try done.
  all: apply (inv_frame st); try done.
  all: unfold cleanupPeerConnection; by destruct (JsObject.get _ _).
Qed.

Lemma inv_startCall st p : inv st → inv (startCall st p).
Proof.
  unfold startCall. destruct (localStream st); [|done].
  apply inv_createPeerConnection.
Qed.

(** Lines 292-295. *)
Definition untrack (st : hook) (p : string) : hook :=
  match reconnectTimeouts st !! p with
  | Some h =>
      set_reconnectTimeouts (clearTimeout st h)
        (delete p (reconnectTimeouts st))
  | None => st
  end.

Lemma inv_untrack st p : inv st → inv (untrack st p).
Proof.
  intros Hinv. unfold untrack.
  destruct (reconnectTimeouts st !! p) as [h|] eqn:Hp; [|done].
  pose proof (inv_clearTimeout st h Hinv) as [Hu Hb _].
  destruct Hinv as [_ _ Ht].
  split; cbn [set_reconnectTimeouts pending nextHandle reconnectTimeouts];
    [done|done|].
  cbn [clearTimeout set_pending pending].
  rewrite Forall_forall in *. intros t [Hne Hin]%list_elem_of_filter q Hq.
  specialize (Ht t Hin q Hq).
  rewrite lookup_delete_ne; [done|]. intros ->. congruence.
Qed.

Lemma reconnectPeer_eq st p :
  reconnectPeer st p
  = (setTimeout (cleanupPeerConnection (untrack st p) p)
       (reconnect_resume p) 500).1.
Proof. reflexivity. Qed.

Lemma inv_reconnectPeer st p : inv st → inv (reconnectPeer st p).
Proof.
  intros Hinv. rewrite reconnectPeer_eq.
  by apply inv_setTimeout_resume, inv_cleanupPeerConnection, inv_untrack.
Qed.

Lemma check_peer_cases st entry :
  check_peer st entry = st
  ∨ (needs_reconnect entry.2 = true
     ∧ reconnectTimeouts st !! entry.1 = None
     ∧ check_peer st entry = schedule st entry.1).
Proof.
  unfold check_peer. destruct (needs_reconnect entry.2); [|by left].
  destruct (reconnectTimeouts st !! entry.1) eqn:E; [by left|].
  right. done.
Qed.

Lemma inv_check_peer st entry : inv st → inv (check_peer st entry).
Proof.
  intros Hinv.
  destruct (check_peer_cases st entry) as [->|(_ & Hnone & ->)]; [done|].
  by apply inv_schedule.
Qed.

Lemma inv_foldl_check_peer entries :
  ∀ st, inv st → inv (foldl check_peer st entries).
Proof.
  induction entries as [|entry entries IH]; intros st Hinv; [done|].
  simpl. by apply IH, inv_check_peer.
Qed.

Lemma inv_health_check st : inv st → inv (health_check st).
Proof.
  intros Hinv. unfold health_check. destruct (isPageVisible st); [|done].
  by apply inv_foldl_check_peer.
Qed.

Lemma inv_fire userId st h : inv st → inv (fire userId st h).
Proof.
  intros Hinv. unfold fire. destruct (List.find _ _) as [t|]; [|done].
  pose proof (inv_clearTimeout st h Hinv) as Hinv1.
  destruct (callback_of t) as [p|p].
  - by apply inv_reconnectPeer.
  - unfold resume_reconnectPeer. destruct (String.ltb userId p); [|done].
    by apply inv_startCall.
Qed.

Lemma inv_connection_state_change st p s :
  inv st → inv (connection_state_change st p s).
Proof.
  intros Hinv. unfold connection_state_change.
  destruct (JsObject.get _ _); [|done].
  destruct s; try (by apply (inv_frame st)).
  all: by apply inv_cleanupPeerConnection, (inv_frame st).
Qed.

Lemma inv_step userId st ev : inv st → inv (step userId st ev).
Proof.
  intros Hinv. destruct ev; cbn [step].
  - by apply inv_health_check.
  - by apply inv_fire.
  - by apply (inv_frame st).
  - by apply inv_reconnectPeer.
  - by apply inv_connection_state_change.
  - by apply inv_createPeerConnection.
  - by apply inv_startCall.
  - by apply inv_cleanupPeerConnection.
  - by apply (inv_frame st).
  - by apply inv_filter.
Qed.

Lemma reachable_inv userId st : reachable userId st → inv st.
Proof.
  induction 1 as [|st ev _ IH]; [apply inv_mounted|by apply inv_step].
Qed.

(** *** The health check and the reconnect timers *)

Definition reconnect_timer (h : positive) (p : string) : timer :=
  {| handle := h; delay := 2000; callback_of := reconnect_later p |}.

Lemma pending_reconnects_tracked st p t :
  inv st → t ∈ pending_reconnects st p →
  reconnectTimeouts st !! p = Some (handle t).
Proof.
  intros [_ _ Ht] [Hcb Hin]%list_elem_of_filter.
  rewrite Forall_forall in Ht. by apply Ht.
Qed.

Lemma pending_reconnects_at_most_one st p :
  inv st → (length (pending_reconnects st p) ≤ 1)%nat.
Proof.
  intros Hinv.
  assert (Hu : NoDup (handle <$> pending_reconnects st p)).
  { eapply sublist_NoDup; [apply (inv_unique st Hinv)|].
    apply fmap_sublist, sublist_filter. }
  pose proof (pending_reconnects_tracked st p) as Ht.
  destruct (pending_reconnects st p) as [|a [|b l]]; simpl; [lia|lia|].
  exfalso.
  assert (Ha : reconnectTimeouts st !! p = Some (handle a)).
  { apply Ht; [done|]. left. }
  assert (Hb : reconnectTimeouts st !! p = Some (handle b)).
  { apply Ht; [done|]. right. left. }
  rewrite !fmap_cons in Hu. apply NoDup_cons in Hu as [Hnin _].
  apply Hnin. replace (handle a) with (handle b) by congruence. left.
Qed.

Lemma untracked_none_pending st p :
  inv st → reconnectTimeouts st !! p = None → pending_reconnects st p = [].
Proof.
  intros Hinv Hnone.
  destruct (pending_reconnects st p) as [|t l] eqn:E; [done|].
  assert (Hin : t ∈ pending_reconnects st p) by (rewrite E; left).
  apply (pending_reconnects_tracked st p t Hinv) in Hin. congruence.
Qed.

Lemma pending_reconnects_schedule st p q :
  pending_reconnects (schedule st q) p
  = pending_reconnects st p
    ++ (if decide (q = p) then [reconnect_timer (nextHandle st) q] else []).
Proof.
  unfold pending_reconnects, schedule.
  cbn [set_reconnectTimeouts fst setTimeout pending].
  rewrite filter_app. f_equal. rewrite filter_cons, filter_nil. simpl.
  destruct (decide (q = p)) as [->|Hne].
  - by rewrite decide_True.
  - rewrite decide_False; [done|]. by intros [= ?].
Qed.

Lemma check_peer_other st entry p :
  entry.1 ≠ p →
  pending_reconnects (check_peer st entry) p = pending_reconnects st p
  ∧ reconnectTimeouts (check_peer st entry) !! p = reconnectTimeouts st !! p.
Proof.
  intros Hne.
  destruct (check_peer_cases st entry) as [->|(_ & _ & ->)]; [done|].
  rewrite pending_reconnects_schedule, decide_False, app_nil_r by done.
  split; [done|]. unfold schedule. cbn [set_reconnectTimeouts reconnectTimeouts].
  by rewrite lookup_insert_ne.
Qed.

Lemma check_peer_recorded st entry :
  is_Some (reconnectTimeouts st !! entry.1) → check_peer st entry = st.
Proof.
  intros [h Hh].
  destruct (check_peer_cases st entry) as [->|(_ & Hnone & _)]; [done|].
  congruence.
Qed.

(** With a timer recorded for the peer, the check leaves the peer alone. *)
Lemma foldl_check_peer_recorded p entries :
  ∀ st,
    is_Some (reconnectTimeouts st !! p) →
    pending_reconnects (foldl check_peer st entries) p
    = pending_reconnects st p
    ∧ reconnectTimeouts (foldl check_peer st entries) !! p
      = reconnectTimeouts st !! p.
Proof.
  induction entries as [|entry entries IH]; intros st Hrec; [done|].
  cbn [foldl]. destruct (decide (entry.1 = p)) as [Heq|Hne].
  - rewrite check_peer_recorded by (by rewrite Heq). by apply IH.
  - destruct (check_peer_other st entry p Hne) as [Hp Hr].
    destruct (IH (check_peer st entry)) as [Hp' Hr']; [by rewrite Hr|].
    split; congruence.
Qed.

(** With none recorded, the check sets exactly one for a peer whose
    connection it finds failed or disconnected. *)
Lemma foldl_check_peer_schedules p s entries :
  ∀ st,
    inv st →
    reconnectTimeouts st !! p = None →
    (p, s) ∈ entries →
    needs_reconnect s = true →
    ∃ h,
      pending_reconnects (foldl check_peer st entries) p
      = [reconnect_timer h p]
      ∧ reconnectTimeouts (foldl check_peer st entries) !! p = Some h.
Proof.
  induction entries as [|entry entries IH];
    intros st Hinv Hnone Hin Hneeds; [by apply elem_of_nil in Hin|].
  cbn [foldl]. destruct (decide (entry.1 = p)) as [Heq|Hne].
  - destruct (check_peer_cases st entry) as [Hsame|(_ & _ & Hsched)].
    + rewrite Hsame. apply IH; try done.
      apply elem_of_cons in Hin as [Hentry|Hin]; [|done]. exfalso.
      subst entry. revert Hsame. unfold check_peer. cbn [fst snd].
      rewrite Hneeds, Hnone. intros Hsame.
      apply (f_equal nextHandle) in Hsame. simpl in Hsame. lia.
    + rewrite Hsched, Heq.
      destruct (foldl_check_peer_recorded p entries (schedule st p))
        as [Hp Hr].
      { unfold schedule. cbn [set_reconnectTimeouts reconnectTimeouts].
        rewrite lookup_insert_eq. eauto. }
      exists (nextHandle st). rewrite Hp, Hr.
      rewrite pending_reconnects_schedule, decide_True by done.
      rewrite untracked_none_pending by done.
      split; [done|]. unfold schedule.
      cbn [set_reconnectTimeouts reconnectTimeouts]. apply lookup_insert_eq.
  - destruct (check_peer_other st entry p Hne) as [Hp Hr].
    apply IH; [by apply inv_check_peer|congruence| |done].
    apply elem_of_cons in Hin as [Hentry|Hin]; [|done].
    subst entry. done.
Qed.

Lemma isPageVisible_foldl_check_peer entries :
  ∀ st, isPageVisible (foldl check_peer st entries) = isPageVisible st.
Proof.
  induction entries as [|entry entries IH]; intros st; [done|].
  cbn [foldl]. rewrite IH.
  by destruct (check_peer_cases st entry) as [->|(_ & _ & ->)].
Qed.

Lemma health_check_recorded st p :
  is_Some (reconnectTimeouts st !! p) →
  pending_reconnects (health_check st) p = pending_reconnects st p
  ∧ reconnectTimeouts (health_check st) !! p = reconnectTimeouts st !! p.
Proof.
  intros Hrec. unfold health_check. destruct (isPageVisible st); [|done].
  by apply foldl_check_peer_recorded.
Qed.

(** C7, as the code has it.  At any time at most one reconnect timer is
    pending for a peer.  A tick of the health check sets no timer for a peer
    for which one is pending.  With the page visible, for a peer whose
    connection it finds failed or disconnected and for which no timer is
    recorded in [reconnectTimeouts], it sets exactly one, of 2000 ms; a
    second tick, the timer not having fired in between, sets no other: the
    same single timer is pending after both.  With the page hidden a tick
    does nothing. *)
Theorem reconnect_timers (userId : string) (st : hook)
    (Hreach : reachable userId st) :
  (∀ p, (length (pending_reconnects st p) ≤ 1)%nat)
  ∧ (∀ p,
       pending_reconnects st p ≠ [] →
       pending_reconnects (health_check st) p = pending_reconnects st p)
  ∧ (∀ p s,
       isPageVisible st = true →
       JsObject.get (peerConnections st) p = Some s →
       s = failed ∨ s = disconnected →
       reconnectTimeouts st !! p = None →
       ∃ h,
         pending_reconnects st p = []
         ∧ pending_reconnects (health_check st) p = [reconnect_timer h p]
         ∧ pending_reconnects (health_check (health_check st)) p
           = [reconnect_timer h p])
  ∧ (isPageVisible st = false → health_check st = st).
Proof.
  pose proof (reachable_inv userId st Hreach) as Hinv.
  split_and!.
  - intros p. by apply pending_reconnects_at_most_one.
  - intros p Hsome. apply health_check_recorded.
    destruct (pending_reconnects st p) as [|t l] eqn:E; [done|].
    exists (handle t). apply pending_reconnects_tracked; [done|].
    rewrite E. left.
  - intros p s Hvis Hget Hbad Hnone.
    assert (Hneeds : needs_reconnect s = true) by by destruct Hbad as [->| ->].
    destruct (foldl_check_peer_schedules p s
                (JsObject.entries (peerConnections st)) st Hinv Hnone)
      as (h & Hp & Hr); [by apply JsObjectFacts.elem_of_entries|done|].
    exists h. split; [by apply untracked_none_pending|].
    assert (Hone : pending_reconnects (health_check st) p
                   = [reconnect_timer h p]).
    { unfold health_check. by rewrite Hvis. }
    split; [done|].
    destruct (health_check_recorded (health_check st) p) as [Hp2 _].
    { unfold health_check at 1. rewrite Hvis, Hr. eauto. }
    by rewrite Hp2.
  - intros Hhidden. unfold health_check. by rewrite Hhidden.
Qed.

Definition run (userId : string) (st : hook) (evs : list event) : hook :=
  foldl (step userId) st evs.

Lemma reachable_run userId evs :
  ∀ st, reachable userId st → reachable userId (run userId st evs).
Proof.
  induction evs as [|ev evs IH]; intros st Hst; [done|].
  apply IH. by apply reachable_step.
Qed.

(** "alice" holds a connection to "bob", which has become disconnected. *)
Definition bob_disconnected : hook :=
  run "alice" mounted
    [MediaInitialized; OfferReceived "bob";
     ConnectionStateChange "bob" connected;
     ConnectionStateChange "bob" disconnected].

Lemma reconnect_timers_witness :
  ∃ h,
    pending_reconnects bob_disconnected "bob" = []
    ∧ pending_reconnects (health_check bob_disconnected) "bob"
      = [reconnect_timer h "bob"]
    ∧ pending_reconnects (health_check (health_check bob_disconnected)) "bob"
      = [reconnect_timer h "bob"].
Proof.
  destruct (reconnect_timers "alice" bob_disconnected
              (reachable_run "alice" _ mounted (reachable_mounted "alice")))
    as (_ & _ & Hsets & _).
  apply (Hsets "bob" disconnected); [reflexivity|reflexivity| |reflexivity].
  by right.
Defined.

(** The page is hidden. *)
Definition bob_hidden : hook :=
  step "alice" bob_disconnected (VisibilityChange false).

(** A tick has set the timer, and the cleanup of the visibility effect has
    run since: the timer is cleared and its record kept (lines 399-403;
    [reconnectPeer], lines 292-295, deletes the record as well). *)
Definition bob_stale : hook :=
  run "alice" bob_disconnected [Tick; EffectCleanup].

(** C7 as the design document words it does not hold.  With the page
    hidden, a tick finds no timer pending for a peer whose connection is
    disconnected, and sets none.  With the page visible, the same happens
    when the record of a timer that is no longer pending has been left
    behind. *)
Lemma health_check_sets_no_timer :
  (reachable "alice" bob_hidden
   ∧ isPageVisible bob_hidden = false
   ∧ JsObject.get (peerConnections bob_hidden) "bob" = Some disconnected
   ∧ pending_reconnects bob_hidden "bob" = []
   ∧ pending_reconnects (step "alice" bob_hidden Tick) "bob" = [])
  ∧ (reachable "alice" bob_stale
     ∧ isPageVisible bob_stale = true
     ∧ JsObject.get (peerConnections bob_stale) "bob" = Some disconnected
     ∧ pending_reconnects bob_stale "bob" = []
     ∧ reconnectTimeouts bob_stale !! "bob" = Some 1%positive
     ∧ pending_reconnects (step "alice" bob_stale Tick) "bob" = []).
Proof.
  split; (split; [|done]).
  - apply reachable_step.
    apply (reachable_run "alice" _ mounted (reachable_mounted "alice")).
  - apply reachable_run.
    apply (reachable_run "alice" _ mounted (reachable_mounted "alice")).
Qed.

End WebRTCSpec.

(** ** More about the Session Store *)

Module ServerExtra.
Import Server ServerSpec.

(** *** Servers whose prototypes are as at the start *)

(** Three events write where the store does not reach: [join-room] with
    the user id [__proto__] replaces the prototype of [users] (line 158);
    [position-report] with that user id, in a room whose [users] has its
    own prototype still, puts [connectionQuality] onto [Object.prototype]
    (line 216); [video-state] for a room id that names a member of
    [Object.prototype] puts [videoState] onto that member (line 186).
    After them a key may read as something that was never stored under it.
    The other events leave the prototypes as they are. *)
Definition clean (ev : event) : Prop :=
  match ev with
  | JoinRoom _ userId _ => userId ≠ "__proto__"
  | VideoStateEv roomId _ => JsObject.inherited roomId = false
  | PositionReport _ userId _ _ => userId ≠ "__proto__"
  | _ => True
  end.

(** The states of a server that has handled such events only since its
    start, no handler having thrown. *)
Definition served (st : state) : Prop :=
  ∃ evs effs,
    Forall (λ e : string * Clock * event, clean e.2) evs
    ∧ run initial evs = Some (st, effs).

Lemma served_initial : served initial.
Proof. by exists [], []. Qed.

(** The events that made [demo_room], [playing_room] and [three_members]. *)
Definition alice_joins : string * Clock * event :=
  ("s1", demo_clock, JoinRoom "r" "alice" "Alice").

Definition bob_joins : string * Clock * event :=
  ("s2", demo_clock, JoinRoom "r" "bob" "Bob").

Definition carol_joins : string * Clock * event :=
  ("s3", demo_clock, JoinRoom "r" "carol" "Carol").

Definition alice_plays_film : string * Clock * event :=
  ("s1", demo_clock,
   VideoStateEv "r"
     {| patch_isPlaying := Some true; patch_playedSeconds := Some (120 # 1);
        patch_url := Some "https://example.org/film.mp4";
        patch_lastUpdated := None; patch_updatedBy := Some "alice";
        patch_serverTimestamp := None; patch_isBuffering := None;
        patch_playbackRate := None; patch_extraFields := ∅ |}).

Lemma served_playing_room : served playing_room.
Proof.
  exists [alice_joins; bob_joins; alice_plays_film]. eexists.
  split; [|reflexivity]. repeat constructor; cbn; done.
Qed.

Lemma served_three_members : served three_members.
Proof.
  exists [alice_joins; bob_joins; carol_joins]. eexists.
  split; [|reflexivity]. repeat constructor; cbn; done.
Qed.

(** X23. On a server whose prototypes are as at the start, an event that
    names a room id for which no room is stored and that names no member of
    [Object.prototype] ([video-state], [position-report], [chat-message] or
    [signal]) leaves the whole state as it was: no room is created, nothing
    stored changes and nothing is emitted.  A [signal] for such a room id,
    or for a user id that an existing room has nothing for and that names
    no such member either, produces a [console.warn] and nothing else. *)
Theorem undefined_room_is_noop (st : state) (sid : string) (clk : Clock)
    (roomId : string) (Hserved : served st)
    (Habsent : rooms st !! roomId = None)
    (Hplain : JsObject.inherited roomId = false) :
  (∀ patch,
     handle st sid clk (VideoStateEv roomId patch) = Some (st, []))
  ∧ (∀ userId p b,
       handle st sid clk (PositionReport roomId userId p b) = Some (st, []))
  ∧ (∀ message,
       handle st sid clk (ChatMessage roomId message) = Some (st, []))
  ∧ (∀ to sig,
       handle st sid clk (SignalEv roomId to sig)
       = Some (st, [not_found to roomId]))
  ∧ (∀ roomId' room to sig,
       rooms st !! roomId' = Some room →
       JsObject.get (users room) to = None →
       JsObject.inherited to = false →
       handle st sid clk (SignalEv roomId' to sig)
       = Some (st, [not_found to roomId'])).
Proof.
  pose proof (names_member_plain st roomId Hplain) as Hguard.
  repeat split; intros; cbn [handle]; rewrite ?Hguard.
  - by rewrite video_state_absent.
  - by apply position_report_absent.
  - by rewrite chat_message_absent.
  - by rewrite signal_absent.
  - erewrite names_member_stored by done. by erewrite signal_absent_target.
Qed.

Lemma undefined_room_is_noop_witness :
  handle initial "s1" demo_clock
    (ChatMessage "nowhere" {[ "message" := JStr "hello" ]})
  = Some (initial, []).
Proof.
  apply (undefined_room_is_noop initial "s1" demo_clock "nowhere");
    [apply served_initial|reflexivity..].
Defined.

(** X25. On a server whose prototypes are as at the start, a position
    report of a user of an existing room, whose entry holds a socket id,
    makes the server send a [sync-correction] exactly when
    the drift, the distance between the reported and the stored position,
    exceeds 0.3 while the stored state is playing and the report is not
    flagged as buffering.  The correction is the only thing emitted; it is
    addressed with [io.to] to the socket id stored for that user, and carries
    the stored position, the stored [isPlaying], the clock reading taken
    when it is sent, the drift and the quality level just computed for the
    user.  In every other case nothing is emitted. *)
Theorem position_report_correction (st : state) (sid : string)
    (clk : Clock) (roomId userId : string) (reported : Q) (buffering : bool)
    (room : Room) (u : User)
    (Hserved : served st)
    (Hroom : rooms st !! roomId = Some room)
    (Huser : JsObject.get (users room) userId = Some u)
    (Hendpoint : socketId u ≠ EmptyString) :
  let stored := videoState room in
  let drift := Qabs (reported - playedSeconds stored) in
  ∃ st' effs room' u' q,
    handle st sid clk (PositionReport roomId userId reported buffering)
    = Some (st', effs)
    ∧ rooms st' !! roomId = Some room'
    ∧ JsObject.get (users room') userId = Some u'
    ∧ socketId u' = socketId u
    ∧ connectionQuality u' = Some q
    ∧ videoState room' = stored
    ∧ (needs_correction stored drift buffering →
         effs = [Emit (io_to (socketId u))
                   (sync_correction (playedSeconds stored) (isPlaying stored)
                      (clk 1%nat) drift (quality q))])
    ∧ (¬ needs_correction stored drift buffering → effs = [])
    ∧ (∀ t m, Emit t m ∈ effs →
         t = io_to (socketId u) ∧ needs_correction stored drift buffering).
Proof.
  intros stored drift. cbn [handle].
  rewrite (names_member_stored st roomId room Hroom). unfold position_report.
  rewrite Hroom, Huser. fold stored. unfold report_drift. fold drift.
  set (q := record_drift _ drift _).
  set (u' := set_connectionQuality u q).
  set (room' := set_users room _).
  eexists _, _, room', u', q. split; [reflexivity|].
  cbn [rooms set_rooms]. rewrite lookup_insert_eq.
  split; [done|]. split; [apply JsObjectFacts.get_set_eq|].
  split; [done|]. split; [done|]. split; [done|].
  assert (Ht : truthy (socketId u') = true) by by apply truthy_true.
  rewrite Ht.
  destruct (Qgtb drift (3 # 10) && isPlaying stored && negb buffering)
    eqn:Htest.
  - apply needs_correction_test in Htest. split_and!; [done|done|].
    intros t m [= -> _]%list_elem_of_singleton. done.
  - assert (¬ needs_correction stored drift buffering) as Hno.
    { rewrite <- needs_correction_test, Htest. done. }
    split_and!; [done|done|]. by intros t m ?%elem_of_nil.
Qed.

Lemma position_report_correction_witness :
  ∃ st' q,
    handle playing_room "s2" demo_clock
      (PositionReport "r" "bob" (1255 # 10) false)
    = Some (st',
            [Emit (io_to "s2")
               (sync_correction (120 # 1) true 1700000000001
                  (Qabs ((1255 # 10) - (120 # 1))) (quality q))]).
Proof.
  destruct (position_report_correction playing_room "s2" demo_clock "r" "bob"
              (1255 # 10) false
              (set_videoState
                 (set_users (new_room demo_clock "alice")
                    [("alice", entry_of "s1" "alice" "Alice");
                     ("bob", entry_of "s2" "bob" "Bob")])
                 (merge_video_state (videoState (new_room demo_clock "alice"))
                    {| patch_isPlaying := Some true;
                       patch_playedSeconds := Some (120 # 1);
                       patch_url := Some "https://example.org/film.mp4";
                       patch_lastUpdated := None;
                       patch_updatedBy := Some "alice";
                       patch_serverTimestamp := None;
                       patch_isBuffering := None;
                       patch_playbackRate := None;
                       patch_extraFields := ∅ |}
                    1700000000000))
              (entry_of "s2" "bob" "Bob") served_playing_room eq_refl
              eq_refl)
    as (st' & effs & room' & u' & q & Hrun & _ & _ & _ & _ & _ & Hyes & _).
  { simpl. discriminate. }
  exists st', q. rewrite Hrun. f_equal. f_equal. apply Hyes.
  split; [reflexivity|]. split; reflexivity.
Defined.

(** *** Events that leave the rosters alone *)

(** Every event but [join-room] and [disconnecting]. *)
Definition quiet (ev : event) : Prop :=
  match ev with
  | JoinRoom _ _ _ | Disconnecting => False
  | _ => True
  end.

Definition is_chat (ev : event) : bool :=
  match ev with ChatMessage _ _ => true | _ => false end.

Definition is_video_state (ev : event) : bool :=
  match ev with VideoStateEv _ _ => true | _ => false end.

(** The same user, up to [connectionQuality]. *)
Definition same_member (u u' : User) : Prop :=
  id u' = id u ∧ username u' = username u ∧ socketId u' = socketId u.

(** The same users in the same order, the same host. *)
Definition same_roster (room room' : Room) : Prop :=
  (users room').*1 = (users room).*1
  ∧ (∀ k, option_Forall2 same_member
            (JsObject.get (users room) k) (JsObject.get (users room') k))
  ∧ hostId room' = hostId room
  ∧ createdAt room' = createdAt room.

Lemma same_member_refl u : same_member u u.
Proof. done. Qed.

Lemma same_roster_refl room : same_roster room room.
Proof.
  split_and!; try done. intros k.
  destruct (JsObject.get (users room) k); constructor. done.
Qed.

Lemma same_roster_same_users room room' :
  users room' = users room → hostId room' = hostId room →
  createdAt room' = createdAt room → same_roster room room'.
Proof.
  intros Hu Hh Hc. split_and!; try congruence. intros k. rewrite Hu.
  destruct (JsObject.get (users room) k); constructor. done.
Qed.

Lemma same_roster_trans room1 room2 room3 :
  same_roster room1 room2 → same_roster room2 room3 → same_roster room1 room3.
Proof.
  intros (Hk1 & Hu1 & Hh1 & Hc1) (Hk2 & Hu2 & Hh2 & Hc2).
  split_and!; try congruence. intros k.
  specialize (Hu1 k). specialize (Hu2 k).
  destruct Hu1 as [u1 u2 (? & ? & ?)|]; inversion Hu2 as [? u3 (? & ? & ?)|];
    subst; constructor.
  split_and!; congruence.
Qed.

Lemma same_roster_set_user room userId u u' :
  JsObject.get (users room) userId = Some u →
  same_member u u' →
  same_roster room (set_users room (JsObject.set (users room) userId u')).
Proof.
  intros Hget Hsame. split_and!; cbn [users set_users hostId createdAt];
    try done.
  - rewrite JsObjectFacts.keys_set.
    assert (Hin : JsObject.has (users room) userId = true).
    { apply JsObjectFacts.has_true, JsObjectFacts.get_is_Some. eauto. }
    by rewrite Hin.
  - intros k. destruct (decide (k = userId)) as [->|Hne].
    + rewrite JsObjectFacts.get_set_eq, Hget. by constructor.
    + rewrite JsObjectFacts.get_set_ne by done.
      destruct (JsObject.get (users room) k); constructor. done.
Qed.

(** All rooms of [st] are found again in [st'], related by [R]. *)
Definition rooms_related (R : Room → Room → Prop) (st st' : state) : Prop :=
  ∀ r, option_Forall2 R (rooms st !! r) (rooms st' !! r).

Lemma rooms_related_refl (R : Room → Room → Prop) st :
  (∀ room, R room room) → rooms_related R st st.
Proof. intros HR r. destruct (rooms st !! r); constructor. done. Qed.

Lemma rooms_related_insert (R : Room → Room → Prop) st r0 room0 room0' :
  (∀ room, R room room) →
  rooms st !! r0 = Some room0 → R room0 room0' →
  rooms_related R st (set_rooms st (<[r0 := room0']> (rooms st))).
Proof.
  intros HR Hr0 H0 r. cbn [rooms set_rooms].
  destruct (decide (r = r0)) as [->|Hne].
  - rewrite lookup_insert_eq, Hr0. by constructor.
  - rewrite lookup_insert_ne by done.
    destruct (rooms st !! r); constructor. done.
Qed.

(** What an event may change in a room, by its kind. *)
Definition kept_by (ev : event) (room room' : Room) : Prop :=
  same_roster room room'
  ∧ (is_chat ev = false → messages room' = messages room)
  ∧ (is_video_state ev = false → videoState room' = videoState room).

Lemma kept_by_refl ev room : kept_by ev room room.
Proof. split; [apply same_roster_refl|done]. Qed.

Lemma quiet_step st sid clk ev st' effs :
  quiet ev →
  handle st sid clk ev = Some (st', effs) →
  socketRooms st' = socketRooms st ∧ rooms_related (kept_by ev) st st'.
Proof.
  intros Hquiet Hstep.
  pose proof (rooms_related_refl (kept_by ev) st (kept_by_refl ev)) as Hrefl.
  destruct ev as [roomId userId uname|roomId patch|roomId userId p b
                 |roomId userId b|roomId message|roomId to sig|];
    try done; cbn [handle] in Hstep.
  - destruct (names_member st roomId).
    { unfold video_state_on_member in Hstep.
      destruct (patch_playedSeconds patch); [|done].
      by injection Hstep as <- <-. }
    unfold video_state in Hstep.
    destruct (rooms st !! roomId) as [room|] eqn:Hroom;
      injection Hstep as <- <-; [|done].
    split; [done|].
    apply (rooms_related_insert _ _ _ room); [apply kept_by_refl|done|].
    split; [by apply same_roster_same_users|done].
  - apply guarded_Some in Hstep as [_ Hstep].
    unfold position_report in Hstep.
    destruct (rooms st !! roomId) as [room|] eqn:Hroom;
      [|by injection Hstep as <- <-].
    destruct (JsObject.get (users room) userId) as [u|] eqn:Hu;
      [|by destruct (JsObject.inherited userId); [injection Hstep as <- <-|]].
    injection Hstep as <- <-. split; [done|].
    apply (rooms_related_insert _ _ _ room); [apply kept_by_refl|done|].
    split; [|done]. by apply (same_roster_set_user room userId u).
  - apply guarded_Some in Hstep as [_ Hstep].
    unfold buffer_state in Hstep.
    destruct (rooms st !! roomId) as [room|];
      [|by injection Hstep as <- <-].
    by destruct (JsObject.get (users room) userId);
      [|destruct (JsObject.inherited userId)]; injection Hstep as <- <-.
  - apply guarded_Some in Hstep as [_ Hstep].
    unfold chat_message in Hstep.
    destruct (rooms st !! roomId) as [room|] eqn:Hroom;
      injection Hstep as <- <-; [|done].
    split; [done|].
    apply (rooms_related_insert _ _ _ room); [apply kept_by_refl|done|].
    split; [by apply same_roster_same_users|done].
  - apply guarded_Some in Hstep as [_ Hstep].
    unfold signal in Hstep.
    destruct (rooms st !! roomId) as [room|];
      [|by injection Hstep as <- <-].
    by destruct (JsObject.get (users room) to);
      [|destruct (JsObject.inherited to)]; injection Hstep as <- <-.
Qed.

(** X1. An event other than [join-room] and [disconnecting] creates and
    deletes no room, adds and removes no user, changes no user's name or
    socket and no room's host, and does not touch [socket.rooms]; only
    [chat-message] changes a chat log and only [video-state] a playback
    state. *)
Theorem quiet_event_keeps_rosters (st : state) (sid : string) (clk : Clock)
    (ev : event) (st' : state) (effs : list effect)
    (Hquiet : quiet ev)
    (Hstep : handle st sid clk ev = Some (st', effs)) :
  socketRooms st' = socketRooms st
  ∧ rooms_related (kept_by ev) st st'.
Proof. exact (quiet_step st sid clk ev st' effs Hquiet Hstep). Qed.

Lemma quiet_event_keeps_rosters_witness :
  socketRooms
    (chat_message playing_room demo_clock "r" {[ "message" := JStr "hi" ]}).1
  = socketRooms playing_room.
Proof.
  apply (quiet_event_keeps_rosters playing_room "s2" demo_clock
           (ChatMessage "r" {[ "message" := JStr "hi" ]}) _
           (chat_message playing_room demo_clock "r"
              {[ "message" := JStr "hi" ]}).2 I).
  reflexivity.
Defined.

Lemma rooms_related_trans (R : Room → Room → Prop) st1 st2 st3 :
  (∀ a b c, R a b → R b c → R a c) →
  rooms_related R st1 st2 → rooms_related R st2 st3 →
  rooms_related R st1 st3.
Proof.
  intros HR H12 H23 r. specialize (H12 r). specialize (H23 r).
  destruct H12; inversion H23; subst; constructor. eauto.
Qed.

Lemma rooms_related_impl (R R' : Room → Room → Prop) st st' :
  (∀ a b, R a b → R' a b) → rooms_related R st st' → rooms_related R' st st'.
Proof. intros HR H r. destruct (H r); constructor. auto. Qed.

(** Quiet events, one after the other. *)
Lemma run_quiet evs :
  ∀ st st' effs,
    Forall (λ e : string * Clock * event, quiet e.2) evs →
    run st evs = Some (st', effs) →
    socketRooms st' = socketRooms st ∧ rooms_related same_roster st st'.
Proof.
  induction evs as [|[[sid clk] ev] evs IH]; intros st st' effs Hq Hrun.
  - injection Hrun as <- <-. split; [done|].
    apply rooms_related_refl, same_roster_refl.
  - apply Forall_cons in Hq as [Hq1 Hq]. cbn [run] in Hrun.
    destruct (handle st sid clk ev) as [[st1 effs1]|] eqn:Hstep; [|done].
    destruct (run st1 evs) as [[st2 effs2]|] eqn:Hrest; [|done].
    injection Hrun as <- <-.
    destruct (quiet_step st sid clk ev st1 effs1 Hq1 Hstep) as [Hs1 Hr1].
    destruct (IH st1 st2 effs2 Hq Hrest) as [Hs2 Hr2].
    split; [congruence|].
    eapply rooms_related_trans; [apply same_roster_trans| |exact Hr2].
    eapply rooms_related_impl; [|exact Hr1]. by intros a b [? _].
Qed.

(** X2. A [signal] for a user goes to the socket of that user's latest
    join, and to no one else, whatever playback, chat, report, buffering or
    signalling traffic the server has handled since. *)
Theorem signal_reaches_latest_join (st : state) (sid : string) (clk : Clock)
    (roomId userId username : string)
    (evs : list (string * Clock * event)) (st' : state) (effs : list effect)
    (Hquiet : Forall (λ e : string * Clock * event, quiet e.2) evs)
    (Hrun : run (join_room st sid clk roomId userId username).1 evs
            = Some (st', effs)) :
  ∀ sig,
    signal st' roomId userId sig
    = (st', [Emit (io_to sid)
               (signal_msg (signal_from sig) (signal_type sig)
                  (signal_data sig))]).
Proof.
  intros sig.
  destruct (run_quiet evs _ _ _ Hquiet Hrun) as [_ Hrel].
  specialize (Hrel roomId). rewrite join_room_eq in Hrel.
  cbn [fst rooms set_rooms] in Hrel. rewrite lookup_insert_eq in Hrel.
  inversion Hrel as [room room' (_ & Husers & _) Heq1 Heq2|]; subst.
  specialize (Husers userId). unfold joined in Husers.
  cbn [users set_users] in Husers.
  rewrite JsObjectFacts.get_set_eq in Husers.
  inversion Husers as [u u' (_ & _ & Hsock) Heq3 Heq4|]; subst.
  unfold signal. rewrite <- Heq2, <- Heq4. by rewrite Hsock.
Qed.

Definition demo_traffic : list (string * Clock * event) :=
  [("s1", demo_clock, ChatMessage "r" {[ "message" := JStr "hi" ]});
   ("s2", demo_clock, PositionReport "r" "bob" (3 # 1) false);
   ("s1", demo_clock, BufferState "r" "alice" true)].

Definition after_traffic : state :=
  match
    run (join_room demo_room "s2" demo_clock "r" "bob" "Bob").1 demo_traffic
  with
  | Some (st, _) => st
  | None => initial
  end.

Lemma signal_reaches_latest_join_witness :
  signal after_traffic "r" "bob"
    {| signal_type := "offer"; signal_from := "alice";
       signal_data := JStr "sdp" |}
  = (after_traffic,
     [Emit (io_to "s2") (signal_msg "alice" "offer" (JStr "sdp"))]).
Proof.
  apply (signal_reaches_latest_join demo_room "s2" demo_clock "r" "bob" "Bob"
           demo_traffic after_traffic
           (default []
              (snd <$> run (join_room demo_room "s2" demo_clock "r" "bob"
                              "Bob").1 demo_traffic))).
  - repeat constructor.
  - reflexivity.
Defined.

(** *** Leaving *)

Lemma leaving_user_socket room sid userId :
  leaving_user room sid = Some userId →
  ∃ u, JsObject.get (users room) userId = Some u ∧ socketId u = sid.
Proof.
  unfold leaving_user.
  destruct (List.find _ _) as [k|] eqn:Hfind; [|done].
  destruct (truthy k); [|done]. intros [= <-].
  apply find_some in Hfind as [_ Hk].
  destruct (JsObject.get (users room) k) as [u|]; [|done].
  exists u. split; [done|]. by apply bool_decide_eq_true in Hk.
Qed.

Lemma leave_room_other sid st r st' effs r' :
  leave_room sid st r = Some (st', effs) → r' ≠ r →
  rooms st' !! r' = rooms st !! r'.
Proof.
  intros Hleave Hne.
  destruct (leave_room_cases sid st r st' effs Hleave)
    as [_ [Heq|(room & userId & _ & _ & [[_ Heq]|[_ [h Heq]]])]].
  - by rewrite Heq.
  - by rewrite Heq, lookup_delete_ne.
  - by rewrite Heq, lookup_insert_ne.
Qed.

Lemma leave_room_no_user sid st r st' effs room :
  leave_room sid st r = Some (st', effs) →
  rooms st !! r = Some room → leaving_user room sid = None → st' = st.
Proof.
  intros Hleave Hroom Hnone.
  destruct (leave_room_cases sid st r st' effs Hleave)
    as [_ [->|(room' & userId & Hroom' & Huser & _)]]; [done|].
  congruence.
Qed.

Lemma leave_rooms_frame sid roomIds :
  ∀ st st' effs,
    leave_rooms sid st roomIds = Some (st', effs) →
    socketRooms st' = socketRooms st
    ∧ (∀ r, r ∉ roomIds → rooms st' !! r = rooms st !! r)
    ∧ (∀ r room,
         rooms st !! r = Some room → leaving_user room sid = None →
         rooms st' !! r = Some room).
Proof.
  induction roomIds as [|r0 roomIds IH]; intros st st' effs Hleave.
  - by injection Hleave as <- <-.
  - cbn [leave_rooms] in Hleave.
    destruct (leave_room sid st r0) as [[st1 effs1]|] eqn:H1; [|done].
    destruct (leave_rooms sid st1 roomIds) as [[st2 effs2]|] eqn:H2; [|done].
    injection Hleave as <- <-.
    destruct (IH st1 st2 effs2 H2) as (Hs & Hout & Hnone).
    destruct (leave_room_cases sid st r0 st1 effs1 H1) as [Hs1 _].
    split_and!.
    + congruence.
    + intros r [Hne Hnin]%not_elem_of_cons.
      rewrite (Hout r Hnin). by apply (leave_room_other sid st r0 st1 effs1).
    + intros r room Hroom Hno. apply Hnone; [|done].
      destruct (decide (r = r0)) as [->|Hne].
      * by rewrite (leave_room_no_user sid st r0 st1 effs1 room).
      * by rewrite (leave_room_other sid st r0 st1 effs1 r).
Qed.

(** X3. When a socket goes, the rooms it never joined, and the rooms in
    which no user carries its id, are exactly what they were; so is the
    [socket.rooms] of every other socket. *)
Theorem disconnecting_touches_own_rooms (st : state) (sid : string)
    (st' : state) (effs : list effect)
    (Hgone : disconnecting st sid = Some (st', effs)) :
  (∀ r, r ∉ socket_rooms st sid → rooms st' !! r = rooms st !! r)
  ∧ (∀ r room,
       rooms st !! r = Some room → leaving_user room sid = None →
       rooms st' !! r = Some room)
  ∧ (∀ other, other ≠ sid →
       socketRooms st' !! other = socketRooms st !! other)
  ∧ socketRooms st' !! sid = None.
Proof.
  unfold disconnecting in Hgone.
  destruct (leave_rooms sid st (socket_rooms st sid)) as [[st1 effs1]|] eqn:H1;
    [|done].
  injection Hgone as <- <-.
  destruct (leave_rooms_frame sid _ st st1 effs1 H1) as (Hs & Hout & Hnone).
  cbn [rooms socketRooms]. split_and!; [done|done| |].
  - intros other Hne. by rewrite lookup_delete_ne, Hs.
  - apply lookup_delete_eq.
Qed.

Definition stranger_gone : state :=
  {| rooms := rooms three_members;
     socketRooms := delete "s9" (socketRooms three_members) |}.

Lemma disconnecting_touches_own_rooms_witness :
  rooms stranger_gone !! "r" = rooms three_members !! "r".
Proof.
  destruct (disconnecting_touches_own_rooms three_members "s9"
              stranger_gone [] eq_refl) as (Hout & _).
  apply Hout. by intros ?%list_elem_of_singleton.
Defined.

(** X4. On a server whose prototypes are as at the start, let a socket
    whose [socket.rooms] holds nothing yet join a room that does not exist,
    where
    - the room id is not the socket's id and names no member of
      [Object.prototype],
    - no room is stored under the socket's id, which names no member of
      [Object.prototype] either,
    - the user id is neither the empty string nor "__proto__".
    The [join-room] handler then runs to its end, and when the socket goes
    the [disconnecting] handler puts the server back in the state it was in
    before the join: the room is created and deleted again, and the two
    departure notices are all that is emitted at the disconnection. *)
Theorem join_then_disconnect (st : state) (sid : string) (clk clk' : Clock)
    (roomId userId username : string)
    (Hserved : served st)
    (Hnew : rooms st !! roomId = None)
    (Hroomid : JsObject.inherited roomId = false)
    (Hfresh : socketRooms st !! sid = None)
    (Hown : rooms st !! sid = None)
    (Hsid : JsObject.inherited sid = false)
    (Hne : sid ≠ roomId)
    (Hid : userId ≠ EmptyString)
    (Hproto : userId ≠ "__proto__") :
  handle st sid clk (JoinRoom roomId userId username)
  = Some (join_room st sid clk roomId userId username)
  ∧ handle (join_room st sid clk roomId userId username).1 sid clk'
      Disconnecting
    = Some (st,
            [Emit (io_to roomId) (user_disconnected userId);
             Emit (io_to roomId) (update_users [])]).
Proof.
  split.
  { cbn [handle]. by rewrite names_member_plain. }
  cbn [handle]. rewrite join_room_eq. cbn [fst].
  set (room := joined st sid clk roomId userId username).
  set (st1 := set_rooms (socket_join st sid roomId)
                (<[roomId := room]> (rooms st))).
  assert (Hrooms : socket_rooms st1 sid = [sid; roomId]).
  { unfold socket_rooms, st1, socket_join. cbn [socketRooms set_rooms].
    rewrite lookup_insert_eq. unfold socket_rooms. rewrite Hfresh.
    cbn [default]. rewrite bool_decide_eq_false_2; [done|].
    by intros ?%list_elem_of_singleton. }
  assert (Hroom : rooms st1 !! roomId = Some room).
  { unfold st1. cbn [rooms set_rooms]. apply lookup_insert_eq. }
  assert (Husers : users room = [(userId, entry_of sid userId username)]).
  { unfold room, joined. by rewrite Hnew. }
  assert (Hlisted : JsObject.enumerable (users room) = users room).
  { apply JsObjectFacts.enumerable_plain. rewrite Husers.
    by intros ?%list_elem_of_singleton. }
  assert (Hleaving : leaving_user room sid = Some userId).
  { unfold leaving_user. rewrite Hlisted. unfold JsObject.keys.
    rewrite Husers.
    cbn [fmap list_fmap fst]. rewrite own_keys_singleton.
    cbn [List.find JsObject.get]. rewrite decide_True by done.
    cbn [socketId entry_of]. rewrite bool_decide_eq_true_2 by done.
    by rewrite (proj2 (truthy_true userId) Hid). }
  assert (Hlast : remaining room userId = []).
  { unfold remaining. rewrite Husers. unfold JsObject.remove.
    rewrite filter_cons, filter_nil. cbn [fst].
    by rewrite decide_False by (by intros ?). }
  unfold disconnecting. rewrite Hrooms. cbn [leave_rooms].
  assert (Hself : leave_room sid st1 sid = Some (st1, [])).
  { unfold leave_room, st1. cbn [rooms set_rooms].
    by rewrite lookup_insert_ne, Hown, Hsid. }
  rewrite Hself.
  rewrite (leave_room_last st1 sid roomId room userId Hroom Hleaving Hlast).
  cbn [app]. f_equal. f_equal.
  unfold st1, socket_join. cbn [rooms socketRooms set_rooms].
  rewrite delete_insert_eq, delete_id by done.
  rewrite delete_insert_eq, delete_id by done.
  by destruct st.
Qed.

Lemma join_then_disconnect_witness :
  handle three_members "s4" demo_clock (JoinRoom "q" "dan" "Dan")
  = Some (join_room three_members "s4" demo_clock "q" "dan" "Dan")
  ∧ handle (join_room three_members "s4" demo_clock "q" "dan" "Dan").1 "s4"
      demo_clock Disconnecting
    = Some (three_members,
            [Emit (io_to "q") (user_disconnected "dan");
             Emit (io_to "q") (update_users [])]).
Proof.
  apply (join_then_disconnect three_members "s4" demo_clock demo_clock
           "q" "dan" "Dan"); [apply served_three_members|done..].
Defined.

(** X5. After a user whose id is not "__proto__" has joined again from
    another socket, the departure of the socket used before does not remove
    the user: the user is still in the room, with the new socket. *)
Theorem rejoin_survives_old_socket (st : state) (old new : string)
    (clk : Clock) (roomId userId username : string)
    (st' : state) (effs : list effect)
    (Hne : old ≠ new)
    (Hid : userId ≠ "__proto__")
    (Hgone : disconnecting (join_room st new clk roomId userId username).1 old
             = Some (st', effs)) :
  ∃ room u,
    rooms st' !! roomId = Some room
    ∧ JsObject.get (users room) userId = Some u
    ∧ socketId u = new.
Proof.
  set (holds := λ s : state,
         ∃ room u, rooms s !! roomId = Some room
                   ∧ JsObject.get (users room) userId = Some u
                   ∧ socketId u = new).
  assert (Hstep : ∀ s r s' e, holds s → leave_room old s r = Some (s', e) →
                              holds s').
  { intros s r s' e (room & u & Hroom & Hu & Hsock) Hleave.
    destruct (leave_room_cases old s r s' e Hleave)
      as [_ [->|(room0 & uid & Hroom0 & Huid & Hcases)]];
      [by exists room, u|].
    destruct (decide (r = roomId)) as [->|Hr]; cycle 1.
    { exists room, u. split; [|done]. rewrite <- Hroom.
      by apply (leave_room_other old s r s' e). }
    assert (room0 = room) as -> by congruence.
    assert (Hother : userId ≠ uid).
    { intros <-. apply leaving_user_socket in Huid as (u0 & Hu0 & Hs0).
      congruence. }
    assert (Hkept : JsObject.get (JsObject.remove (users room) uid) userId
                    = Some u) by by rewrite JsObjectFacts.get_remove_ne.
    destruct Hcases as [[Hempty _]|[_ [h Hrooms]]].
    - unfold remaining in Hempty.
      rewrite <- (JsObjectFacts.get_enumerable _ userId Hid), Hempty in Hkept.
      done.
    - eexists _, u. rewrite Hrooms, lookup_insert_eq. done. }
  assert (Hall : ∀ rs s s' e, holds s → leave_rooms old s rs = Some (s', e) →
                              holds s').
  { induction rs as [|r rs IH]; intros s s' e Hs Hl.
    - by injection Hl as <- <-.
    - cbn [leave_rooms] in Hl.
      destruct (leave_room old s r) as [[s1 e1]|] eqn:H1; [|done].
      destruct (leave_rooms old s1 rs) as [[s2 e2]|] eqn:H2; [|done].
      injection Hl as <- <-. eapply IH; [|exact H2]. by eapply Hstep. }
  unfold disconnecting in Hgone.
  destruct (leave_rooms old _ _) as [[s1 e1]|] eqn:H1; [|done].
  injection Hgone as <- <-. cbn [rooms].
  eapply Hall; [|exact H1].
  rewrite join_room_eq. cbn [fst]. eexists _, _.
  cbn [rooms set_rooms]. rewrite lookup_insert_eq. split; [done|].
  unfold joined. cbn [users set_users].
  by rewrite JsObjectFacts.get_set_eq.
Qed.

Definition alice_rejoined : state :=
  (join_room three_members "s7" demo_clock "r" "alice" "Alice").1.

Definition old_socket_gone : state * list effect :=
  default (initial, []) (disconnecting alice_rejoined "s1").

Lemma rejoin_survives_old_socket_witness :
  ∃ room u,
    rooms old_socket_gone.1 !! "r" = Some room
    ∧ JsObject.get (users room) "alice" = Some u
    ∧ socketId u = "s7".
Proof.
  apply (rejoin_survives_old_socket three_members "s1" "s7" demo_clock
           "r" "alice" "Alice" old_socket_gone.1 old_socket_gone.2).
  - discriminate.
  - discriminate.
  - reflexivity.
Defined.

(** The user id "__proto__" is not covered: such a user is not listed, and
    the room goes with its last listed user. *)
Example rejoin_as_proto_is_lost :
  fst <$> disconnecting
            (join_room demo_room "s7" demo_clock "r" "__proto__" "Alice").1
            "s1"
  = Some {| rooms := ∅; socketRooms := {[ "s7" := ["s7"; "r"] ]} |}.
Proof. reflexivity. Qed.

(** *** The users and the host of a room *)

(** A room lists a user, and its host is one of the users it lists. *)
Definition roster_ok (room : Room) : Prop :=
  JsObject.keys (JsObject.enumerable (users room)) ≠ []
  ∧ hostId room ∈ JsObject.keys (JsObject.enumerable (users room)).

Definition rosters_ok (st : state) : Prop :=
  map_Forall (λ _ room, roster_ok room) (rooms st).

(** The events that do not bring the user id [__proto__] into a room. *)
Definition regular (ev : event) : Prop :=
  match ev with
  | JoinRoom _ userId _ => userId ≠ "__proto__"
  | _ => True
  end.

Lemma clean_regular ev : clean ev → regular ev.
Proof. by destruct ev. Qed.

Lemma elem_of_keys_nonempty {V} (o : JsObject.obj V) k :
  k ∈ JsObject.keys o → JsObject.keys o ≠ [].
Proof. intros Hin Hnil. rewrite Hnil in Hin. by apply elem_of_nil in Hin. Qed.

Lemma listed_set room userId u k :
  k ∈ JsObject.keys (JsObject.enumerable (users room)) →
  k ∈ JsObject.keys
        (JsObject.enumerable (JsObject.set (users room) userId u)).
Proof.
  rewrite !JsObjectFacts.elem_of_keys, !JsObjectFacts.elem_of_enumerable.
  intros [Hin Hne]. split; [|done]. apply JsObjectFacts.elem_of_set.
  by right.
Qed.

Lemma roster_ok_set_user room userId u :
  roster_ok room →
  roster_ok (set_users room (JsObject.set (users room) userId u)).
Proof.
  intros [_ Hhost]. cbn [roster_ok users hostId set_users].
  assert (Hin := listed_set room userId u (hostId room) Hhost).
  split; [by eapply elem_of_keys_nonempty|done].
Qed.

Lemma joined_roster_ok st sid clk roomId userId username :
  rosters_ok st → userId ≠ "__proto__" →
  roster_ok (joined st sid clk roomId userId username).
Proof.
  intros Hst Hid. unfold joined.
  destruct (rooms st !! roomId) as [room|] eqn:Hroom; cbn [default].
  - apply roster_ok_set_user. exact (Hst roomId room Hroom).
  - assert (Hin : userId
                  ∈ JsObject.keys
                      (JsObject.enumerable
                         (JsObject.set [] userId
                            (entry_of sid userId username)))).
    { rewrite JsObjectFacts.elem_of_keys, JsObjectFacts.elem_of_enumerable.
      split; [|done]. apply JsObjectFacts.elem_of_set. by left. }
    split; cbn [users hostId set_users new_room];
      [by eapply elem_of_keys_nonempty|done].
Qed.

Lemma leave_room_roster_ok sid st r st' effs :
  rosters_ok st → leave_room sid st r = Some (st', effs) → rosters_ok st'.
Proof.
  intros Hst Hleave.
  destruct (rooms st !! r) as [room|] eqn:Hroom; cycle 1.
  { unfold leave_room in Hleave. rewrite Hroom in Hleave.
    destruct (JsObject.inherited r); [done|]. by injection Hleave as <- _. }
  destruct (leaving_user room sid) as [userId|] eqn:Huser; cycle 1.
  { rewrite (leave_room_stranger st sid r room Hroom Huser) in Hleave.
    by injection Hleave as <- _. }
  destruct (decide (remaining room userId = [])) as [Hlast|Hrest].
  { rewrite (leave_room_last st sid r room userId Hroom Huser Hlast) in Hleave.
    injection Hleave as <- _. by apply map_Forall_delete. }
  assert (Hkeys : JsObject.keys (remaining room userId) ≠ [])
    by by rewrite JsObjectFacts.keys_nil.
  destruct (decide (hostId room = userId)) as [Hwas|Hnot].
  - destruct (leave_room_host st sid r room userId Hroom Huser Hwas Hrest)
      as (k & v & Hk & _ & Heq).
    rewrite Heq in Hleave. injection Hleave as <- _.
    apply map_Forall_insert_2; [|done].
    split; cbn [users hostId set_users set_hostId]; [done|].
    by apply head_Some_elem_of.
  - rewrite (leave_room_member st sid r room userId Hroom Huser Hnot Hrest)
      in Hleave.
    injection Hleave as <- _. apply map_Forall_insert_2; [|done].
    split; cbn [users hostId set_users]; [done|].
    destruct (Hst r room Hroom) as [_ Hhost].
    fold (remaining room userId). unfold remaining.
    rewrite JsObjectFacts.elem_of_keys, JsObjectFacts.elem_of_enumerable,
      JsObjectFacts.elem_of_remove.
    rewrite JsObjectFacts.elem_of_keys, JsObjectFacts.elem_of_enumerable
      in Hhost.
    naive_solver.
Qed.

Lemma leave_rooms_roster_ok sid roomIds :
  ∀ st st' effs,
    rosters_ok st → leave_rooms sid st roomIds = Some (st', effs) →
    rosters_ok st'.
Proof.
  induction roomIds as [|r rs IH]; intros st st' effs Hst Hl.
  - by injection Hl as <- _.
  - cbn [leave_rooms] in Hl.
    destruct (leave_room sid st r) as [[s1 e1]|] eqn:H1; [|done].
    destruct (leave_rooms sid s1 rs) as [[s2 e2]|] eqn:H2; [|done].
    injection Hl as <- _. eapply IH; [|exact H2].
    by eapply leave_room_roster_ok.
Qed.

Lemma handle_roster_ok st sid clk ev st' effs :
  rosters_ok st → regular ev →
  handle st sid clk ev = Some (st', effs) → rosters_ok st'.
Proof.
  intros Hst Hev Hstep.
  destruct ev as [roomId userId uname|roomId patch|roomId userId p b
                 |roomId userId b|roomId message|roomId to sig|];
    cbn [handle] in Hstep.
  - apply guarded_Some in Hstep as [_ Hstep].
    apply Some_pair_fst in Hstep as <-. rewrite join_room_eq.
    cbn [fst rooms set_rooms]. apply map_Forall_insert_2; [|done].
    by apply joined_roster_ok.
  - destruct (names_member st roomId).
    { unfold video_state_on_member in Hstep.
      destruct (patch_playedSeconds patch); [|done].
      by injection Hstep as <- _. }
    unfold video_state in Hstep.
    destruct (rooms st !! roomId) as [room|] eqn:Hroom;
      injection Hstep as <- _; [|done].
    cbn [rooms set_rooms]. apply map_Forall_insert_2; [|done].
    exact (Hst roomId room Hroom).
  - apply guarded_Some in Hstep as [_ Hstep].
    unfold position_report in Hstep.
    destruct (rooms st !! roomId) as [room|] eqn:Hroom;
      [|by injection Hstep as <- _].
    destruct (JsObject.get (users room) userId) as [u0|] eqn:Hu;
      [|by destruct (JsObject.inherited userId); [injection Hstep as <- _|]].
    injection Hstep as <- _. cbn [rooms set_rooms].
    apply map_Forall_insert_2; [|done].
    apply roster_ok_set_user. exact (Hst roomId room Hroom).
  - apply guarded_Some in Hstep as [_ Hstep].
    unfold buffer_state in Hstep.
    destruct (rooms st !! roomId) as [room|];
      [|by injection Hstep as <- _].
    by destruct (JsObject.get (users room) userId);
      [|destruct (JsObject.inherited userId)]; injection Hstep as <- _.
  - apply guarded_Some in Hstep as [_ Hstep].
    unfold chat_message in Hstep.
    destruct (rooms st !! roomId) as [room|] eqn:Hroom;
      injection Hstep as <- _; [|done].
    cbn [rooms set_rooms]. apply map_Forall_insert_2; [|done].
    exact (Hst roomId room Hroom).
  - apply guarded_Some in Hstep as [_ Hstep].
    unfold signal in Hstep.
    destruct (rooms st !! roomId) as [room|];
      [|by injection Hstep as <- _].
    by destruct (JsObject.get (users room) to);
      [|destruct (JsObject.inherited to)]; injection Hstep as <- _.
  - unfold disconnecting in Hstep.
    destruct (leave_rooms sid st _) as [[s1 e1]|] eqn:H1; [|done].
    injection Hstep as <- _. unfold rosters_ok. cbn [rooms].
    by eapply leave_rooms_roster_ok.
Qed.

Lemma run_roster_ok evs :
  ∀ st st' effs,
    rosters_ok st →
    Forall (λ e : string * Clock * event, regular e.2) evs →
    run st evs = Some (st', effs) → rosters_ok st'.
Proof.
  induction evs as [|[[sid clk] ev] evs IH]; intros st st' effs Hst Hevs Hrun.
  - by injection Hrun as <- _.
  - apply Forall_cons in Hevs as [Hev Hevs]. cbn [run] in Hrun.
    destruct (handle st sid clk ev) as [[st1 effs1]|] eqn:Hstep; [|done].
    destruct (run st1 evs) as [[st2 effs2]|] eqn:Hrest; [|done].
    injection Hrun as <- _. eapply IH; [|exact Hevs|exact Hrest].
    by eapply handle_roster_ok.
Qed.

(** X26. On a server whose prototypes are as at the start, every room
    lists at least one user, and the host of the room is one of the users
    it lists. *)
Theorem room_has_user_and_host (st : state) (Hserved : served st) :
  ∀ roomId room,
    rooms st !! roomId = Some room →
    JsObject.keys (JsObject.enumerable (users room)) ≠ []
    ∧ hostId room ∈ JsObject.keys (JsObject.enumerable (users room)).
Proof.
  destruct Hserved as (evs & effs & Hclean & Hrun).
  intros roomId room Hroom.
  assert (Hst : rosters_ok st).
  { apply (run_roster_ok evs initial st effs); [|
      |done].
    - apply map_Forall_empty.
    - eapply Forall_impl; [exact Hclean|].
      intros e. apply clean_regular. }
  exact (Hst roomId room Hroom).
Qed.

(** Three users join room "r" and the host leaves. *)
Definition evening : list (string * Clock * event) :=
  [alice_joins; bob_joins; carol_joins; ("s1", demo_clock, Disconnecting)].

Lemma room_has_user_and_host_witness :
  ∃ st effs room,
    run initial evening = Some (st, effs)
    ∧ rooms st !! "r" = Some room
    ∧ JsObject.keys (JsObject.enumerable (users room)) = ["bob"; "carol"]
    ∧ hostId room ∈ JsObject.keys (JsObject.enumerable (users room)).
Proof.
  destruct (run initial evening) as [[st effs]|] eqn:Hrun;
    [|by vm_compute in Hrun].
  destruct (rooms st !! "r") as [room|] eqn:Hroom;
    [|vm_compute in Hrun; injection Hrun as <- _; by vm_compute in Hroom].
  exists st, effs, room. split; [done|]. split; [done|].
  split.
  - vm_compute in Hrun. injection Hrun as <- _.
    vm_compute in Hroom. by injection Hroom as <-.
  - apply (room_has_user_and_host st) with (roomId := "r"); [|done].
    exists evening, effs. split; [|done].
    unfold evening. repeat constructor; cbn; done.
Defined.

(** *** A socket that leaves its room *)

(** X27. On a server whose prototypes are as at the start, let a socket
    go that has joined one room, [socket.rooms] holding its own id, under
    which no room is stored and which names no member of
    [Object.prototype], and the id of that room, another id, under which the
    room is stored; and let [userId] be the user the [disconnecting] handler
    finds for it there: the first user id of the room, in the order of
    [Object.keys], whose entry carries the id of the socket, that user id
    not being the empty string.  The handler runs to
    its end, forgets the socket, emits [user-disconnected] and the users
    that remain listed, and
    - when no user remains listed, deletes the room and emits nothing more;
    - when users remain and [userId] was the host, keeps the room with the
      remaining users, makes the first of them host, and emits one
      [host-changed], to the room, and one [host-assigned], to the socket of
      the new host;
    - when users remain and [userId] was not the host, keeps the room with
      the remaining users and its host, and emits nothing more. *)
Theorem disconnecting_leaves_room (st : state) (sid : string) (clk : Clock)
    (roomId : string) (room : Room) (userId : string)
    (Hserved : served st)
    (Hjoined : socketRooms st !! sid = Some [sid; roomId])
    (Hown : rooms st !! sid = None)
    (Hsid : JsObject.inherited sid = false)
    (Hne : sid ≠ roomId)
    (Hroom : rooms st !! roomId = Some room)
    (Hleaving : leaving_user room sid = Some userId) :
  let users1 := JsObject.remove (users room) userId in
  let listed := JsObject.enumerable users1 in
  ∃ st' notices,
    handle st sid clk Disconnecting
    = Some (st',
            [Emit (io_to roomId) (user_disconnected userId);
             Emit (io_to roomId) (update_users (JsObject.values listed))]
            ++ notices)
    ∧ socketRooms st' = delete sid (socketRooms st)
    ∧ (∀ r, r ≠ roomId → rooms st' !! r = rooms st !! r)
    ∧ (listed = [] → rooms st' !! roomId = None ∧ notices = [])
    ∧ (listed ≠ [] → hostId room = userId →
       ∃ newHostId newHost,
         head (JsObject.keys listed) = Some newHostId
         ∧ JsObject.get users1 newHostId = Some newHost
         ∧ newHostId ≠ userId
         ∧ rooms st' !! roomId
           = Some (set_hostId (set_users room users1) newHostId)
         ∧ notices
           = [Emit (io_to roomId)
                (host_changed newHostId (username newHost));
              Emit (io_to (socketId newHost)) host_assigned])
    ∧ (listed ≠ [] → hostId room ≠ userId →
       rooms st' !! roomId = Some (set_users room users1)
       ∧ notices = []).
Proof.
  intros users1 listed. cbn [handle]. unfold disconnecting.
  assert (Hrooms : socket_rooms st sid = [sid; roomId])
    by (unfold socket_rooms; by rewrite Hjoined).
  rewrite Hrooms. cbn [leave_rooms].
  assert (Hself : leave_room sid st sid = Some (st, [])).
  { unfold leave_room. by rewrite Hown, Hsid. }
  rewrite Hself.
  destruct (decide (listed = [])) as [Hlast|Hrest].
  { rewrite (leave_room_last st sid roomId room userId Hroom Hleaving Hlast).
    exists ({| rooms := delete roomId (rooms st);
               socketRooms := delete sid (socketRooms st) |}), [].
    fold users1. fold listed. rewrite Hlast. cbn [app rooms socketRooms].
    split_and!; try done.
    - intros r Hr. by apply lookup_delete_ne.
    - intros _. split; [apply lookup_delete_eq|done]. }
  destruct (decide (hostId room = userId)) as [Hwas|Hnot].
  - destruct (leave_room_host st sid roomId room userId Hroom Hleaving Hwas
                Hrest) as (k & v & Hk & Hv & Heq).
    rewrite Heq. eexists _, _. cbn [app rooms socketRooms set_rooms].
    rewrite app_nil_r. split; [reflexivity|]. split_and!; try done.
    + intros r Hr. by apply lookup_insert_ne.
    + intros _ _. exists k, v. split_and!; try done.
      * apply head_Some_elem_of in Hk.
        apply JsObjectFacts.elem_of_keys, JsObjectFacts.elem_of_enumerable
          in Hk as [Hk _].
        apply JsObjectFacts.elem_of_remove in Hk. tauto.
      * apply lookup_insert_eq.
  - rewrite (leave_room_member st sid roomId room userId Hroom Hleaving Hnot
               Hrest).
    eexists _, []. cbn [app rooms socketRooms set_rooms].
    split; [reflexivity|]. split_and!; try done.
    + intros r Hr. by apply lookup_insert_ne.
    + intros _ _. split; [apply lookup_insert_eq|done].
Qed.

Lemma disconnecting_leaves_room_witness :
  ∃ st' newHost,
    handle three_members "s1" demo_clock Disconnecting
    = Some (st',
            [Emit (io_to "r") (user_disconnected "alice");
             Emit (io_to "r")
               (update_users
                  [entry_of "s2" "bob" "Bob"; entry_of "s3" "carol" "Carol"]);
             Emit (io_to "r") (host_changed "bob" (username newHost));
             Emit (io_to (socketId newHost)) host_assigned])
    ∧ hostId <$> rooms st' !! "r" = Some "bob".
Proof.
  destruct (rooms three_members !! "r") as [room|] eqn:Hroom;
    [|by vm_compute in Hroom].
  destruct (disconnecting_leaves_room three_members "s1" demo_clock "r" room
              "alice")
    as (st' & notices & Hstep & _ & _ & _ & Hhost & _).
  - apply served_three_members.
  - reflexivity.
  - reflexivity.
  - reflexivity.
  - discriminate.
  - done.
  - vm_compute in Hroom. by injection Hroom as <-.
  - vm_compute in Hroom. injection Hroom as <-.
    destruct Hhost as (k & v & Hk & Hv & _ & Hstored & ->);
      [discriminate|reflexivity|].
    vm_compute in Hk. injection Hk as <-.
    exists st', v. split; [exact Hstep|]. by rewrite Hstored.
Defined.

(** *** The quality record of a user *)

Definition quality_ok (q : ConnectionQuality) : Prop :=
  1 ≤ reportCount q
  ∧ (0 <= averageDrift q)%Q
  ∧ quality q = classify (averageDrift q).

Definition users_ok (room : Room) : Prop :=
  ∀ k u q,
    JsObject.get (users room) k = Some u →
    connectionQuality u = Some q → quality_ok q.

Lemma report_drift_nonneg stored reported :
  (0 <= report_drift stored reported)%Q.
Proof. apply Qabs_nonneg. Qed.

Lemma record_drift_ok q drift now :
  0 ≤ reportCount q → (0 <= averageDrift q)%Q → (0 <= drift)%Q →
  quality_ok (record_drift q drift now).
Proof.
  intros Hn Havg Hd. split_and!; cbn [record_drift reportCount averageDrift
                                      quality]; [lia| |done].
  replace (reportCount q + 1 - 1) with (reportCount q) by lia.
  apply Qle_shift_div_l.
  - change 0%Q with (inject_Z 0). rewrite <- Zlt_Qlt. lia.
  - rewrite Qmult_0_l.
    apply (Qle_trans _ (averageDrift q * inject_Z (reportCount q) + 0)).
    + rewrite Qplus_0_r. apply Qmult_le_0_compat; [done|].
      change 0%Q with (inject_Z 0). rewrite <- Zle_Qle. lia.
    + by apply Qplus_le_r.
Qed.

Lemma users_ok_leave sid st r st' effs :
  map_Forall (λ _ room, users_ok room) (rooms st) →
  leave_room sid st r = Some (st', effs) →
  map_Forall (λ _ room, users_ok room) (rooms st').
Proof.
  intros Hok Hleave.
  destruct (leave_room_cases sid st r st' effs Hleave)
    as [_ [Heq|(room & userId & Hroom & _ & [[_ Heq]|[_ [h Heq]]])]].
  - by rewrite Heq.
  - rewrite Heq. by apply map_Forall_delete.
  - rewrite Heq. apply map_Forall_insert_2; [|done].
    intros k u q. cbn [users set_hostId set_users]. intros Hget.
    destruct (decide (k = userId)) as [->|Hk].
    + by rewrite JsObjectFacts.get_remove_eq in Hget.
    + rewrite JsObjectFacts.get_remove_ne in Hget by done.
      by apply (Hok r room Hroom k).
Qed.

Lemma users_ok_leave_all sid roomIds :
  ∀ st st' effs,
    map_Forall (λ _ room, users_ok room) (rooms st) →
    leave_rooms sid st roomIds = Some (st', effs) →
    map_Forall (λ _ room, users_ok room) (rooms st').
Proof.
  induction roomIds as [|r rs IH]; intros st st' effs Hok Hl.
  - by injection Hl as <- <-.
  - cbn [leave_rooms] in Hl.
    destruct (leave_room sid st r) as [[s1 e1]|] eqn:H1; [|done].
    destruct (leave_rooms sid s1 rs) as [[s2 e2]|] eqn:H2; [|done].
    injection Hl as <- <-. eapply IH; [|exact H2].
    by eapply users_ok_leave.
Qed.

Lemma users_ok_step st sid clk ev st' effs :
  map_Forall (λ _ room, users_ok room) (rooms st) →
  handle st sid clk ev = Some (st', effs) →
  map_Forall (λ _ room, users_ok room) (rooms st').
Proof.
  intros Hok Hstep.
  destruct ev as [roomId userId uname|roomId patch|roomId userId p b
                 |roomId userId b|roomId message|roomId to sig|];
    cbn [handle] in Hstep.
  - apply guarded_Some in Hstep as [_ Hstep].
    apply Some_pair_fst in Hstep as <-. rewrite join_room_eq.
    cbn [fst rooms set_rooms]. apply map_Forall_insert_2; [|done].
    intros k u q. unfold joined. cbn [users set_users]. intros Hget Hq.
    destruct (decide (k = userId)) as [->|Hk].
    + rewrite JsObjectFacts.get_set_eq in Hget. by injection Hget as <-.
    + rewrite JsObjectFacts.get_set_ne in Hget by done.
      destruct (rooms st !! roomId) as [room|] eqn:Hroom; cbn [default] in Hget.
      * by apply (Hok roomId room Hroom k u).
      * done.
  - destruct (names_member st roomId).
    { unfold video_state_on_member in Hstep.
      destruct (patch_playedSeconds patch); [|done].
      by injection Hstep as <- <-. }
    unfold video_state in Hstep.
    destruct (rooms st !! roomId) as [room|] eqn:Hroom;
      injection Hstep as <- <-; [|done].
    cbn [rooms set_rooms]. apply map_Forall_insert_2; [|done].
    exact (Hok roomId room Hroom).
  - apply guarded_Some in Hstep as [_ Hstep].
    unfold position_report in Hstep.
    destruct (rooms st !! roomId) as [room|] eqn:Hroom;
      [|by injection Hstep as <- <-].
    destruct (JsObject.get (users room) userId) as [u0|] eqn:Hu;
      [|by destruct (JsObject.inherited userId); [injection Hstep as <- <-|]].
    injection Hstep as <- <-. cbn [rooms set_rooms].
    apply map_Forall_insert_2; [|done].
    intros k u q. cbn [users set_users]. intros Hget Hq.
    destruct (decide (k = userId)) as [->|Hk].
    + rewrite JsObjectFacts.get_set_eq in Hget. injection Hget as <-.
      cbn [connectionQuality set_connectionQuality] in Hq.
      injection Hq as <-.
      destruct (connectionQuality u0) as [q0|] eqn:Hq0; unfold default, from_option, Datatypes.id.
      * destruct (Hok roomId room Hroom userId u0 q0 Hu Hq0) as (? & ? & _).
        apply record_drift_ok; [lia|done|apply report_drift_nonneg].
      * apply record_drift_ok; [done|done|apply report_drift_nonneg].
    + rewrite JsObjectFacts.get_set_ne in Hget by done.
      by apply (Hok roomId room Hroom k u).
  - apply guarded_Some in Hstep as [_ Hstep].
    unfold buffer_state in Hstep.
    destruct (rooms st !! roomId) as [room|];
      [|by injection Hstep as <- <-].
    by destruct (JsObject.get (users room) userId);
      [|destruct (JsObject.inherited userId)]; injection Hstep as <- <-.
  - apply guarded_Some in Hstep as [_ Hstep].
    unfold chat_message in Hstep.
    destruct (rooms st !! roomId) as [room|] eqn:Hroom;
      injection Hstep as <- <-; [|done].
    cbn [rooms set_rooms]. apply map_Forall_insert_2; [|done].
    exact (Hok roomId room Hroom).
  - apply guarded_Some in Hstep as [_ Hstep].
    unfold signal in Hstep.
    destruct (rooms st !! roomId) as [room|];
      [|by injection Hstep as <- <-].
    by destruct (JsObject.get (users room) to);
      [|destruct (JsObject.inherited to)]; injection Hstep as <- <-.
  - unfold disconnecting in Hstep.
    destruct (leave_rooms sid st _) as [[s1 e1]|] eqn:H1; [|done].
    injection Hstep as <- <-. cbn [rooms].
    by eapply users_ok_leave_all.
Qed.

(** X6. At any time, a quality record that is stored has a report count
    of at least one, so that the average of line 226 is never a division by
    zero, an average drift that is not negative, and the level that the
    thresholds give for that average. *)
Theorem stored_quality_is_sound (st : state) (Hreach : reachable st) :
  ∀ roomId room userId u q,
    rooms st !! roomId = Some room →
    JsObject.get (users room) userId = Some u →
    connectionQuality u = Some q →
    1 ≤ reportCount q
    ∧ (0 <= averageDrift q)%Q
    ∧ quality q = classify (averageDrift q).
Proof.
  assert (Hok : map_Forall (λ _ room, users_ok room) (rooms st)).
  { induction Hreach as [|st sid clk ev st' effs _ IH Hstep].
    - apply map_Forall_empty.
    - by eapply users_ok_step. }
  intros roomId room userId u q Hroom Hu Hq.
  exact (Hok roomId room Hroom userId u q Hu Hq).
Qed.

Definition alice_reported : state :=
  default initial
    (fst <$> position_report three_members demo_clock "r" "alice" (5 # 1)
               false).

Lemma stored_quality_is_sound_witness :
  ∃ room u q,
    rooms alice_reported !! "r" = Some room
    ∧ JsObject.get (users room) "alice" = Some u
    ∧ connectionQuality u = Some q
    ∧ 1 ≤ reportCount q
    ∧ (0 <= averageDrift q)%Q
    ∧ quality q = classify (averageDrift q).
Proof.
  destruct (rooms alice_reported !! "r") as [room|] eqn:Hroom;
    [|by vm_compute in Hroom].
  destruct (JsObject.get (users room) "alice") as [u|] eqn:Hu;
    [|vm_compute in Hroom; injection Hroom as <-; by vm_compute in Hu].
  destruct (connectionQuality u) as [q|] eqn:Hq;
    [|vm_compute in Hroom; injection Hroom as <-; vm_compute in Hu;
      injection Hu as <-; by vm_compute in Hq].
  exists room, u, q. split; [done|]. split; [done|]. split; [done|].
  apply (stored_quality_is_sound alice_reported) with "r" room "alice" u;
    [|done|done|done].
  apply (reachable_step three_members "s1" demo_clock
           (PositionReport "r" "alice" (5 # 1) false) alice_reported []);
    [apply reachable_three_members|reflexivity].
Defined.

End ServerExtra.

(** ** The health figures *)

Module ServerHealthSpec.
Import Server ServerSpec ServerExtra ServerHealth.

(** No room is new, and the rooms that stay keep their chat log. *)
Definition shrinks (st st' : state) : Prop :=
  (size (rooms st') ≤ size (rooms st))%nat
  ∧ ∀ r room',
      rooms st' !! r = Some room' →
      ∃ room, rooms st !! r = Some room ∧ messages room' = messages room.

Lemma shrinks_refl st : shrinks st st.
Proof. split; [done|]. intros r room' H. by exists room'. Qed.

Lemma shrinks_trans st1 st2 st3 :
  shrinks st1 st2 → shrinks st2 st3 → shrinks st1 st3.
Proof.
  intros [Hs1 Hm1] [Hs2 Hm2]. split; [lia|].
  intros r room3 H3. destruct (Hm2 r room3 H3) as (room2 & H2 & E2).
  destruct (Hm1 r room2 H2) as (room1 & H1 & E1).
  exists room1. split; [done|congruence].
Qed.

Lemma leave_room_shrinks sid st r st' effs :
  leave_room sid st r = Some (st', effs) → shrinks st st'.
Proof.
  intros Hleave.
  destruct (leave_room_cases sid st r st' effs Hleave)
    as [_ [->|(room & userId & Hroom & _ & [[_ Heq]|[_ [h Heq]]])]].
  - apply shrinks_refl.
  - split; rewrite Heq.
    + rewrite map_size_delete_Some by done. lia.
    + intros r' room'. destruct (decide (r' = r)) as [->|Hne].
      * by rewrite lookup_delete_eq.
      * rewrite lookup_delete_ne by done. intros H. by exists room'.
  - split; rewrite Heq.
    + by rewrite map_size_insert_Some.
    + intros r' room'. destruct (decide (r' = r)) as [->|Hne].
      * rewrite lookup_insert_eq. intros [= <-]. by exists room.
      * rewrite lookup_insert_ne by done. intros H. by exists room'.
Qed.

Lemma leave_rooms_shrinks sid roomIds :
  ∀ st st' effs,
    leave_rooms sid st roomIds = Some (st', effs) → shrinks st st'.
Proof.
  induction roomIds as [|r rs IH]; intros st st' effs Hl.
  - injection Hl as <- <-. apply shrinks_refl.
  - cbn [leave_rooms] in Hl.
    destruct (leave_room sid st r) as [[s1 e1]|] eqn:H1; [|done].
    destruct (leave_rooms sid s1 rs) as [[s2 e2]|] eqn:H2; [|done].
    injection Hl as <- <-.
    eapply shrinks_trans; [by eapply leave_room_shrinks|by eapply IH].
Qed.

(** What the counters and the store have to do with each other. *)
Record counted (p : process) : Prop := {
  counted_connections :
    currentConnections (metrics p)
    = totalConnections (metrics p) - totalDisconnections (metrics p);
  counted_rooms : Z.of_nat (activeRooms p) ≤ totalRoomsCreated (metrics p);
  counted_messages :
    map_Forall
      (λ _ room, Z.of_nat (messageCount room) ≤ totalMessages (metrics p))
      (rooms (store p));
  counted_nonneg : 0 ≤ totalMessages (metrics p)
}.

Lemma counted_started now : counted (started now).
Proof.
  split; cbn; done.
Qed.

Lemma counted_same_store p m :
  counted p →
  currentConnections m = totalConnections m - totalDisconnections m →
  totalRoomsCreated m = totalRoomsCreated (metrics p) →
  totalMessages m = totalMessages (metrics p) →
  counted {| store := store p; metrics := m |}.
Proof.
  intros [Hc Hr Hm Hn] Hc' Hr' Hm'.
  split; unfold activeRooms in *; cbn [store metrics] in *;
    rewrite ?Hr', ?Hm'; done.
Qed.

Lemma counted_shrinks p st' :
  counted p → shrinks (store p) st' →
  counted {| store := st'; metrics := metrics p |}.
Proof.
  intros [Hc Hr Hm Hn] [Hsize Hkeep].
  split; unfold activeRooms in *; cbn [store metrics] in *; [done|lia| |done].
  intros r room' Hroom'. destruct (Hkeep r room' Hroom') as (room & Hroom & E).
  unfold messageCount. rewrite E. exact (Hm r room Hroom).
Qed.

Lemma push_bounded_length log msg :
  (length (push_bounded log msg) ≤ S (length log))%nat.
Proof.
  unfold push_bounded. destruct (100 <? length (log ++ [msg]))%nat.
  - change (tail (log ++ [msg])) with (tl (log ++ [msg])).
    rewrite length_tl, length_app. cbn. lia.
  - rewrite length_app. cbn. lia.
Qed.

Lemma counted_update p st' roomId room room' :
  counted p →
  rooms (store p) !! roomId = Some room →
  rooms st' = <[roomId := room']> (rooms (store p)) →
  messages room' = messages room →
  counted {| store := st'; metrics := metrics p |}.
Proof.
  intros Hp Hroom Hrooms Hmsgs. apply counted_shrinks; [done|].
  split; rewrite Hrooms.
  - by rewrite map_size_insert_Some.
  - intros r x. destruct (decide (r = roomId)) as [->|Hne].
    + rewrite lookup_insert_eq. intros [= <-]. by exists room.
    + rewrite lookup_insert_ne by done. intros H. by exists x.
Qed.

Lemma counted_receive p sid clk i p' :
  counted p → receive p sid clk i = Some p' → counted p'.
Proof.
  intros Hp Hrecv. destruct i as [|ev|]; cbn [receive] in Hrecv.
  - injection Hrecv as <-. pose proof (counted_connections p Hp) as Hc.
    apply counted_same_store; cbn; [exact Hp|lia|done|done].
  - destruct (handle (store p) sid clk ev) as [[st' effs]|] eqn:Hstep; [|done].
    injection Hrecv as <-.
    destruct ev as [roomId userId uname|roomId patch|roomId userId pos b
                   |roomId userId b|roomId message|roomId to sig|];
      cbn [handle count_event] in *.
    + apply guarded_Some in Hstep as [_ Hstep].
      apply Some_pair_fst in Hstep as <-. rewrite join_room_eq. cbn [fst].
      destruct (rooms (store p) !! roomId) as [room|] eqn:Hroom.
      * eapply counted_update; [done|exact Hroom|done|].
        by rewrite (joined_existing _ _ _ _ _ _ room Hroom).
      * destruct Hp as [Hc Hr Hm Hn].
        split; unfold activeRooms in *; cbn in *; [done| |  |done].
        -- rewrite map_size_insert_None by done. lia.
        -- apply map_Forall_insert_2; [|done].
           unfold joined, messageCount. rewrite Hroom. cbn. done.
    + destruct (names_member (store p) roomId).
      { unfold video_state_on_member in Hstep.
        destruct (patch_playedSeconds patch); [|done].
        injection Hstep as <- <-. by apply counted_shrinks, shrinks_refl. }
      unfold video_state in Hstep.
      destruct (rooms (store p) !! roomId) as [room|] eqn:Hroom;
        injection Hstep as <- <-.
      * by eapply counted_update.
      * by apply counted_shrinks, shrinks_refl.
    + apply guarded_Some in Hstep as [_ Hstep].
      unfold position_report in Hstep.
      destruct (rooms (store p) !! roomId) as [room|] eqn:Hroom.
      * destruct (JsObject.get (users room) userId).
        -- injection Hstep as <- <-. by eapply counted_update.
        -- destruct (JsObject.inherited userId); [|done].
           injection Hstep as <- <-. by apply counted_shrinks, shrinks_refl.
      * injection Hstep as <- <-. by apply counted_shrinks, shrinks_refl.
    + assert (st' = store p) as ->; [|by apply counted_shrinks, shrinks_refl].
      apply guarded_Some in Hstep as [_ Hstep].
      unfold buffer_state in Hstep.
      destruct (rooms (store p) !! roomId) as [room|];
        [destruct (JsObject.get (users room) userId);
           [|destruct (JsObject.inherited userId)]|];
        by injection Hstep as <- <-.
    + apply guarded_Some in Hstep as [_ Hstep].
      unfold chat_message in Hstep.
      destruct (rooms (store p) !! roomId) as [room|] eqn:Hroom;
        injection Hstep as <- <-; [|by apply counted_shrinks, shrinks_refl].
      destruct Hp as [Hc Hr Hm Hn].
      split; unfold activeRooms in *; cbn in *; [done| | |lia].
      * by rewrite map_size_insert_Some.
      * apply map_Forall_insert_2.
        -- unfold messageCount. cbn.
           pose proof (push_bounded_length (messages room)
                         (stamp message (clk 0%nat))).
           pose proof (Hm roomId room Hroom) as Hle.
           unfold messageCount in Hle. lia.
        -- eapply map_Forall_impl; [exact Hm|]. cbn. intros; lia.
    + assert (st' = store p) as ->; [|by apply counted_shrinks, shrinks_refl].
      apply guarded_Some in Hstep as [_ Hstep].
      unfold signal in Hstep.
      destruct (rooms (store p) !! roomId) as [room|];
        [destruct (JsObject.get (users room) to);
           [|destruct (JsObject.inherited to)]|];
        by injection Hstep as <- <-.
    + unfold disconnecting in Hstep.
      destruct (leave_rooms sid (store p) _) as [[s1 e1]|] eqn:H1; [|done].
      injection Hstep as <- <-. apply counted_shrinks; [done|].
      apply leave_rooms_shrinks in H1. exact H1.
  - injection Hrecv as <-. pose proof (counted_connections p Hp) as Hc.
    apply counted_same_store; cbn; [exact Hp|lia|done|done].
Qed.

Lemma running_counted p : running p → counted p.
Proof.
  induction 1 as [now|p sid clk i p' _ IH Hrecv].
  - apply counted_started.
  - by eapply counted_receive.
Qed.

(** X7. Whatever the sockets did, [/health/detailed] reports a number of
    current connections that is the connections less the disconnections,
    and no more active rooms than rooms were ever created. *)
Theorem active_rooms_within_created (p : process) (Hrun : running p) :
  currentConnections (metrics p)
  = totalConnections (metrics p) - totalDisconnections (metrics p)
  ∧ Z.of_nat (activeRooms p) ≤ totalRoomsCreated (metrics p).
Proof.
  destruct (running_counted p Hrun) as [Hc Hr _ _]. by split.
Qed.

(** X8. The message count that [/health/detailed] reports for a room never
    exceeds the total of messages the server counted. *)
Theorem message_count_within_total (p : process) (Hrun : running p) :
  ∀ roomId room,
    rooms (store p) !! roomId = Some room →
    Z.of_nat (messageCount room) ≤ totalMessages (metrics p).
Proof.
  destruct (running_counted p Hrun) as [_ _ Hm _]. exact Hm.
Qed.

Fixpoint receive_all (p : process) (inputs : list (string * Clock * input))
    : option process :=
  match inputs with
  | [] => Some p
  | (sid, clk, i) :: rest =>
      match receive p sid clk i with
      | Some p' => receive_all p' rest
      | None => None
      end
  end.

Lemma running_receive_all inputs :
  ∀ p p', running p → receive_all p inputs = Some p' → running p'.
Proof.
  induction inputs as [|[[sid clk] i] rest IH]; intros p p' Hp Hall.
  - by injection Hall as <-.
  - cbn [receive_all] in Hall.
    destruct (receive p sid clk i) as [p1|] eqn:H1; [|done].
    eapply IH; [|exact Hall]. by eapply running_receive.
Qed.

(** Two sockets connect, alice opens room [r] and posts, the second socket
    goes away. *)
Definition demo_inputs : list (string * Clock * input) :=
  [("s1", demo_clock, Connection);
   ("s2", demo_clock, Connection);
   ("s1", demo_clock, Received (JoinRoom "r" "alice" "Alice"));
   ("s1", demo_clock, Received (ChatMessage "r" ∅));
   ("s2", demo_clock, Received Disconnecting);
   ("s2", demo_clock, Disconnect)].

Definition demo_process : process :=
  default (started 0) (receive_all (started 0) demo_inputs).

Lemma active_rooms_within_created_witness :
  currentConnections (metrics demo_process)
  = totalConnections (metrics demo_process)
    - totalDisconnections (metrics demo_process)
  ∧ Z.of_nat (activeRooms demo_process)
    ≤ totalRoomsCreated (metrics demo_process).
Proof.
  apply active_rooms_within_created.
  apply (running_receive_all demo_inputs (started 0)); [constructor|].
  reflexivity.
Defined.

Lemma message_count_within_total_witness :
  ∃ room,
    rooms (store demo_process) !! "r" = Some room
    ∧ Z.of_nat (messageCount room) ≤ totalMessages (metrics demo_process).
Proof.
  destruct (rooms (store demo_process) !! "r") as [room|] eqn:Hroom;
    [|by vm_compute in Hroom].
  exists room. split; [done|].
  apply (message_count_within_total demo_process) with (roomId := "r");
    [|done].
  apply (running_receive_all demo_inputs (started 0)); [constructor|].
  reflexivity.
Defined.

(** *** [formatUptime] *)

(** Days, hours, minutes and seconds in print, the leading fields that are
    zero left out. *)
Definition display (d h m s : Z) : string :=
  if 0 <? d then
    pretty d +:+ "d " +:+ pretty h +:+ "h " +:+ pretty m +:+ "m "
    +:+ pretty s +:+ "s"
  else if 0 <? h then
    pretty h +:+ "h " +:+ pretty m +:+ "m " +:+ pretty s +:+ "s"
  else if 0 <? m then pretty m +:+ "m " +:+ pretty s +:+ "s"
  else pretty s +:+ "s".

(** X9. [formatUptime] of an uptime that is not negative prints the whole
    seconds of it in days, hours below 24, minutes below 60 and seconds
    below 60, the leading fields that are zero left out: the fields it
    prints add up to the whole seconds again. *)
Theorem formatUptime_fields (ms : Z) (Hms : 0 ≤ ms) :
  ∃ d h m s,
    0 ≤ d ∧ 0 ≤ h < 24 ∧ 0 ≤ m < 60 ∧ 0 ≤ s < 60
    ∧ ((d * 24 + h) * 60 + m) * 60 + s = ms / 1000
    ∧ formatUptime ms = display d h m s.
Proof.
  set (seconds := ms / 1000). set (minutes := seconds / 60).
  set (hours := minutes / 60). set (days := hours / 24).
  assert (0 ≤ seconds) by (apply Z.div_pos; lia).
  assert (0 ≤ minutes) by (apply Z.div_pos; lia).
  assert (0 ≤ hours) by (apply Z.div_pos; lia).
  assert (0 ≤ days) by (apply Z.div_pos; lia).
  exists days, (hours mod 24), (minutes mod 60), (seconds mod 60).
  pose proof (Z.mod_pos_bound hours 24 eq_refl).
  pose proof (Z.mod_pos_bound minutes 60 eq_refl).
  pose proof (Z.mod_pos_bound seconds 60 eq_refl).
  pose proof (Z.div_mod hours 24) as Eh.
  pose proof (Z.div_mod minutes 60) as Em.
  pose proof (Z.div_mod seconds 60) as Es.
  fold days in Eh. fold hours in Em. fold minutes in Es.
  split_and!; try lia.
  unfold formatUptime, display.
  fold seconds. fold minutes. fold hours. fold days.
  rewrite !Z.rem_mod_nonneg by lia.
  destruct (0 <? days) eqn:Ed; [done|]. apply Z.ltb_ge in Ed.
  assert (days = 0) as Hd by lia.
  assert (hours mod 24 = hours) as -> by lia.
  destruct (0 <? hours) eqn:Eh0; [done|]. apply Z.ltb_ge in Eh0.
  assert (hours = 0) as Hh by lia.
  assert (minutes mod 60 = minutes) as -> by lia.
  destruct (0 <? minutes) eqn:Em0; [done|]. apply Z.ltb_ge in Em0.
  assert (minutes = 0) as Hm by lia.
  assert (seconds mod 60 = seconds) as -> by lia.
  done.
Qed.

Lemma formatUptime_fields_witness :
  ∃ d h m s,
    0 ≤ d ∧ 0 ≤ h < 24 ∧ 0 ≤ m < 60 ∧ 0 ≤ s < 60
    ∧ ((d * 24 + h) * 60 + m) * 60 + s = 93784999 / 1000
    ∧ formatUptime 93784999 = display d h m s.
Proof. apply (formatUptime_fields 93784999). lia. Defined.

End ServerHealthSpec.

(** ** The player and the hook of the room *)

Module VideoPlayerExtra.
Import VideoPlayer VideoPlayerSpec VideoPlayerHandlers.

(** *** The target of a seek *)

Lemma latency_nonneg now t :
  t ≤ now → (0 <= inject_Z (now - t) / inject_Z 1000)%Q.
Proof.
  intros Hle. apply Qle_shift_div_l; [reflexivity|].
  rewrite Qmult_0_l. change 0%Q with (inject_Z 0). rewrite <- Zle_Qle. lia.
Qed.

(** X10. The target of a seek is never more than 2 s past the position of
    the state, however old the state is and whatever the clock of the
    client reads; if that clock is not behind the stamp of the server, the
    target is not before that position either. *)
Theorem adjustedTarget_within_two_seconds (vs : VideoState) (now : Z) :
  (adjustedTarget vs now <= playedSeconds vs + 2)%Q
  ∧ ((∀ T, serverTimestamp vs = Some T → T ≤ now) →
     (playedSeconds vs <= adjustedTarget vs now)%Q).
Proof.
  assert (Hsame : ∀ x : Q, (x == playedSeconds vs)%Q →
            (x <= playedSeconds vs + 2)%Q
            ∧ ((∀ T, serverTimestamp vs = Some T → T ≤ now) →
               (playedSeconds vs <= x)%Q)).
  { intros x Hx. rewrite Hx. split; [|intros _; apply Qle_refl].
    rewrite <- (Qplus_0_r (playedSeconds vs)) at 1. by apply Qplus_le_r. }
  unfold adjustedTarget, truthy_timestamp.
  destruct (isPlaying vs); [|apply Hsame, or_zero_eq].
  destruct (serverTimestamp vs) as [t|] eqn:Ht; [|apply Hsame, or_zero_eq].
  destruct (bool_decide (t = 0)); [apply Hsame, or_zero_eq|].
  rewrite or_zero_eq. split.
  - apply Qplus_le_r. apply Q.le_min_r.
  - intros Hclock.
    rewrite <- (Qplus_0_r (playedSeconds vs)) at 1. apply Qplus_le_r.
    apply Q.min_glb; [|done]. apply latency_nonneg. by apply Hclock.
Qed.

Lemma adjustedTarget_within_two_seconds_witness :
  (adjustedTarget (state_of true (120 # 1) "alice" 1700000000000)
     1700000009000
   <= playedSeconds (state_of true (120 # 1) "alice" 1700000000000) + 2)%Q
  ∧ (playedSeconds (state_of true (120 # 1) "alice" 1700000000000)
     <= adjustedTarget (state_of true (120 # 1) "alice" 1700000000000)
          1700000009000)%Q.
Proof.
  destruct (adjustedTarget_within_two_seconds
              (state_of true (120 # 1) "alice" 1700000000000) 1700000009000)
    as [Hupper Hlower].
  split; [exact Hupper|]. apply Hlower. intros T [= <-]. lia.
Defined.

(** *** The periodic broadcast of the host *)

Definition is_state_change (o : output) : bool :=
  match o with
  | StateChange _ => true
  | _ => false
  end.

(** The clock readings of the [onProgress] events of a run at which the
    position was broadcast. *)
Fixpoint broadcast_times (p : player) (evs : list (props * event))
    : list Z :=
  match evs with
  | [] => []
  | (pr, ev) :: rest =>
      match ev with
      | Progress _ now =>
          if existsb is_state_change (step pr p ev).2 then [now] else []
      | _ => []
      end ++ broadcast_times (step pr p ev).1 rest
  end.

(** Each reading is more than 1500 ms after the one before. *)
Fixpoint spaced (last : Z) (times : list Z) : Prop :=
  match times with
  | [] => True
  | t :: rest => 1500 < t - last ∧ spaced t rest
  end.

Lemma perform_lastBroadcastTime p a :
  lastBroadcastTime (perform p a) = lastBroadcastTime p.
Proof. by destruct a. Qed.

Lemma perform_all_lastBroadcastTime acts :
  ∀ p, lastBroadcastTime (perform_all p acts).1 = lastBroadcastTime p.
Proof.
  unfold perform_all. cbn [fst].
  induction acts as [|a acts IH]; intros p; [done|].
  cbn [foldl]. by rewrite IH, perform_lastBroadcastTime.
Qed.

Lemma broadcast_after_interval now last :
  Qgtb (inject_Z (now - last) / inject_Z 1000) (15 # 10) = true
  ↔ 1500 < now - last.
Proof.
  assert (E : ((15 # 10) * inject_Z 1000 == inject_Z 1500)%Q) by reflexivity.
  rewrite Qgtb_lt. split.
  - intros H. apply Qlt_shift_div_r in H; [|reflexivity].
    rewrite E in H. by rewrite <- Zlt_Qlt in H.
  - intros H. apply Qlt_shift_div_l; [reflexivity|].
    rewrite E. by rewrite <- Zlt_Qlt.
Qed.

Lemma handleProgress_cases pr p playedSeconds now :
  (existsb is_state_change (handleProgress pr p playedSeconds now).2 = true
   ∧ lastBroadcastTime (handleProgress pr p playedSeconds now).1 = now
   ∧ 1500 < now - lastBroadcastTime p
   ∧ isHost pr = true ∧ playing pr = true
   ∧ isSeeking (component p) = false)
  ∨ (existsb is_state_change (handleProgress pr p playedSeconds now).2
     = false
     ∧ handleProgress pr p playedSeconds now
       = (p, [ReportPosition playedSeconds (localBuffering (component p))])).
Proof.
  unfold handleProgress.
  destruct (isSeeking (component p)), (playing pr), (isHost pr);
    cbn [negb andb]; try (by right).
  destruct (Qgtb _ _) eqn:E; [|by right].
  left. apply broadcast_after_interval in E. by cbn.
Qed.

Lemma step_lastBroadcastTime pr p ev :
  (∀ playedSeconds now, ev ≠ Progress playedSeconds now) →
  lastBroadcastTime (step pr p ev).1 = lastBroadcastTime p.
Proof.
  intros Hev.
  destruct ev as [ps now| | | | | | |now| | |t|u]; cbn [step fst]; try done.
  - by destruct (Hev ps now).
  - unfold sync. apply perform_all_lastBroadcastTime.
  - unfold manual_sync.
    by destruct (videoState pr), (currentTime (component p)).
  - unfold cooldown_over. by destruct (cooldowns p).
  - unfold handleUrlSubmit. by destruct (Server.truthy u).
Qed.

(** X11. Whatever happens to the player in between, the broadcasts of the
    position that [handleProgress] makes are more than 1500 ms apart by the
    clock it reads, the first of them from the last broadcast before. *)
Theorem progress_broadcasts_are_spaced (evs : list (props * event)) :
  ∀ p, spaced (lastBroadcastTime p) (broadcast_times p evs).
Proof.
  induction evs as [|[pr ev] rest IH]; intros p; [done|].
  cbn [broadcast_times].
  destruct ev as [ps now| | | | | | | | | | |];
    try (cbn [app];
         match goal with
         | |- spaced _ (broadcast_times (step _ _ ?ev).1 _) =>
             rewrite <- (step_lastBroadcastTime pr p ev) by done; apply IH
         end).
  cbn [step].
  destruct (handleProgress_cases pr p ps now)
    as [(-> & Hlast & Hgap & _)|[-> Heq]]; cbn [app spaced].
  - split; [done|]. rewrite <- Hlast at 1. apply IH.
  - rewrite Heq. cbn [fst]. apply IH.
Qed.

(** *** The flag [isSeeking] *)

Lemma perform_all_seek_actions p target :
  (perform_all p (seek_actions target)).1
  = {| component := set_flags (component p) true true;
       lastBroadcastTime := lastBroadcastTime p;
       cooldowns := S (cooldowns p) |}.
Proof. reflexivity. Qed.

Lemma sync_effect_cases c vs userId now :
  sync_effect c vs userId now = []
  ∨ ∃ target, sync_effect c vs userId now = seek_actions target.
Proof.
  unfold sync_effect. destruct (negb (isReady c)); [by left|].
  destruct (currentTime c), vs; try (by left).
  destruct (_ || _); [|by left].
  destruct (Qgtb _ _); [right; by eexists|by left].
Qed.

Lemma sync_cases pr p now :
  sync pr p now = (p, [])
  ∨ ∃ target,
      sync pr p now
      = ({| component := set_flags (component p) true true;
            lastBroadcastTime := lastBroadcastTime p;
            cooldowns := S (cooldowns p) |},
         Player <$> seek_actions target).
Proof.
  unfold sync.
  destruct (sync_effect_cases (component p) (videoState pr) (userId pr) now)
    as [->|[target ->]]; [by left|right; by exists target].
Qed.

Lemma manual_sync_cases pr p :
  manual_sync pr p = (p, [])
  ∨ ∃ target,
      manual_sync pr p
      = ({| component := set_flags (component p) true true;
            lastBroadcastTime := lastBroadcastTime p;
            cooldowns := S (cooldowns p) |},
         Player <$> seek_actions target).
Proof.
  unfold manual_sync.
  destruct (videoState pr) as [vs|], (currentTime (component p));
    try (by left).
  right. by eexists.
Qed.

(** The flag is up only while a timer is pending. *)
Definition seeking_ok (p : player) : Prop :=
  isSeeking (component p) = true → (0 < cooldowns p)%nat.

Lemma seeking_ok_step pr p ev : seeking_ok p → seeking_ok (step pr p ev).1.
Proof.
  unfold seeking_ok. intros Hp.
  destruct ev as [ps now| | | | | | |now| | |t|u]; cbn [step fst]; try done.
  - destruct (handleProgress_cases pr p ps now)
      as [(_ & _ & _ & _ & _ & Hs)|[_ ->]]; [|done].
    unfold handleProgress. rewrite Hs. cbn [negb andb].
    destruct (playing pr && isHost pr); [|done].
    by destruct (Qgtb _ _).
  - destruct (sync_cases pr p now) as [->|[target ->]]; [done|].
    cbn. lia.
  - destruct (manual_sync_cases pr p) as [->|[target ->]]; [done|].
    cbn. lia.
  - unfold cooldown_over.
    destruct (cooldowns p) eqn:E; [by rewrite E|]. by cbn.
  - unfold handleUrlSubmit. by destruct (Server.truthy u).
Qed.

(** X12. The flag [isSeeking], which silences the handlers of the player,
    is never left up: whenever it is set, a timer of 1000 ms that clears it
    is pending. *)
Theorem seeking_flag_has_pending_timer (p : player) (Hreach : reachable p)
    (Hseeking : isSeeking (component p) = true) :
  (0 < cooldowns p)%nat.
Proof.
  revert Hseeking. fold (seeking_ok p).
  induction Hreach as [|pr p ev _ IH]; [done|].
  by apply seeking_ok_step.
Qed.

(** Bob's player, ready at 0 s, receives alice's state, paused at 120 s. *)
Definition bob_props : props :=
  {| videoState := Some (state_of false (120 # 1) "alice" 1700000000000);
     userId := "bob"; isHost := false |}.

Definition bob_synced : player :=
  (step bob_props
     (step bob_props (step bob_props mounted (PositionIs (Some 0%Q))).1
        Ready).1
     (StateReceived 1700000000400)).1.

Lemma seeking_flag_has_pending_timer_witness : (0 < cooldowns bob_synced)%nat.
Proof.
  apply seeking_flag_has_pending_timer.
  - unfold bob_synced. do 3 apply reachable_step. apply reachable_mounted.
  - reflexivity.
Defined.

Lemma no_state_change_in_seek target c :
  StateChange c ∉ Player <$> seek_actions target.
Proof. intros (a & Ha & _)%list_elem_of_fmap. discriminate. Qed.

(** The events that neither run the callback of a timer nor submit a
    URL. *)
Definition guarded (ev : event) : Prop :=
  match ev with
  | CooldownOver | UrlSubmit _ => False
  | _ => True
  end.

Lemma seeking_step pr p ev :
  isSeeking (component p) = true → guarded ev →
  isSeeking (component (step pr p ev).1) = true
  ∧ ∀ c, StateChange c ∉ (step pr p ev).2.
Proof.
  intros Hs Hev.
  destruct ev as [ps now| | |seconds| | | |now| | |t|u]; cbn [step fst snd];
    try done.
  - unfold handleProgress. rewrite Hs. cbn [negb andb fst snd].
    split; [done|]. by intros c [=]%list_elem_of_singleton.
  - unfold onPlay. rewrite Hs. split; [done|]. intros c. apply not_elem_of_nil.
  - unfold onPause. rewrite Hs. split; [done|]. intros c. apply not_elem_of_nil.
  - unfold onSeek. rewrite Hs. split; [done|]. intros c. apply not_elem_of_nil.
  - split; [done|]. intros c. apply not_elem_of_nil.
  - split; [done|]. intros c. apply not_elem_of_nil.
  - unfold onReady. cbn [fst snd]. split; [done|]. intros c.
    destruct (videoState pr), (currentTime (component p));
      try apply not_elem_of_nil.
    by intros [=]%list_elem_of_singleton.
  - destruct (sync_cases pr p now) as [->|[target ->]]; cbn [fst snd].
    + split; [done|]. intros c. apply not_elem_of_nil.
    + split; [done|]. intros c. apply no_state_change_in_seek.
  - destruct (manual_sync_cases pr p) as [->|[target ->]]; cbn [fst snd].
    + split; [done|]. intros c. apply not_elem_of_nil.
    + split; [done|]. intros c. apply no_state_change_in_seek.
  - split; [done|]. intros c. apply not_elem_of_nil.
Qed.

Lemma seeking_run evs :
  ∀ p,
    isSeeking (component p) = true →
    Forall (λ e : props * event, guarded e.2) evs →
    isSeeking (component (run p evs).1) = true
    ∧ ∀ c, StateChange c ∉ (run p evs).2.
Proof.
  induction evs as [|[pr ev] rest IH]; intros p Hs Hevs.
  - split; [done|]. intros c. apply not_elem_of_nil.
  - apply Forall_cons in Hevs as [Hev Hrest]. cbn [run fst snd].
    destruct (seeking_step pr p ev Hs Hev) as [Hs' Hout].
    destruct (IH (step pr p ev).1 Hs' Hrest) as [Hs'' Hout'].
    split; [done|]. intros c. rewrite elem_of_app. intros [Hin|Hin].
    + by apply (Hout c).
    + by apply (Hout' c).
Qed.

(** X13. When a state that was received made the player seek, the flag
    [isSeeking] stays up, and nothing the player does goes back to the room
    as a change of state, neither the play, pause and seek events that the
    seek itself raises nor the periodic broadcast of the host, until the
    callback of a timer of 1000 ms runs, be it the timer of this seek or
    one that an earlier seek left pending, or a URL is submitted. *)
Theorem no_echo_before_cooldown (pr : props) (p : player) (now : Z)
    (evs : list (props * event))
    (Hseek : (sync pr p now).2 ≠ [])
    (Hearly : Forall (λ e : props * event, guarded e.2) evs) :
  isSeeking (component (run (sync pr p now).1 evs).1) = true
  ∧ ∀ c, StateChange c ∉ (run (sync pr p now).1 evs).2.
Proof.
  apply seeking_run; [|done].
  destruct (sync_cases pr p now) as [E|[target E]]; rewrite E in *; done.
Qed.

Definition bob_ready : player :=
  (step bob_props (step bob_props mounted (PositionIs (Some 0%Q))).1 Ready).1.

Definition after_seek : list (props * event) :=
  [(bob_props, Seek (120 # 1)); (bob_props, Pause);
   (bob_props, Progress (120 # 1) 1700000000700)].

Lemma no_echo_before_cooldown_witness :
  StateChange {| change_url := None; change_isPlaying := Some false;
                 change_playedSeconds := Some (120 # 1) |}
  ∉ (run (sync bob_props bob_ready 1700000000400).1 after_seek).2.
Proof.
  apply (no_echo_before_cooldown bob_props bob_ready 1700000000400
           after_seek).
  - discriminate.
  - unfold after_seek. repeat constructor.
Defined.

(** The state of alice paused at 130 s reaches bob 600 ms after the one
    paused at 120 s. *)
Definition bob_props_later : props :=
  {| videoState := Some (state_of false (130 # 1) "alice" 1700000000600);
     userId := "bob"; isHost := false |}.

(** The timer of the first seek does not tell the seeks apart: it ends the
    silence of the second seek, whose own timer is still pending, and the
    seek event that the player then raises goes to the room. *)
Example earlier_timer_ends_the_silence :
  let p1 := (step bob_props bob_ready (StateReceived 1700000000400)).1 in
  let p2 := (step bob_props_later p1 (StateReceived 1700000001000)).1 in
  let p3 := (step bob_props_later p2 CooldownOver).1 in
  (sync bob_props_later p1 1700000001000).2 ≠ []
  ∧ cooldowns p2 = 2%nat
  ∧ cooldowns p3 = 1%nat
  ∧ isSeeking (component p3) = false
  ∧ (step bob_props_later p3 (Seek (130 # 1))).2
    = [StateChange {| change_url := None; change_isPlaying := Some false;
                      change_playedSeconds := Some (130 # 1) |}].
Proof. cbv zeta. split_and!; [discriminate|reflexivity..]. Qed.

(** Nor does [handleUrlSubmit] look at the flag. *)
Example url_submit_during_seek :
  (step bob_props (sync bob_props bob_ready 1700000000400).1
     (UrlSubmit "https://example.org/film.mp4")).2
  = [StateChange {| change_url := Some "https://example.org/film.mp4";
                    change_isPlaying := Some true;
                    change_playedSeconds := Some 0%Q |}].
Proof. reflexivity. Qed.

(** *** A state that comes back to its author *)

Lemma sync_effect_own c vs user now current :
  currentTime c = Some current → updatedBy vs = user →
  (Qabs (current - playedSeconds vs) <= 2)%Q →
  sync_effect c (Some vs) user now = [].
Proof.
  intros Hplayer Hown Hnear.
  destruct (isReady c) eqn:Hready.
  - apply (sync_effect_ready c vs user now current Hready Hplayer).
    intros [[Hother|Hfar] _]; [done|].
    by apply (Qle_not_lt _ _ Hnear).
  - unfold sync_effect. by rewrite Hready.
Qed.

(** X14. A change of state that a user sends comes back from the server
    under that user's name, and the player that sent it does not seek for
    it, whatever the latency, as long as it is within 2 s of the position
    it sent. *)
Theorem own_update_is_not_replayed (st : Server.state) (clk : Clock)
    (roomId user : string) (ch : change) (room : Server.Room)
    (c : Component) (current : Q) (now : Z)
    (Hroom : Server.rooms st !! roomId = Some room)
    (Hid : roomId ≠ EmptyString)
    (Hplayer : currentTime c = Some current) :
  ∃ patch vs,
    UseRoom.updateVideoState roomId user ch = Some (roomId, patch)
    ∧ (Server.video_state st clk roomId patch).2
      = [Server.Emit (Server.io_to roomId) (Server.video_state_msg vs)]
    ∧ Server.updatedBy vs = user
    ∧ Server.playedSeconds vs
      = default (Server.playedSeconds (Server.videoState room))
          (change_playedSeconds ch)
    ∧ ((Qabs (current - Server.playedSeconds vs) <= 2)%Q →
       sync_effect c (Some (UseRoom.handleVideoState vs)) user now = []).
Proof.
  unfold UseRoom.updateVideoState. rewrite bool_decide_eq_false_2 by done.
  eexists _, _. split; [reflexivity|].
  unfold Server.video_state. rewrite Hroom. cbn [snd].
  split; [reflexivity|]. split; [reflexivity|]. split; [reflexivity|].
  intros Hnear. by apply (sync_effect_own _ _ _ _ current).
Qed.

Definition alice_plays : change :=
  {| change_url := None; change_isPlaying := Some true;
     change_playedSeconds := Some (42 # 1) |}.

Lemma own_update_is_not_replayed_witness :
  ∃ patch vs,
    UseRoom.updateVideoState "r" "alice" alice_plays = Some ("r", patch)
    ∧ (Server.video_state ServerSpec.demo_room ServerSpec.demo_clock "r"
         patch).2
      = [Server.Emit (Server.io_to "r") (Server.video_state_msg vs)]
    ∧ Server.updatedBy vs = "alice"
    ∧ Server.playedSeconds vs
      = default
          (Server.playedSeconds
             (Server.videoState
                (ServerSpec.joined Server.initial "s1" ServerSpec.demo_clock
                   "r" "alice" "Alice")))
          (change_playedSeconds alice_plays)
    ∧ ((Qabs ((425 # 10) - Server.playedSeconds vs) <= 2)%Q →
       sync_effect (ready_at (425 # 10) false)
         (Some (UseRoom.handleVideoState vs)) "alice" 1700000009000
       = []).
Proof.
  apply (own_update_is_not_replayed ServerSpec.demo_room
           ServerSpec.demo_clock "r" "alice" alice_plays
           (ServerSpec.joined Server.initial "s1" ServerSpec.demo_clock
              "r" "alice" "Alice")).
  - reflexivity.
  - discriminate.
  - reflexivity.
Defined.

(** X15. A [sync-correction] leaves the author of the state as it was, so
    the user who wrote the state last does not seek for a correction unless
    the player is more than 2 s from the corrected position. *)
Theorem correction_to_author_is_ignored (prev : VideoState) (user : string)
    (c : Component) (current position : Q) (playing : bool) (now now' : Z)
    (Hauthor : updatedBy prev = user)
    (Hplayer : currentTime c = Some current)
    (Hnear : (Qabs (current - position) <= 2)%Q) :
  ∃ vs,
    UseRoom.handleSyncCorrection (Some prev) position playing now = Some vs
    ∧ updatedBy vs = user
    ∧ serverTimestamp vs = serverTimestamp prev
    ∧ sync_effect c (Some vs) user now' = [].
Proof.
  eexists. split; [reflexivity|]. split; [done|]. split; [done|].
  by apply (sync_effect_own _ _ _ _ current).
Qed.

Lemma correction_to_author_is_ignored_witness :
  ∃ vs,
    UseRoom.handleSyncCorrection
      (Some (state_of true (100 # 1) "me" 1700000000000)) (120 # 1) true
      1700000005000
    = Some vs
    ∧ updatedBy vs = "me"
    ∧ serverTimestamp vs
      = serverTimestamp (state_of true (100 # 1) "me" 1700000000000)
    ∧ sync_effect (ready_at (1185 # 10) false) (Some vs) "me" 1700000005100
      = [].
Proof.
  apply (correction_to_author_is_ignored
           (state_of true (100 # 1) "me" 1700000000000) "me"
           (ready_at (1185 # 10) false) (1185 # 10) (120 # 1)).
  - reflexivity.
  - reflexivity.
  - by vm_compute.
Defined.

End VideoPlayerExtra.

(** ** More about the peer connections *)

Module WebRTCExtra.
Import WebRTC WebRTCSpec.

(** *** [createPeerConnection] *)




(** *** Who calls again *)

Lemma ltb_one_way (a b : string) :
  a ≠ b →
  (String.ltb a b = true ∧ String.ltb b a = false)
  ∨ (String.ltb a b = false ∧ String.ltb b a = true).
Proof.
  intros Hne. unfold String.ltb. rewrite (String.compare_antisym b a).
  destruct (String.compare a b) eqn:E; cbn [CompOpp].
  - by apply String.compare_eq_iff in E.
  - by left.
  - by right.
Qed.

(** X17. When the two ends of a connection both run [reconnectPeer], one of
    them, and only one, calls the other again after the wait: the one whose
    user id is the smaller. *)
Theorem one_side_calls_again (a b : string) (st_a st_b : hook)
    (Hne : a ≠ b) :
  (String.ltb a b = true
   ∧ resume_reconnectPeer a st_a b = startCall st_a b
   ∧ resume_reconnectPeer b st_b a = st_b)
  ∨ (String.ltb b a = true
     ∧ resume_reconnectPeer a st_a b = st_a
     ∧ resume_reconnectPeer b st_b a = startCall st_b a).
Proof.
  unfold resume_reconnectPeer.
  destruct (ltb_one_way a b Hne) as [[-> ->]|[-> ->]]; [by left|by right].
Qed.

Lemma one_side_calls_again_witness :
  (String.ltb "alice" "bob" = true
   ∧ resume_reconnectPeer "alice" bob_disconnected "bob"
     = startCall bob_disconnected "bob"
   ∧ resume_reconnectPeer "bob" mounted "alice" = mounted)
  ∨ (String.ltb "bob" "alice" = true
     ∧ resume_reconnectPeer "alice" bob_disconnected "bob" = bob_disconnected
     ∧ resume_reconnectPeer "bob" mounted "alice"
       = startCall mounted "alice").
Proof. apply one_side_calls_again. discriminate. Defined.

(** *** [reconnectPeer] *)

Lemma untrack_fields st p :
  peerConnections (untrack st p) = peerConnections st
  ∧ localStream (untrack st p) = localStream st
  ∧ nextHandle (untrack st p) = nextHandle st
  ∧ isPageVisible (untrack st p) = isPageVisible st
  ∧ reconnectTimeouts (untrack st p) !! p = None
  ∧ (∀ q, q ≠ p →
          reconnectTimeouts (untrack st p) !! q = reconnectTimeouts st !! q).
Proof.
  unfold untrack. destruct (reconnectTimeouts st !! p) as [h|] eqn:Hp.
  - cbn. split_and!; try done.
    + apply lookup_delete_eq.
    + intros q Hq. by apply lookup_delete_ne.
  - by split_and!.
Qed.

Lemma cleanupPeerConnection_fields st p :
  JsObject.get (peerConnections (cleanupPeerConnection st p)) p = None
  ∧ (∀ q, q ≠ p →
          JsObject.get (peerConnections (cleanupPeerConnection st p)) q
          = JsObject.get (peerConnections st) q)
  ∧ pending (cleanupPeerConnection st p) = pending st
  ∧ reconnectTimeouts (cleanupPeerConnection st p) = reconnectTimeouts st
  ∧ nextHandle (cleanupPeerConnection st p) = nextHandle st
  ∧ localStream (cleanupPeerConnection st p) = localStream st.
Proof.
  unfold cleanupPeerConnection.
  destruct (JsObject.get (peerConnections st) p) as [s|] eqn:Hget.
  - cbn. split_and!; try done.
    + apply JsObjectFacts.get_remove_eq.
    + intros q Hq. by apply JsObjectFacts.get_remove_ne.
  - by split_and!.
Qed.

(** X18. [reconnectPeer] leaves no connection held for the peer, no
    reconnect timer pending for it and none recorded, whether the timer it
    found recorded was pending or not; it sets the timer of 500 ms after which
    it goes on, and leaves the connections and the records of the other
    peers alone. *)
Theorem reconnectPeer_clears_peer (userId : string) (st : hook) (p : string)
    (Hreach : reachable userId st) :
  JsObject.get (peerConnections (reconnectPeer st p)) p = None
  ∧ reconnectTimeouts (reconnectPeer st p) !! p = None
  ∧ pending_reconnects (reconnectPeer st p) p = []
  ∧ {| handle := nextHandle st; delay := 500;
       callback_of := reconnect_resume p |} ∈ pending (reconnectPeer st p)
  ∧ ∀ q, q ≠ p →
         JsObject.get (peerConnections (reconnectPeer st p)) q
         = JsObject.get (peerConnections st) q
         ∧ reconnectTimeouts (reconnectPeer st p) !! q
           = reconnectTimeouts st !! q.
Proof.
  pose proof (reachable_inv userId st Hreach) as Hinv.
  pose proof (inv_reconnectPeer st p Hinv) as Hinv'.
  destruct (untrack_fields st p) as (Hpcs & _ & Hnext & _ & Hnone & Hrec).
  destruct (cleanupPeerConnection_fields (untrack st p) p)
    as (Hgone & Hothers & _ & Hrecs & Hnext' & _).
  assert (Hrecord : reconnectTimeouts (reconnectPeer st p) !! p = None).
  { rewrite reconnectPeer_eq. cbn [setTimeout fst reconnectTimeouts].
    by rewrite Hrecs. }
  split_and!.
  - by rewrite reconnectPeer_eq.
  - done.
  - by apply untracked_none_pending.
  - rewrite reconnectPeer_eq. cbn [setTimeout fst pending].
    rewrite Hnext', Hnext. apply elem_of_app. right. left.
  - intros q Hq. rewrite reconnectPeer_eq.
    cbn [setTimeout fst peerConnections reconnectTimeouts]. split.
    + rewrite Hothers by done. by rewrite Hpcs.
    + rewrite Hrecs. by apply Hrec.
Qed.

Lemma reconnectPeer_clears_peer_witness :
  JsObject.get (peerConnections (reconnectPeer bob_stale "bob")) "bob" = None
  ∧ reconnectTimeouts (reconnectPeer bob_stale "bob") !! "bob" = None
  ∧ pending_reconnects (reconnectPeer bob_stale "bob") "bob" = [].
Proof.
  destruct (reconnectPeer_clears_peer "alice" bob_stale "bob")
    as (Hpc & Hrec & Hpend & _).
  - apply reachable_run.
    apply (reachable_run "alice" _ mounted (reachable_mounted "alice")).
  - exact (conj Hpc (conj Hrec Hpend)).
Defined.

(** *** The health check, once more *)

Lemma check_peer_keeps st entry :
  peerConnections (check_peer st entry) = peerConnections st
  ∧ ∀ q, is_Some (reconnectTimeouts st !! q) →
         is_Some (reconnectTimeouts (check_peer st entry) !! q).
Proof.
  destruct (check_peer_cases st entry) as [->|(_ & Hnone & ->)]; [done|].
  split; [done|]. intros q Hq. unfold schedule.
  cbn [set_reconnectTimeouts reconnectTimeouts].
  destruct (decide (entry.1 = q)) as [->|Hne].
  - rewrite lookup_insert_eq. eauto.
  - by rewrite lookup_insert_ne.
Qed.

Lemma foldl_check_peer_keeps entries :
  ∀ st,
    peerConnections (foldl check_peer st entries) = peerConnections st
    ∧ ∀ q, is_Some (reconnectTimeouts st !! q) →
           is_Some (reconnectTimeouts (foldl check_peer st entries) !! q).
Proof.
  induction entries as [|entry entries IH]; intros st; [done|].
  cbn [foldl]. destruct (IH (check_peer st entry)) as [Hpcs Hrec].
  destruct (check_peer_keeps st entry) as [Hpcs' Hrec'].
  split; [congruence|]. intros q Hq. by apply Hrec, Hrec'.
Qed.

Lemma check_peer_records st entry :
  needs_reconnect entry.2 = true →
  is_Some (reconnectTimeouts (check_peer st entry) !! entry.1).
Proof.
  intros Hneeds. unfold check_peer. rewrite Hneeds.
  destruct (reconnectTimeouts st !! entry.1) as [h|] eqn:E.
  - rewrite E. eauto.
  - cbn [set_reconnectTimeouts reconnectTimeouts].
    rewrite lookup_insert_eq. eauto.
Qed.

Lemma foldl_check_peer_records entries :
  ∀ st entry,
    entry ∈ entries → needs_reconnect entry.2 = true →
    is_Some (reconnectTimeouts (foldl check_peer st entries) !! entry.1).
Proof.
  induction entries as [|e0 entries IH]; intros st entry Hin Hneeds.
  - by apply elem_of_nil in Hin.
  - cbn [foldl]. apply elem_of_cons in Hin as [Heq|Hin].
    + subst e0. apply foldl_check_peer_keeps. by apply check_peer_records.
    + by apply IH.
Qed.

Lemma foldl_check_peer_done entries :
  ∀ st,
    (∀ entry, entry ∈ entries → needs_reconnect entry.2 = true →
              is_Some (reconnectTimeouts st !! entry.1)) →
    foldl check_peer st entries = st.
Proof.
  induction entries as [|e0 entries IH]; intros st Hrec; [done|].
  cbn [foldl].
  assert (Hsame : check_peer st e0 = st).
  { destruct (needs_reconnect e0.2) eqn:Hneeds.
    - apply check_peer_recorded, Hrec; [left|done].
    - unfold check_peer. by rewrite Hneeds. }
  rewrite Hsame. apply IH. intros entry Hin. apply Hrec. by right.
Qed.

(** X19. A tick of the health check that follows another, nothing having
    happened in between, changes nothing at all: every connection that the
    first found failed or disconnected has its timer recorded. *)
Theorem health_check_twice (st : hook) :
  health_check (health_check st) = health_check st.
Proof.
  destruct (isPageVisible st) eqn:Hvis; cycle 1.
  { assert (E : health_check st = st)
      by (unfold health_check; by rewrite Hvis).
    by rewrite !E. }
  assert (E : health_check st
              = foldl check_peer st (JsObject.entries (peerConnections st)))
    by (unfold health_check; by rewrite Hvis).
  rewrite E. unfold health_check.
  rewrite isPageVisible_foldl_check_peer, Hvis.
  destruct (foldl_check_peer_keeps (JsObject.entries (peerConnections st)) st)
    as [Hpcs _].
  rewrite Hpcs. apply foldl_check_peer_done. intros entry Hin Hneeds.
  by apply foldl_check_peer_records.
Qed.

(** *** A peer that has left *)

(** [cleanupPeerConnection] of a connection that is held calls
    [setRemoteStreams] with a new object.  [remoteStreams] is a dependency
    of the visibility effect, so the component renders again and the
    cleanup of that effect runs: [user-disconnected] for such a peer is
    followed by [EffectCleanup]. *)
Definition user_disconnected (peerId : string) : list event :=
  [UserDisconnected peerId; EffectCleanup].

Lemma clear_reconnect_timeouts_recorded st p h t :
  reconnectTimeouts st !! p = Some h →
  t ∈ pending (clear_reconnect_timeouts st) → handle t ≠ h.
Proof.
  intros Hrec. unfold clear_reconnect_timeouts. cbn [pending set_pending].
  intros [Hnot _]%list_elem_of_filter Heq. apply Hnot.
  apply list_elem_of_fmap. exists (p, h). split; [by rewrite Heq|].
  by apply elem_of_map_to_list.
Qed.

(** X20. Let [user-disconnected] arrive for a peer whose connection is
    held while a reconnect timer is recorded for that peer.  The handler
    closes the connection, and the render that follows runs the cleanup of
    the visibility effect, which clears the recorded timers and keeps their
    records.  After the two, no connection is held for the peer, no
    reconnect is pending for it and its timer can no longer fire, so that
    the peer that is gone is not called again; the handle is still
    recorded, so that the health check sets no timer for this peer, whatever
    the state of a connection to it. *)
Theorem departed_peer_is_not_called_again (userId : string) (st : hook)
    (p : string) (s : connectionState) (h : positive)
    (Hreach : reachable userId st)
    (Hheld : JsObject.get (peerConnections st) p = Some s)
    (Hrecorded : reconnectTimeouts st !! p = Some h) :
  ∃ st',
    run userId st (user_disconnected p) = st'
    ∧ JsObject.get (peerConnections st') p = None
    ∧ pending_reconnects st' p = []
    ∧ reconnectTimeouts st' !! p = Some h
    ∧ fire userId st' h = st'
    ∧ ∀ s', check_peer st' (p, s') = st'.
Proof.
  pose proof (reachable_inv userId st Hreach) as Hinv.
  destruct (cleanupPeerConnection_fields st p)
    as (Hgone & _ & Hpend & Hrecs & _ & _).
  eexists. split; [reflexivity|].
  unfold user_disconnected, run. cbn [foldl step].
  set (st1 := cleanupPeerConnection st p) in *.
  assert (Hrec1 : reconnectTimeouts st1 !! p = Some h) by by rewrite Hrecs.
  assert (Hinv1 : inv st1) by by apply inv_cleanupPeerConnection.
  split_and!.
  - done.
  - apply elem_of_nil_inv. intros t. unfold pending_reconnects.
    intros [Hcb Hin]%list_elem_of_filter.
    apply (clear_reconnect_timeouts_recorded st1 p h t Hrec1 Hin).
    unfold clear_reconnect_timeouts in Hin. cbn [pending set_pending] in Hin.
    apply list_elem_of_filter in Hin as [_ Hin].
    pose proof (inv_tracked st1 Hinv1) as Htracked.
    rewrite Forall_forall in Htracked.
    specialize (Htracked t Hin p Hcb). congruence.
  - done.
  - unfold fire.
    destruct (List.find _ _) as [t|] eqn:Hfind; [|done].
    apply find_some in Hfind as [Hin Heq].
    apply bool_decide_eq_true in Heq. apply list_elem_of_In in Hin.
    by destruct (clear_reconnect_timeouts_recorded st1 p h t Hrec1 Hin).
  - intros s'. unfold check_peer. cbn [fst snd].
    destruct (needs_reconnect s'); [|done].
    by cbn [clear_reconnect_timeouts reconnectTimeouts set_pending]; rewrite Hrec1.
Qed.

(** A tick has set the timer for "bob", who then leaves. *)
Definition bob_scheduled : hook := run "alice" bob_disconnected [Tick].

Lemma departed_peer_is_not_called_again_witness :
  JsObject.get
    (peerConnections (run "alice" bob_scheduled (user_disconnected "bob")))
    "bob"
  = None
  ∧ pending (run "alice" bob_scheduled (user_disconnected "bob")) = []
  ∧ reconnectTimeouts (run "alice" bob_scheduled (user_disconnected "bob"))
    !! "bob"
    = Some 1%positive
  ∧ pending bob_scheduled = [reconnect_timer 1 "bob"].
Proof.
  destruct (departed_peer_is_not_called_again "alice" bob_scheduled "bob"
              disconnected 1) as (st' & <- & Hgone & _ & Hrec & _).
  - apply reachable_run.
    apply (reachable_run "alice" _ mounted (reachable_mounted "alice")).
  - reflexivity.
  - reflexivity.
  - split; [exact Hgone|]. split; [reflexivity|]. split; [exact Hrec|].
    reflexivity.
Defined.

End WebRTCExtra.

(** ** The way of a position report *)

Module CorrectionPath.
Import Server ServerSpec.

Lemma position_report_cases st clk roomId userId reported buffering st' effs :
  position_report st clk roomId userId reported buffering = Some (st', effs) →
  effs = []
  ∨ ∃ room u,
      rooms st !! roomId = Some room
      ∧ JsObject.get (users room) userId = Some u
      ∧ (3 # 10 < report_drift (videoState room) reported)%Q
      ∧ isPlaying (videoState room) = true
      ∧ buffering = false
      ∧ socketId u ≠ EmptyString
      ∧ effs
        = [Emit (io_to (socketId u))
             (sync_correction (playedSeconds (videoState room))
                (isPlaying (videoState room)) (clk 1%nat)
                (report_drift (videoState room) reported)
                (quality
                   (record_drift
                      (default (fresh_quality (clk 0%nat))
                         (connectionQuality u))
                      (report_drift (videoState room) reported)
                      (clk 0%nat))))].
Proof.
  unfold position_report.
  destruct (rooms st !! roomId) as [room|] eqn:Hroom;
    [|intros [= <- <-]; by left].
  destruct (JsObject.get (users room) userId) as [u|] eqn:Hu;
    [|destruct (JsObject.inherited userId); [intros [= <- <-]; by left|done]].
  intros [= <- <-].
  destruct (Qgtb _ _) eqn:Hd; [|by left].
  destruct (isPlaying (videoState room)) eqn:Hp; [|by left].
  destruct buffering; [by left|]. cbn [andb negb].
  cbn [socketId set_connectionQuality].
  destruct (truthy (socketId u)) eqn:Ht; [|by left].
  right. exists room, u. apply Qgtb_lt in Hd.
  unfold truthy in Ht. apply negb_true_iff, bool_decide_eq_false in Ht.
  split_and!; try done. by rewrite Hp.
Qed.



(** *** From the player to the server *)

Lemma handleProgress_report pr p playedSeconds now ps b :
  VideoPlayerHandlers.ReportPosition ps b
  ∈ (VideoPlayerHandlers.handleProgress pr p playedSeconds now).2 →
  ps = playedSeconds
  ∧ b = VideoPlayer.localBuffering (VideoPlayerHandlers.component p).
Proof.
  unfold VideoPlayerHandlers.handleProgress.
  destruct (_ && _); [destruct (Qgtb _ _)|]; cbn [snd].
  - intros [Heq|Hin]%elem_of_cons.
    + by injection Heq as -> ->.
    + by apply list_elem_of_singleton in Hin.
  - by intros [= -> ->]%list_elem_of_singleton.
  - by intros [= -> ->]%list_elem_of_singleton.
Qed.

(** X22. While the player of a user is buffering, nothing that its progress
    events send to the server, through [reportPosition], is answered by a
    correction. *)
Theorem buffering_player_is_not_corrected
    (pr : VideoPlayerHandlers.props) (p : VideoPlayerHandlers.player)
    (playedSeconds : Q) (now : Z) (roomId user : string) (status : bool)
    (st : state) (sid : string) (clk : Clock)
    (Hbuffering :
       VideoPlayer.localBuffering (VideoPlayerHandlers.component p) = true) :
  ∀ ps b ev st' effs target position playing stamp drift quality,
    VideoPlayerHandlers.ReportPosition ps b
    ∈ (VideoPlayerHandlers.handleProgress pr p playedSeconds now).2 →
    ev ∈ (UseRoom.reportPosition roomId user status ps b).1 →
    handle st sid clk ev = Some (st', effs) →
    Emit target (sync_correction position playing stamp drift quality)
    ∉ effs.
Proof.
  intros ps b ev st' effs target position playing stamp drift quality
    Hout Hev Hstep Hin.
  apply handleProgress_report in Hout as [-> ->]. rewrite Hbuffering in Hev.
  unfold UseRoom.reportPosition in Hev.
  destruct (truthy user && truthy roomId); cbn [fst] in Hev;
    [|by apply elem_of_nil in Hev].
  apply elem_of_cons in Hev as [->|Hev].
  - cbn [handle] in Hstep. apply guarded_Some in Hstep as [_ Hstep].
    destruct (position_report_cases _ _ _ _ _ _ _ _ Hstep)
      as [->|(_ & _ & _ & _ & _ & _ & Hb & _)]; [|done].
    by apply elem_of_nil in Hin.
  - destruct (negb _); [|by apply elem_of_nil in Hev].
    apply list_elem_of_singleton in Hev as ->. cbn [handle] in Hstep.
    apply guarded_Some in Hstep as [_ Hstep].
    injection Hstep as Hstep. unfold buffer_state in Hstep.
    destruct (rooms st !! roomId) as [room|];
      [destruct (JsObject.get (users room) user);
         [|destruct (JsObject.inherited user)]|];
      injection Hstep as <- <-.
    + by apply list_elem_of_singleton in Hin.
    + by apply list_elem_of_singleton in Hin.
    + by apply elem_of_nil in Hin.
    + by apply elem_of_nil in Hin.
Qed.

Definition bob_buffering : VideoPlayerHandlers.player :=
  (VideoPlayerHandlers.step VideoPlayerExtra.bob_props
     VideoPlayerExtra.bob_ready VideoPlayerHandlers.Buffer).1.

Lemma buffering_player_is_not_corrected_witness :
  Emit (io_to "s1")
    (sync_correction (120 # 1) true 1700000000001 (55 # 10) good)
  ∉ default []
      (snd <$> handle playing_room "s1" demo_clock
                 (PositionReport "r" "alice" (1255 # 10) true)).
Proof.
  destruct (handle playing_room "s1" demo_clock
              (PositionReport "r" "alice" (1255 # 10) true))
    as [[st' effs]|] eqn:Hstep; [|apply not_elem_of_nil].
  cbn [fmap option_fmap option_map default snd].
  apply (buffering_player_is_not_corrected VideoPlayerExtra.bob_props
           bob_buffering (1255 # 10) 1700000000700 "r" "alice" false
           playing_room "s1" demo_clock eq_refl (1255 # 10) true
           (PositionReport "r" "alice" (1255 # 10) true) st' effs).
  - left.
  - left.
  - exact Hstep.
Defined.

End CorrectionPath.
